(** * Breadth-first search over adjacency-list graphs and 2D grids

    A shallow embedding of [src/cpp/algorithms/bfs.h] (namespace [BFS]) and
    the properties of its queries.

    Conventions of the embedding.
    - A C++ [int] is a [Z].  Vertex ids are only compared and stored; the only
      arithmetic is [distance + 1] and [row + dr], which stay far below the
      range of [int] on any graph or grid that fits in memory.
    - [std::unordered_map<int, std::vector<int>>] is a [gmap Z (list Z)],
      [std::unordered_set<int>] a [gset Z], [std::queue] a list whose head is
      the front, [std::vector] a list.
    - The iteration order of an [unordered_map] is unspecified.  Functions
      that iterate over the map take the enumeration as an argument
      ([isConnected_over], [findConnectedComponents_over]) and are stated for
      every enumeration that is a permutation of the keys.
    - Every [while] loop is a [Fixpoint] over a bound on its iterations and
      answers [OutOfFuel] when the bound is exhausted; the totality lemmas
      show that the bounds chosen in the entry points are never exhausted.
    - An out-of-range [operator[]] on a vector is undefined behaviour and is
      answered by [Undefined]. *)

From stdpp Require Import gmap list sorting.
From Stdlib Require Import ZArith Lia.

#[local] Set Warnings "-clear-no-such-hyp".

Inductive outcome (A : Type) : Type :=
| Returns (a : A)
| Undefined
| OutOfFuel.
Arguments Returns {A} a.
Arguments Undefined {A}.
Arguments OutOfFuel {A}.

#[global] Instance outcome_bind : MBind outcome := λ A B k o,
  match o with
  | Returns a => k a
  | Undefined => Undefined
  | OutOfFuel => OutOfFuel
  end.

(** [v[i]] for a [std::vector] and an [int] index. *)
Definition at_index {A} (v : list A) (i : Z) : outcome A :=
  if decide (0 ≤ i)%Z then
    match v !! Z.to_nat i with
    | Some a => Returns a
    | None => Undefined
    end
  else Undefined.

Module BFS.

(** ** The graph container *)

Record Graph : Type := mkGraph {
  adjList : gmap Z (list Z);
  isDirected : bool
}.

(** [explicit Graph(bool directed = false)] *)
Definition newGraph (directed : bool) : Graph := mkGraph ∅ directed.

(** [adj[key].push_back(value)]: [operator[]] creates the entry when absent. *)
Definition push_back_at (adj : gmap Z (list Z)) (key value : Z)
  : gmap Z (list Z) :=
  <[key := default [] (adj !! key) ++ [value]]> adj.

Definition addEdge (g : Graph) (from to : Z) : Graph :=
  let adj := push_back_at (adjList g) from to in
  let adj := if isDirected g then adj else push_back_at adj to from in
  mkGraph adj (isDirected g).

Definition addVertex (g : Graph) (vertex : Z) : Graph :=
  match adjList g !! vertex with
  | None => mkGraph (<[vertex := []]> (adjList g)) (isDirected g)
  | Some _ => g
  end.

Definition getNeighbors (g : Graph) (vertex : Z) : list Z :=
  default [] (adjList g !! vertex).

(** One enumeration of the keys; the source's order is unspecified. *)
Definition getAllVertices (g : Graph) : list Z :=
  (map_to_list (adjList g)).*1.

Definition hasVertex (g : Graph) (vertex : Z) : bool :=
  bool_decide (is_Some (adjList g !! vertex)).

Definition getVertexCount (g : Graph) : nat := size (adjList g).

(** Graphs that a client can build: a constructor call followed by
    [addVertex] and [addEdge] calls. *)
Inductive built (directed : bool) : Graph → Prop :=
| built_new : built directed (newGraph directed)
| built_addVertex g v : built directed g → built directed (addVertex g v)
| built_addEdge g u v : built directed g → built directed (addEdge g u v).

(** ** Loop bounds *)

(** Every id that can ever enter a queue: the keys and all stored neighbor
    entries. *)
Definition universe (g : Graph) : list Z :=
  getAllVertices g ++ mjoin (map_to_list (adjList g)).*2.

Definition loop_bound (g : Graph) : nat := S (length (universe g)).

(** ** traverse *)

(** The body of [for (int neighbor : graph.getNeighbors(current))]. *)
Definition visit (state : gset Z * list Z) (neighbor : Z)
  : gset Z * list Z :=
  let '(visited, queue) := state in
  if decide (neighbor ∈ visited) then (visited, queue)
  else ({[neighbor]} ∪ visited, queue ++ [neighbor]).

Fixpoint traverse_loop (fuel : nat) (g : Graph)
    (queue : list Z) (visited : gset Z) (result : list Z)
  : outcome (list Z) :=
  match fuel with
  | O => OutOfFuel
  | S fuel =>
    match queue with
    | [] => Returns result
    | current :: queue =>
      let result := result ++ [current] in
      let '(visited, queue) :=
        foldl visit (visited, queue) (getNeighbors g current) in
      traverse_loop fuel g queue visited result
    end
  end.

Definition traverse (g : Graph) (start : Z) : outcome (list Z) :=
  if negb (hasVertex g start) then Returns []
  else traverse_loop (loop_bound g) g [start] {[start]} [].

(** ** shortestPath *)

(** [while (node != -1) { path.push_back(node); node = parent[node]; }]
    followed by [std::reverse].  [parent[node]] on a missing key yields the
    value-initialised [0]. *)
Fixpoint reconstruct (fuel : nat) (parent : gmap Z Z) (node : Z)
    (path : list Z) : outcome (list Z) :=
  match fuel with
  | O => OutOfFuel
  | S fuel =>
    if decide (node = (-1)%Z) then Returns (reverse path)
    else reconstruct fuel parent (default 0%Z (parent !! node)) (path ++ [node])
  end.

Definition visit_parent (current : Z)
    (state : gset Z * list Z * gmap Z Z) (neighbor : Z)
  : gset Z * list Z * gmap Z Z :=
  let '(visited, queue, parent) := state in
  if decide (neighbor ∈ visited) then (visited, queue, parent)
  else ({[neighbor]} ∪ visited, queue ++ [neighbor],
        <[neighbor := current]> parent).

Fixpoint shortestPath_loop (fuel : nat) (g : Graph) (target : Z)
    (queue : list Z) (visited : gset Z) (parent : gmap Z Z)
  : outcome (list Z) :=
  match fuel with
  | O => OutOfFuel
  | S fuel =>
    match queue with
    | [] => Returns []
    | current :: queue =>
      if decide (current = target) then
        reconstruct (loop_bound g) parent target []
      else
        let '(visited, queue, parent) :=
          foldl (visit_parent current) (visited, queue, parent)
                (getNeighbors g current) in
        shortestPath_loop fuel g target queue visited parent
    end
  end.

Definition shortestPath (g : Graph) (start target : Z) : outcome (list Z) :=
  if negb (hasVertex g start) || negb (hasVertex g target) then Returns []
  else if decide (start = target) then Returns [start]
  else shortestPath_loop (loop_bound g) g target
         [start] {[start]} {[start := (-1)%Z]}.

(** ** shortestDistance *)

(** The neighbor loop of [shortestDistance]: [inl d] is [return d]. *)
Fixpoint scan_neighbors (target distance : Z) (neighbors : list Z)
    (visited : gset Z) (queue : list (Z * Z))
  : Z + (gset Z * list (Z * Z)) :=
  match neighbors with
  | [] => inr (visited, queue)
  | neighbor :: neighbors =>
    if decide (neighbor = target) then inl (distance + 1)%Z
    else if decide (neighbor ∈ visited) then
      scan_neighbors target distance neighbors visited queue
    else
      scan_neighbors target distance neighbors
        ({[neighbor]} ∪ visited) (queue ++ [(neighbor, (distance + 1)%Z)])
  end.

Fixpoint shortestDistance_loop (fuel : nat) (g : Graph) (target : Z)
    (queue : list (Z * Z)) (visited : gset Z) : outcome Z :=
  match fuel with
  | O => OutOfFuel
  | S fuel =>
    match queue with
    | [] => Returns (-1)%Z
    | (current, distance) :: queue =>
      match scan_neighbors target distance (getNeighbors g current)
              visited queue with
      | inl d => Returns d
      | inr (visited, queue) =>
        shortestDistance_loop fuel g target queue visited
      end
    end
  end.

Definition shortestDistance (g : Graph) (start target : Z) : outcome Z :=
  if negb (hasVertex g start) || negb (hasVertex g target) then
    Returns (-1)%Z
  else if decide (start = target) then Returns 0%Z
  else shortestDistance_loop (loop_bound g) g target [(start, 0%Z)] {[start]}.

(** ** verticesAtDistance *)

Definition visit_level (next : Z) (state : gset Z * list (Z * Z))
    (neighbor : Z) : gset Z * list (Z * Z) :=
  let '(visited, queue) := state in
  if decide (neighbor ∈ visited) then (visited, queue)
  else ({[neighbor]} ∪ visited, queue ++ [(neighbor, next)]).

Fixpoint verticesAtDistance_loop (fuel : nat) (g : Graph) (distance : Z)
    (queue : list (Z * Z)) (visited : gset Z) (result : list Z)
  : outcome (list Z) :=
  match fuel with
  | O => OutOfFuel
  | S fuel =>
    match queue with
    | [] => Returns result
    | (current, currentDistance) :: queue =>
      if decide (currentDistance = distance) then
        verticesAtDistance_loop fuel g distance queue visited
          (result ++ [current])
      else if decide (currentDistance < distance)%Z then
        let '(visited, queue) :=
          foldl (visit_level (currentDistance + 1)%Z) (visited, queue)
                (getNeighbors g current) in
        verticesAtDistance_loop fuel g distance queue visited result
      else
        verticesAtDistance_loop fuel g distance queue visited result
    end
  end.

Definition verticesAtDistance (g : Graph) (start distance : Z)
  : outcome (list Z) :=
  if negb (hasVertex g start) || bool_decide (distance < 0)%Z then Returns []
  else if decide (distance = 0%Z) then Returns [start]
  else verticesAtDistance_loop (loop_bound g) g distance
         [(start, 0%Z)] {[start]} [].

(** ** isConnected *)

(** [vertices] is the enumeration [graph.getAllVertices()] produced. *)
Definition isConnected_over (vertices : list Z) (g : Graph) : outcome bool :=
  match vertices with
  | [] => Returns true
  | first :: _ =>
    traversalResult ← traverse g first;
    Returns (bool_decide (length traversalResult = length vertices))
  end.

Definition isConnected (g : Graph) : outcome bool :=
  isConnected_over (getAllVertices g) g.

(** ** findConnectedComponents *)

Definition visit_global (state : gset Z * gset Z * list Z) (neighbor : Z)
  : gset Z * gset Z * list Z :=
  let '(visited, globalVisited, queue) := state in
  if decide (neighbor ∈ visited) then (visited, globalVisited, queue)
  else ({[neighbor]} ∪ visited, {[neighbor]} ∪ globalVisited,
        queue ++ [neighbor]).

Fixpoint component_loop (fuel : nat) (g : Graph) (queue : list Z)
    (visited globalVisited : gset Z) (component : list Z)
  : outcome (list Z * gset Z) :=
  match fuel with
  | O => OutOfFuel
  | S fuel =>
    match queue with
    | [] => Returns (component, globalVisited)
    | current :: queue =>
      let component := component ++ [current] in
      let '(visited, globalVisited, queue) :=
        foldl visit_global (visited, globalVisited, queue)
              (getNeighbors g current) in
      component_loop fuel g queue visited globalVisited component
    end
  end.

(** The [for (int vertex : graph.getAllVertices())] loop. *)
Fixpoint components_loop (g : Graph) (vertices : list Z)
    (globalVisited : gset Z) (components : list (list Z))
  : outcome (list (list Z)) :=
  match vertices with
  | [] => Returns components
  | vertex :: vertices =>
    if decide (vertex ∈ globalVisited) then
      components_loop g vertices globalVisited components
    else
      r ← component_loop (loop_bound g) g [vertex] {[vertex]}
            ({[vertex]} ∪ globalVisited) [];
      components_loop g vertices r.2 (components ++ [r.1])
  end.

Definition findConnectedComponents_over (vertices : list Z) (g : Graph)
  : outcome (list (list Z)) :=
  components_loop g vertices ∅ [].

Definition findConnectedComponents (g : Graph) : outcome (list (list Z)) :=
  findConnectedComponents_over (getAllVertices g) g.

(** ** gridBFS *)

(** [m[r][c]] as a read and as a write on a vector of vectors. *)
Definition at2 {A} (m : list (list A)) (r c : Z) : outcome A :=
  row ← at_index m r; at_index row c.

Definition set2 {A} (m : list (list A)) (r c : Z) (x : A)
  : outcome (list (list A)) :=
  row ← at_index m r;
  _ ← at_index row c;
  Returns (<[Z.to_nat r := <[Z.to_nat c := x]> row]> m).

Abbreviation Cell := (Z * Z)%type.

(** up, down, left, right *)
Definition directions : list (Z * Z) :=
  [((-1)%Z, 0%Z); (1%Z, 0%Z); (0%Z, (-1)%Z); (0%Z, 1%Z)].

Record GridState : Type := mkGridState {
  gs_visited : list (list bool);
  gs_parent : list (list Cell);
  gs_queue : list Cell
}.

Definition in_bounds (rows cols row col : Z) : bool :=
  bool_decide (0 ≤ row)%Z && bool_decide (row < rows)%Z &&
  bool_decide (0 ≤ col)%Z && bool_decide (col < cols)%Z.

(** The body of [for (auto [dr, dc] : directions)]; the conjunction is
    evaluated left to right and stops at the first false conjunct. *)
Definition visit_cell (grid : list (list Z)) (rows cols row col : Z)
    (st : GridState) (d : Z * Z) : outcome GridState :=
  let newRow := (row + d.1)%Z in
  let newCol := (col + d.2)%Z in
  if in_bounds rows cols newRow newCol then
    seen ← at2 (gs_visited st) newRow newCol;
    if (seen : bool) then Returns st
    else
      cell ← at2 grid newRow newCol;
      if decide (cell = 0%Z) then
        visited ← set2 (gs_visited st) newRow newCol true;
        parent ← set2 (gs_parent st) newRow newCol (row, col);
        Returns (mkGridState visited parent (gs_queue st ++ [(newRow, newCol)]))
      else Returns st
  else Returns st.

Fixpoint visit_cells (grid : list (list Z)) (rows cols row col : Z)
    (st : GridState) (ds : list (Z * Z)) : outcome GridState :=
  match ds with
  | [] => Returns st
  | d :: ds =>
    st ← visit_cell grid rows cols row col st d;
    visit_cells grid rows cols row col st ds
  end.

(** [while (currentRow != -1 && currentCol != -1)] and [std::reverse]. *)
Fixpoint grid_reconstruct (fuel : nat) (parent : list (list Cell))
    (currentRow currentCol : Z) (path : list Cell) : outcome (list Cell) :=
  match fuel with
  | O => OutOfFuel
  | S fuel =>
    if decide (currentRow ≠ (-1)%Z ∧ currentCol ≠ (-1)%Z) then
      p ← at2 parent currentRow currentCol;
      grid_reconstruct fuel parent p.1 p.2
        (path ++ [(currentRow, currentCol)])
    else Returns (reverse path)
  end.

Fixpoint gridBFS_loop (fuel : nat) (grid : list (list Z))
    (rows cols targetRow targetCol : Z) (st : GridState)
  : outcome (list Cell) :=
  match fuel with
  | O => OutOfFuel
  | S fuel =>
    match gs_queue st with
    | [] => Returns []
    | (row, col) :: queue =>
      if decide (row = targetRow ∧ col = targetCol) then
        grid_reconstruct (S (Z.to_nat (rows * cols))) (gs_parent st)
          targetRow targetCol []
      else
        st ← visit_cells grid rows cols row col
               (mkGridState (gs_visited st) (gs_parent st) queue) directions;
        gridBFS_loop fuel grid rows cols targetRow targetCol st
    end
  end.

Definition gridBFS (grid : list (list Z))
    (startRow startCol targetRow targetCol : Z) : outcome (list Cell) :=
  match grid with
  | [] => Returns []
  | [] :: _ => Returns []
  | (_ :: _) as row0 :: _ =>
    let rows := Z.of_nat (length grid) in
    let cols := Z.of_nat (length row0) in
    if negb (in_bounds rows cols startRow startCol) ||
       negb (in_bounds rows cols targetRow targetCol) then Returns []
    else
      startCell ← at2 grid startRow startCol;
      if decide (startCell = 1%Z) then Returns []
      else
        targetCell ← at2 grid targetRow targetCol;
        if decide (targetCell = 1%Z) then Returns []
        else if decide (startRow = targetRow ∧ startCol = targetCol) then
          Returns [(startRow, startCol)]
        else
          let visited :=
            replicate (length grid) (replicate (length row0) false) in
          let parent :=
            replicate (length grid)
              (replicate (length row0) ((-1)%Z, (-1)%Z)) in
          visited ← set2 visited startRow startCol true;
          gridBFS_loop (S (Z.to_nat (rows * cols))) grid rows cols
            targetRow targetCol
            (mkGridState visited parent [(startRow, startCol)])
  end.

End BFS.

Import BFS.

(** * Specification side: walks and graph distance *)

(** [walk nbrs u v n]: [v] is reached from [u] along [n] edges of the
    neighbor function [nbrs]. *)
Inductive walk (nbrs : Z → list Z) (u : Z) : Z → nat → Prop :=
| walk_here : walk nbrs u u 0
| walk_edge w v n : walk nbrs u w n → v ∈ nbrs w → walk nbrs u v (S n).

Definition reachable (nbrs : Z → list Z) (u v : Z) : Prop :=
  ∃ n, walk nbrs u v n.

(** The graph distance: the length of a shortest walk. *)
Definition dist (nbrs : Z → list Z) (u v : Z) (n : nat) : Prop :=
  walk nbrs u v n ∧ ∀ m, walk nbrs u v m → n ≤ m.

(** The eccentricity of [u]: the largest distance of a vertex from [u]. *)
Definition eccentricity (nbrs : Z → list Z) (u : Z) (e : nat) : Prop :=
  (∃ v, dist nbrs u v e) ∧ ∀ v n, dist nbrs u v n → n ≤ e.

(** * The frontier expansion shared by the five graph loops *)

(** The neighbors that one expansion discovers, in discovery order. *)
Fixpoint fresh (visited : gset Z) (neighbors : list Z) : list Z :=
  match neighbors with
  | [] => []
  | n :: neighbors =>
    if decide (n ∈ visited) then fresh visited neighbors
    else n :: fresh ({[n]} ∪ visited) neighbors
  end.

Definition labelled {L} (d : L) (vs : list Z) : list (Z * L) :=
  (λ v, (v, d)) <$> vs.

(** The loop of [traverse] with every vertex annotated by the level at
    which it was discovered; [out] collects the dequeued vertices. *)
Fixpoint bfs_run (fuel : nat) (nbrs : Z → list Z)
    (out queue : list (Z * nat)) (seen : gset Z)
  : outcome (list (Z * nat) * gset Z) :=
  match fuel with
  | O => OutOfFuel
  | S fuel =>
    match queue with
    | [] => Returns (out, seen)
    | (u, d) :: queue =>
      let new := fresh seen (nbrs u) in
      bfs_run fuel nbrs (out ++ [(u, d)]) (queue ++ labelled (S d) new)
        (list_to_set new ∪ seen)
    end
  end.

(** What holds of the annotated state before every iteration. *)
Record bfs_inv (nbrs : Z → list Z) (U : list Z) (s : Z)
    (out queue : list (Z * nat)) (seen : gset Z) : Prop := {
  inv_start : s ∈ seen;
  inv_seen : ∀ x, x ∈ seen ↔ x ∈ (out ++ queue).*1;
  inv_nodup : NoDup (out ++ queue).*1;
  inv_dist : ∀ v d, (v, d) ∈ out ++ queue → dist nbrs s v d;
  inv_sorted : StronglySorted le (out ++ queue).*2;
  inv_window : ∀ u d q x, queue = (u, d) :: q → x ∈ q → x.2 ≤ S d;
  inv_closed : ∀ u d w, (u, d) ∈ out → w ∈ nbrs u → w ∈ seen;
  inv_univ : ∀ x, x ∈ seen → x ∈ U
}.

(** The queue of [(vertex, distance)] pairs as the source stores it. *)
Definition zqueue (q : list (Z * nat)) : list (Z * Z) :=
  (λ p, (p.1, Z.of_nat p.2)) <$> q.

(** * Ghost state of the proofs and example inputs *)

(** The parent entries written by one expansion. *)
Definition set_parents (current : Z) (parent : gmap Z Z) (new : list Z)
  : gmap Z Z :=
  foldl (λ parent w, <[w := current]> parent) parent new.

(** Every discovered vertex other than the start points to a vertex one
    level up; the start points to the sentinel. *)
Definition parent_inv (parent : gmap Z Z) (known : list (Z * nat)) : Prop :=
  ∀ v d, (v, d) ∈ known →
    match d with
    | 0 => parent !! v = Some (-1)%Z
    | S d' => ∃ p, parent !! v = Some p ∧ (p, d') ∈ known
    end.

(** [v] occurs in the graph, as a key or as a stored neighbor. *)
Definition mentions (g : Graph) (v : Z) : Prop :=
  hasVertex g v = true ∨ ∃ u, v ∈ getNeighbors g u.

(** What the outer loop of [findConnectedComponents] maintains on an
    undirected graph: the components found so far are disjoint reachability
    classes of vertices, and [globalVisited] is their union. *)
Record components_inv (g : Graph) (globalVisited : gset Z)
    (components : list (list Z)) : Prop := {
  cinv_union : ∀ v, v ∈ globalVisited ↔ v ∈ mjoin components;
  cinv_nodup : NoDup (mjoin components);
  cinv_closed : ∀ u v,
    u ∈ globalVisited → reachable (getNeighbors g) u v → v ∈ globalVisited;
  cinv_vertices : ∀ v, v ∈ globalVisited → hasVertex g v = true;
  cinv_class : Forall (λ c, ∃ x, ∀ v, v ∈ c ↔ reachable (getNeighbors g) x v)
                 components
}.

(** A [rows] by [cols] matrix. *)
Definition dims {A} (m : list (list A)) (rows cols : nat) : Prop :=
  length m = rows ∧ ∀ row, row ∈ m → length row = cols.

(** Every row is as long as [grid[0]]. *)
Definition rectangular (grid : list (list Z)) : Prop :=
  ∀ row, row ∈ grid → length row = length (default [] (head grid)).

Definition inside (rows cols : nat) (cell : Cell) : Prop :=
  (0 ≤ cell.1 < Z.of_nat rows)%Z ∧ (0 ≤ cell.2 < Z.of_nat cols)%Z.

(** [b] is one step up, down, left or right of [a]. *)
Definition adjacent (a b : Cell) : Prop :=
  ∃ d, d ∈ directions ∧ b = ((a.1 + d.1)%Z, (a.2 + d.2)%Z).

(** [grid_walk grid rows cols start c l]: [l] leads from [start] to [c] by
    single steps through cells of the grid whose value is [0]; nothing is
    asked of the value at [start]. *)
Inductive grid_walk (grid : list (list Z)) (rows cols : nat) (start : Cell)
  : Cell → list Cell → Prop :=
| grid_walk_start :
    inside rows cols start → grid_walk grid rows cols start start [start]
| grid_walk_step p c l :
    grid_walk grid rows cols start p l →
    adjacent p c → inside rows cols c →
    at2 grid c.1 c.2 = Returns 0%Z →
    grid_walk grid rows cols start c (l ++ [c]).

(** What holds before every iteration of the grid loop; [processed] lists
    the cells dequeued so far, so [processed ++ gs_queue st] is the order of
    discovery. *)
Record grid_inv (grid : list (list Z)) (rows cols : nat) (start : Cell)
    (processed : list Cell) (st : GridState) : Prop := {
  ginv_visited_dims : dims (gs_visited st) rows cols;
  ginv_parent_dims : dims (gs_parent st) rows cols;
  ginv_nodup : NoDup (processed ++ gs_queue st);
  ginv_inside : ∀ c, c ∈ processed ++ gs_queue st → inside rows cols c;
  ginv_visited : ∀ c, inside rows cols c →
    at2 (gs_visited st) c.1 c.2 = Returns true
    ↔ c ∈ processed ++ gs_queue st;
  ginv_chain : ∀ i c, (processed ++ gs_queue st) !! i = Some c →
    match i with
    | 0 => c = start ∧
           at2 (gs_parent st) c.1 c.2 = Returns ((-1)%Z, (-1)%Z)
    | S _ => ∃ j p, j < i ∧ (processed ++ gs_queue st) !! j = Some p ∧
                    at2 (gs_parent st) c.1 c.2 = Returns p ∧
                    adjacent p c ∧ at2 grid c.1 c.2 = Returns 0%Z
    end
}.

(** Scenario A: the undirected square 1-2-3-4. *)
Definition scenarioA : Graph :=
  addEdge (addEdge (addEdge (addEdge (newGraph false) 1 2) 2 3) 1 4) 4 3.

(** Scenario B: a grid whose middle row is open only in column 2. *)
Definition scenarioB : list (list Z) :=
  [[0; 0; 0]; [1; 1; 0]; [0; 0; 0]]%Z.

(** A directed graph with the single edge 1 -> 2. *)
Definition one_arrow : Graph := addEdge (newGraph true) 1 2.

(** A directed graph on the vertices 1, 2, 3 with the edges 1 -> 2 and
    3 -> 2. *)
Definition two_arrows : Graph :=
  addVertex (addEdge (addEdge (newGraph true) 1 2) 3 2) 2.

(** An undirected path 1 - (-1) - 3 through the vertex with id [-1]. *)
Definition through_minus_one : Graph :=
  addEdge (addEdge (newGraph false) 1 (-1)) (-1) 3.

(** A one-row grid whose start cell holds a value other than 0 and 1. *)
Definition marked_start : list (list Z) := [[2; 0]]%Z.

(** A grid whose second row is shorter than its first. *)
Definition short_row : list (list Z) := [[0; 0]; [0]]%Z.

(** A directed graph on the vertices 1 and 2 with the single edge 2 -> 1;
    both endpoints are keys. *)
Definition back_arrow : Graph := addVertex (addEdge (newGraph true) 2 1) 1.

(** The components are pairwise disjoint and cover exactly [vertices]. *)
Definition partitions (components : list (list Z)) (vertices : list Z)
  : Prop :=
  (∀ i j ci cj v,
     i ≠ j → components !! i = Some ci → components !! j = Some cj →
     v ∈ ci → v ∉ cj) ∧
  (∀ v, v ∈ mjoin components ↔ v ∈ vertices).

(** [path_from nbrs s v l]: the list [l] starts at [s], ends at [v], and
    each entry is a stored neighbor of the one before it. *)
Inductive path_from (nbrs : Z → list Z) (s : Z) : Z → list Z → Prop :=
| path_from_start : path_from nbrs s s [s]
| path_from_step u v l :
    path_from nbrs s u l → v ∈ nbrs u → path_from nbrs s v (l ++ [v]).

(** Every discovered vertex below the start is a stored neighbor of its
    parent. *)
Definition parent_edges (nbrs : Z → list Z) (parent : gmap Z Z)
    (known : list (Z * nat)) : Prop :=
  ∀ v d, (v, S d) ∈ known → ∃ p, parent !! v = Some p ∧ v ∈ nbrs p.

(** [c] lists, without repetition and starting with a vertex [x] of the
    graph, exactly the vertices reachable from [x]. *)
Definition reach_class (g : Graph) (c : list Z) : Prop :=
  NoDup c ∧
  ∃ x, head c = Some x ∧ hasVertex g x = true ∧
       ∀ v, v ∈ c ↔ reachable (getNeighbors g) x v.

(** The first vertex of a component is in no earlier component. *)
Definition fresh_seeds (components : list (list Z)) : Prop :=
  ∀ i j ci cj x,
    i < j → components !! i = Some ci → components !! j = Some cj →
    head cj = Some x → x ∉ ci.

(** One move of the grid search: [b] is next to [a], inside the grid and
    has value [0]. *)
Definition gstep (grid : list (list Z)) (rows cols : nat) (a b : Cell)
  : Prop :=
  adjacent a b ∧ inside rows cols b ∧ at2 grid b.1 b.2 = Returns 0%Z.

(** [hops edge s v n]: [v] is reached from [s] by [n] moves of [edge]. *)
Inductive hops {V} (edge : V → V → Prop) (s : V) : V → nat → Prop :=
| hops_here : hops edge s s 0
| hops_edge u v n : hops edge s u n → edge u v → hops edge s v (S n).

(** The level structure of a first-in first-out search over any vertex
    type: every discovered vertex is annotated by its least number of
    moves, the annotations are sorted along the order of discovery, the
    queue spans at most two levels, and what a processed vertex leads to
    has been discovered. *)
Record level_inv {V} (edge : V → V → Prop) (s : V)
    (processed queue : list (V * nat)) : Prop := {
  lv_start : s ∈ (processed ++ queue).*1;
  lv_nodup : NoDup (processed ++ queue).*1;
  lv_dist : ∀ v d, (v, d) ∈ processed ++ queue →
    hops edge s v d ∧ ∀ m, hops edge s v m → d ≤ m;
  lv_sorted : StronglySorted le (processed ++ queue).*2;
  lv_window : ∀ u d q x, queue = (u, d) :: q → x ∈ q → x.2 ≤ S d;
  lv_closed : ∀ u d w,
    (u, d) ∈ processed → edge u w → w ∈ (processed ++ queue).*1
}.

(** In the parent matrix every discovered cell below the start points one
    level up, and the start points to the sentinel. *)
Definition grid_parent_levels (parent : list (list Cell))
    (known : list (Cell * nat)) : Prop :=
  ∀ c d, (c, d) ∈ known →
    match d with
    | 0 => at2 parent c.1 c.2 = Returns ((-1)%Z, (-1)%Z)
    | S d' => ∃ p, at2 parent c.1 c.2 = Returns p ∧ (p, d') ∈ known
    end.

(** A grid of two rows and three columns without obstacles. *)
Definition open_grid : list (list Z) := [[0; 0; 0]; [0; 0; 0]]%Z.

(** * Walks and distances *)

Section walks.
Context (nbrs : Z → list Z).

Lemma walk_zero u v : walk nbrs u v 0 → v = u.
Proof. by inversion 1. Qed.

Lemma walk_cons u w v n :
  w ∈ nbrs u → walk nbrs w v n → walk nbrs u v (S n).
Proof.
  intros Hw Hwalk. induction Hwalk as [|x y n _ IH Hy].
  - eapply walk_edge; [apply walk_here | done].
  - eapply walk_edge; [apply IH | done].
Qed.

Lemma walk_trans u v w n m :
  walk nbrs u v n → walk nbrs v w m → walk nbrs u w (n + m).
Proof.
  intros Huv Hvw. induction Hvw as [|x y k _ IH Hy].
  - by rewrite Nat.add_0_r.
  - rewrite Nat.add_succ_r. eapply walk_edge; [apply IH | done].
Qed.

Lemma walk_rev u v n :
  (∀ a b, b ∈ nbrs a → a ∈ nbrs b) →
  walk nbrs u v n → walk nbrs v u n.
Proof.
  intros Hsym Hwalk. induction Hwalk as [|x y n _ IH Hy].
  - apply walk_here.
  - eapply walk_cons; [by apply Hsym | done].
Qed.

Lemma dist_unique u v n m : dist nbrs u v n → dist nbrs u v m → n = m.
Proof.
  intros [Hn Hn'] [Hm Hm']. apply Hn' in Hm. apply Hm' in Hn. lia.
Qed.

Lemma dist_zero u v : dist nbrs u v 0 ↔ v = u.
Proof.
  split.
  - intros [H _]. by apply walk_zero.
  - intros ->. split; [apply walk_here | lia].
Qed.

Lemma dist_reachable u v n : dist nbrs u v n → reachable nbrs u v.
Proof. intros [H _]. by exists n. Qed.

Lemma dist_sym u v n :
  (∀ a b, b ∈ nbrs a → a ∈ nbrs b) →
  dist nbrs u v n → dist nbrs v u n.
Proof.
  intros Hsym [Hw Hmin]. split; [by apply walk_rev |].
  intros m Hm. apply Hmin. by apply walk_rev.
Qed.

Lemma reachable_sym u v :
  (∀ a b, b ∈ nbrs a → a ∈ nbrs b) →
  reachable nbrs u v → reachable nbrs v u.
Proof. intros Hsym [n Hn]. exists n. by apply walk_rev. Qed.

Lemma reachable_trans u v w :
  reachable nbrs u v → reachable nbrs v w → reachable nbrs u w.
Proof. intros [n Hn] [m Hm]. exists (n + m). by eapply walk_trans. Qed.

Lemma reachable_refl u : reachable nbrs u u.
Proof. exists 0. apply walk_here. Qed.
End walks.

(** * One expansion *)

Section fresh.
Implicit Types (seen : gset Z) (ns : list Z).

Lemma elem_of_fresh seen ns x : x ∈ fresh seen ns ↔ x ∈ ns ∧ x ∉ seen.
Proof.
  revert seen. induction ns as [|n ns IH]; intros seen; simpl.
  - set_solver.
  - case_decide.
    + rewrite IH. clear IH. set_solver.
    + rewrite elem_of_cons, IH. clear IH.
      destruct (decide (x = n)); set_solver.
Qed.

Lemma NoDup_fresh seen ns : NoDup (fresh seen ns).
Proof.
  revert seen. induction ns as [|n ns IH]; intros seen; simpl.
  - constructor.
  - case_decide; [apply IH |].
    constructor; [|apply IH]. rewrite elem_of_fresh. set_solver.
Qed.

Lemma foldl_visit seen (q : list Z) ns :
  foldl visit (seen, q) ns
  = (list_to_set (fresh seen ns) ∪ seen, q ++ fresh seen ns).
Proof.
  revert seen q. induction ns as [|n ns IH]; intros seen q; simpl.
  - f_equal; [set_solver | by rewrite app_nil_r].
  - case_decide; [apply IH |].
    rewrite IH, <-app_assoc. f_equal. set_solver.
Qed.

Lemma foldl_visit_level next seen (q : list (Z * Z)) ns :
  foldl (visit_level next) (seen, q) ns
  = (list_to_set (fresh seen ns) ∪ seen,
     q ++ labelled next (fresh seen ns)).
Proof.
  revert seen q. induction ns as [|n ns IH]; intros seen q; simpl.
  - f_equal; [set_solver | by rewrite app_nil_r].
  - case_decide; [apply IH |].
    rewrite IH, <-app_assoc. f_equal. set_solver.
Qed.

Lemma foldl_visit_global seen glob (q : list Z) ns :
  foldl visit_global (seen, glob, q) ns
  = (list_to_set (fresh seen ns) ∪ seen,
     list_to_set (fresh seen ns) ∪ glob, q ++ fresh seen ns).
Proof.
  revert seen glob q.
  induction ns as [|n ns IH]; intros seen glob q; simpl.
  - f_equal; [f_equal; set_solver | by rewrite app_nil_r].
  - case_decide; [apply IH |].
    rewrite IH, <-app_assoc. f_equal. f_equal; set_solver.
Qed.

Lemma scan_neighbors_miss target d seen q ns :
  target ∉ ns →
  scan_neighbors target d ns seen q
  = inr (list_to_set (fresh seen ns) ∪ seen,
         q ++ labelled (d + 1)%Z (fresh seen ns)).
Proof.
  revert seen q. induction ns as [|n ns IH]; intros seen q Hmiss; simpl.
  - do 2 f_equal; [set_solver | by rewrite app_nil_r].
  - apply not_elem_of_cons in Hmiss as [Hne Hmiss].
    case_decide; [done |].
    case_decide; [by apply IH |].
    rewrite IH, <-app_assoc by done. do 2 f_equal. set_solver.
Qed.

Lemma scan_neighbors_hit target d seen q ns :
  target ∈ ns → scan_neighbors target d ns seen q = inl (d + 1)%Z.
Proof.
  revert seen q. induction ns as [|n ns IH]; intros seen q Hhit; simpl.
  - by apply elem_of_nil in Hhit.
  - case_decide; [done |].
    apply elem_of_cons in Hhit as [->|Hhit]; [done |].
    case_decide; by apply IH.
Qed.
End fresh.

(** * The invariant of the annotated loop *)

Lemma labelled_fst {L} (d : L) vs : (labelled d vs).*1 = vs.
Proof.
  unfold labelled. rewrite <-list_fmap_compose. apply list_fmap_id.
Qed.

Lemma elem_of_labelled {L} (d : L) vs x :
  x ∈ labelled d vs ↔ x.2 = d ∧ x.1 ∈ vs.
Proof.
  unfold labelled. rewrite list_elem_of_fmap. split.
  - by intros (v & -> & Hv).
  - destruct x as [v d']. simpl. intros [-> Hv]. by exists v.
Qed.

Lemma length_labelled {L} (d : L) vs : length (labelled d vs) = length vs.
Proof. apply length_fmap. Qed.

Lemma zqueue_app q1 q2 : zqueue (q1 ++ q2) = zqueue q1 ++ zqueue q2.
Proof. apply fmap_app. Qed.

Lemma zqueue_labelled d vs :
  zqueue (labelled d vs) = labelled (Z.of_nat d) vs.
Proof. unfold zqueue, labelled. by rewrite <-list_fmap_compose. Qed.

Section invariant.
Context (nbrs : Z → list Z) (U : list Z) (s : Z).
Hypothesis U_closed : ∀ u w, w ∈ nbrs u → w ∈ U.

Local Abbreviation Inv := (bfs_inv nbrs U s).

Lemma inv_init : s ∈ U → Inv [] [(s, 0)] {[s]}.
Proof.
  intros HsU. split; simpl.
  - set_solver.
  - intros x. set_solver.
  - apply NoDup_singleton.
  - intros v d Hin. apply list_elem_of_singleton in Hin as [= -> ->].
    by apply dist_zero.
  - repeat constructor.
  - intros u d q x [= <- <- <-]. by intros ?%elem_of_nil.
  - intros u d w Hin. by apply elem_of_nil in Hin.
  - by intros x ->%elem_of_singleton.
Qed.

Lemma inv_label out q seen v :
  Inv out q seen → v ∈ seen → ∃ d, (v, d) ∈ out ++ q.
Proof.
  intros HI Hv. apply (inv_seen _ _ _ _ _ _ HI) in Hv.
  apply list_elem_of_fmap in Hv as [[v' d] [-> Hin]]. by exists d.
Qed.

Lemma inv_label_seen out q seen v d :
  Inv out q seen → (v, d) ∈ out ++ q → v ∈ seen.
Proof.
  intros HI Hv. apply (inv_seen _ _ _ _ _ _ HI).
  by apply (list_elem_of_fmap_2 fst) in Hv.
Qed.

Lemma inv_below out q seen v n :
  Inv out q seen → walk nbrs s v n → (∀ x, x ∈ q → n ≤ x.2) → v ∈ seen.
Proof.
  intros HI Hwalk. induction Hwalk as [|u v n Hwalk IH Hedge]; intros Hq.
  - apply HI.
  - assert (u ∈ seen) as Hu.
    { apply IH. intros x Hx. apply Hq in Hx. lia. }
    destruct (inv_label _ _ _ _ HI Hu) as [l Hl].
    assert (l ≤ n).
    { apply (inv_dist _ _ _ _ _ _ HI) in Hl as [_ Hmin]. by apply Hmin. }
    apply elem_of_app in Hl as [Hl|Hl].
    + eapply inv_closed; eauto.
    + apply Hq in Hl. simpl in Hl. lia.
Qed.

Lemma inv_out_le out u d q seen x :
  Inv out ((u, d) :: q) seen → x ∈ out → x.2 ≤ d.
Proof.
  intros HI Hx. pose proof (inv_sorted _ _ _ _ _ _ HI) as Hs.
  rewrite fmap_app in Hs. apply StronglySorted_app in Hs as (H & _ & _).
  apply H; [by apply list_elem_of_fmap_2 | left].
Qed.

Lemma inv_queue_ge out u d q seen x :
  Inv out ((u, d) :: q) seen → x ∈ (u, d) :: q → d ≤ x.2.
Proof.
  intros HI Hx. pose proof (inv_sorted _ _ _ _ _ _ HI) as Hs.
  rewrite fmap_app in Hs. apply StronglySorted_app_1_r in Hs.
  apply elem_of_cons in Hx as [->|Hx]; [done |].
  rewrite fmap_cons in Hs. apply StronglySorted_inv in Hs as [_ Hall].
  rewrite Forall_forall in Hall. apply Hall. by apply list_elem_of_fmap_2.
Qed.

Lemma inv_step out u d q seen :
  Inv out ((u, d) :: q) seen →
  Inv (out ++ [(u, d)]) (q ++ labelled (S d) (fresh seen (nbrs u)))
      (list_to_set (fresh seen (nbrs u)) ∪ seen).
Proof.
  intros HI. set (new := fresh seen (nbrs u)).
  assert (∀ x, x ∈ new ↔ x ∈ nbrs u ∧ x ∉ seen) as Hnew
    by (intros; apply elem_of_fresh).
  assert ((out ++ [(u, d)]) ++ q ++ labelled (S d) new
          = (out ++ (u, d) :: q) ++ labelled (S d) new) as E
    by (by rewrite <-!app_assoc).
  assert ((u, d) ∈ out ++ (u, d) :: q) as Hu
    by (apply elem_of_app; right; left).
  split.
  - apply elem_of_union_r, HI.
  - intros x. rewrite E, fmap_app, labelled_fst, elem_of_app,
      elem_of_union, elem_of_list_to_set.
    rewrite (inv_seen _ _ _ _ _ _ HI). tauto.
  - rewrite E, fmap_app, labelled_fst. apply NoDup_app.
    split_and!; [apply HI | | apply NoDup_fresh].
    intros x Hx%(inv_seen _ _ _ _ _ _ HI) Hx'%Hnew. tauto.
  - intros v d'. rewrite E, elem_of_app, elem_of_labelled. simpl.
    intros [Hold|[-> Hv%Hnew]]; [by apply HI |].
    destruct Hv as [Hedge Hunseen].
    destruct (inv_dist _ _ _ _ _ _ HI _ _ Hu) as [Hwalk _].
    split; [by eapply walk_edge |].
    intros m Hm. destruct (decide (S d ≤ m)) as [|Hlt]; [done |].
    exfalso. apply Hunseen. eapply inv_below; [done.. |].
    intros x Hx. eapply inv_queue_ge in Hx; [|done]. lia.
  - rewrite E, fmap_app. apply StronglySorted_app_2; [|apply HI|].
    + intros x1 x2 Hx1 Hx2.
      apply list_elem_of_fmap in Hx1 as (p1 & -> & Hp1).
      apply list_elem_of_fmap in Hx2 as (p2 & -> & Hp2).
      apply elem_of_labelled in Hp2 as [-> _].
      apply elem_of_app in Hp1 as [Hp1|Hp1].
      * eapply inv_out_le in Hp1; [|done]. lia.
      * apply elem_of_cons in Hp1 as [->|Hp1]; [simpl; lia |].
        eapply inv_window; [done.. |]. done.
    + clear. induction new as [|x new IH]; [constructor |].
      constructor; [done |]. apply Forall_forall.
      intros y Hy. apply list_elem_of_fmap in Hy as (p & -> & Hp).
      apply (elem_of_labelled (S d) new p) in Hp as [-> _]. done.
  - intros u' d' q' x Hq' Hx. destruct q as [|[u1 d1] q1]; simpl in Hq'.
    + destruct new as [|y new']; [done |]. simplify_eq/=.
      apply (elem_of_labelled (S d) new' x) in Hx as [-> _]. lia.
    + injection Hq' as -> -> <-.
      assert (d ≤ d').
      { eapply (inv_queue_ge _ _ _ _ _ (u', d')) in HI; [done |].
        right; left. }
      apply elem_of_app in Hx as [Hx|Hx].
      * enough (x.2 ≤ S d) by lia.
        eapply (inv_window _ _ _ _ _ _ HI); [done |]. by right.
      * apply elem_of_labelled in Hx as [-> _]. lia.
  - intros u' d' w Hin Hw. apply elem_of_union.
    rewrite elem_of_list_to_set, Hnew.
    apply elem_of_app in Hin as [Hin|Hin%list_elem_of_singleton].
    + right. eapply inv_closed; eauto.
    + simplify_eq. destruct (decide (w ∈ seen)); tauto.
  - intros x. rewrite elem_of_union, elem_of_list_to_set, Hnew.
    intros [[Hx _]|Hx]; [by eapply U_closed | by eapply inv_univ].
Qed.

Lemma inv_length out q seen :
  Inv out q seen → length out + length q ≤ length U.
Proof.
  intros HI. rewrite <-length_app, <-(length_fmap fst).
  apply submseteq_length, NoDup_submseteq; [apply HI |].
  intros x Hx. eapply inv_univ; [done |]. by apply HI.
Qed.

(** What the invariant says once the queue is empty. *)

Lemma inv_final_dist out seen v d :
  Inv out [] seen → (v, d) ∈ out ↔ dist nbrs s v d.
Proof.
  intros HI. split.
  - intros Hin. apply (inv_dist _ _ _ _ _ _ HI). by rewrite app_nil_r.
  - intros Hd. destruct Hd as [Hwalk Hmin].
    assert (v ∈ seen) as Hv.
    { eapply inv_below; [done.. |]. by intros x ?%elem_of_nil. }
    destruct (inv_label _ _ _ _ HI Hv) as [l Hl].
    rewrite app_nil_r in Hl.
    enough (l = d) by by subst.
    eapply dist_unique; [|by split].
    apply (inv_dist _ _ _ _ _ _ HI). by rewrite app_nil_r.
Qed.

Lemma inv_final_reachable out seen v :
  Inv out [] seen → v ∈ out.*1 ↔ reachable nbrs s v.
Proof.
  intros HI. split.
  - intros ([v' d] & -> & Hin)%list_elem_of_fmap.
    eapply dist_reachable, inv_final_dist; done.
  - intros [n Hwalk].
    assert (v ∈ seen) as Hv.
    { eapply inv_below; [done.. |]. by intros x ?%elem_of_nil. }
    apply (inv_seen _ _ _ _ _ _ HI) in Hv. by rewrite app_nil_r in Hv.
Qed.

Lemma inv_final_seen out seen v :
  Inv out [] seen → v ∈ seen ↔ v ∈ out.*1.
Proof. intros HI. rewrite (inv_seen _ _ _ _ _ _ HI). by rewrite app_nil_r. Qed.

Lemma bfs_run_total fuel out q seen :
  Inv out q seen → length U < fuel + length out →
  ∃ out' seen',
    bfs_run fuel nbrs out q seen = Returns (out', seen') ∧
    Inv out' [] seen' ∧ seen ⊆ seen'.
Proof.
  revert out q seen. induction fuel as [|fuel IH]; intros out q seen HI Hfuel.
  - apply inv_length in HI. lia.
  - destruct q as [|[u d] q]; simpl.
    + by exists out, seen.
    + destruct (IH _ _ _ (inv_step _ _ _ _ _ HI)) as (out' & seen' & ? & ? & ?).
      { rewrite length_app. simpl. lia. }
      exists out', seen'. split_and!; [done.. |]. set_solver.
Qed.
End invariant.

(** * The graph container *)

Section graph.
Implicit Types (g : Graph) (u v w : Z).

Lemma hasVertex_true g v : hasVertex g v = true ↔ is_Some (adjList g !! v).
Proof. unfold hasVertex. apply bool_decide_eq_true. Qed.

Lemma hasVertex_false g v : hasVertex g v = false ↔ adjList g !! v = None.
Proof.
  unfold hasVertex. rewrite bool_decide_eq_false. symmetry.
  apply eq_None_not_Some.
Qed.

Lemma elem_of_getAllVertices g v :
  v ∈ getAllVertices g ↔ hasVertex g v = true.
Proof.
  rewrite hasVertex_true. unfold getAllVertices.
  rewrite list_elem_of_fmap. split.
  - intros ([k l] & -> & Hin). apply elem_of_map_to_list in Hin. by exists l.
  - intros [l Hl]. exists (v, l). by rewrite elem_of_map_to_list.
Qed.

Lemma NoDup_getAllVertices g : NoDup (getAllVertices g).
Proof. apply NoDup_fst_map_to_list. Qed.

Lemma length_getAllVertices g : length (getAllVertices g) = getVertexCount g.
Proof.
  unfold getAllVertices, getVertexCount.
  by rewrite length_fmap, length_map_to_list.
Qed.

Lemma universe_start g v : hasVertex g v = true → v ∈ universe g.
Proof.
  intros Hv. apply elem_of_app. left. by apply elem_of_getAllVertices.
Qed.

Lemma universe_closed g u w : w ∈ getNeighbors g u → w ∈ universe g.
Proof.
  unfold getNeighbors. intros Hw.
  destruct (adjList g !! u) as [l|] eqn:Hl; [|by apply elem_of_nil in Hw].
  apply elem_of_app. right. apply list_elem_of_join. exists l.
  split; [done |]. apply list_elem_of_fmap. exists (u, l).
  by rewrite elem_of_map_to_list.
Qed.

Lemma getNeighbors_absent g v : hasVertex g v = false → getNeighbors g v = [].
Proof. intros H%hasVertex_false. unfold getNeighbors. by rewrite H. Qed.

Lemma push_back_at_lookup adj key value k :
  default [] (push_back_at adj key value !! k)
  = default [] (adj !! k) ++ (if decide (k = key) then [value] else []).
Proof.
  unfold push_back_at. case_decide as Hk.
  - subst. by rewrite lookup_insert_eq.
  - rewrite lookup_insert_ne by done. by rewrite app_nil_r.
Qed.

Lemma push_back_at_is_Some adj key value k :
  is_Some (push_back_at adj key value !! k) ↔ k = key ∨ is_Some (adj !! k).
Proof.
  unfold push_back_at. rewrite lookup_insert_is_Some.
  destruct (decide (key = k)); naive_solver.
Qed.

Lemma isDirected_addEdge g u v : isDirected (addEdge g u v) = isDirected g.
Proof. done. Qed.

Lemma isDirected_addVertex g v : isDirected (addVertex g v) = isDirected g.
Proof. unfold addVertex. by destruct (adjList g !! v). Qed.

Lemma built_isDirected directed g : built directed g → isDirected g = directed.
Proof.
  induction 1; [done | by rewrite isDirected_addVertex
                | by rewrite isDirected_addEdge].
Qed.

Lemma getNeighbors_addVertex g v k :
  getNeighbors (addVertex g v) k = getNeighbors g k.
Proof.
  unfold addVertex, getNeighbors.
  destruct (adjList g !! v) eqn:Hv; [done |]. simpl.
  destruct (decide (v = k)) as [->|].
  - by rewrite lookup_insert_eq, Hv.
  - by rewrite lookup_insert_ne.
Qed.

Lemma getNeighbors_addEdge_undirected g u v k :
  isDirected g = false →
  getNeighbors (addEdge g u v) k
  = getNeighbors g k ++ (if decide (k = u) then [v] else [])
      ++ (if decide (k = v) then [u] else []).
Proof.
  intros Hd. unfold addEdge, getNeighbors. rewrite Hd. simpl.
  by rewrite !push_back_at_lookup, <-app_assoc.
Qed.

Lemma getNeighbors_addEdge_directed g u v k :
  isDirected g = true →
  getNeighbors (addEdge g u v) k
  = getNeighbors g k ++ (if decide (k = u) then [v] else []).
Proof.
  intros Hd. unfold addEdge, getNeighbors. rewrite Hd. simpl.
  by rewrite push_back_at_lookup.
Qed.

Lemma hasVertex_addEdge_from g u v : hasVertex (addEdge g u v) u = true.
Proof.
  apply hasVertex_true. unfold addEdge. simpl.
  destruct (isDirected g); rewrite ?push_back_at_is_Some; auto.
Qed.

Lemma hasVertex_addEdge_undirected g u v :
  isDirected g = false → hasVertex (addEdge g u v) v = true.
Proof.
  intros Hd. apply hasVertex_true. unfold addEdge. rewrite Hd. simpl.
  rewrite push_back_at_is_Some. auto.
Qed.

(** In a graph built undirected every stored entry has its mirror. *)
Lemma built_undirected_symmetric g u v :
  built false g → v ∈ getNeighbors g u → u ∈ getNeighbors g v.
Proof.
  intros Hb. revert u v. induction Hb as [|g x Hb IH|g a b Hb IH]; intros u v.
  - unfold getNeighbors, newGraph. simpl. rewrite lookup_empty.
    by intros ?%elem_of_nil.
  - rewrite !getNeighbors_addVertex. apply IH.
  - rewrite !getNeighbors_addEdge_undirected
      by by apply built_isDirected.
    rewrite !elem_of_app. intros [H|[H|H]].
    + left. by apply IH.
    + case_decide; [|by apply elem_of_nil in H].
      apply list_elem_of_singleton in H. subst.
      right; right. rewrite decide_True by done. by left.
    + case_decide; [|by apply elem_of_nil in H].
      apply list_elem_of_singleton in H. subst.
      right; left. rewrite decide_True by done. by left.
Qed.

Lemma getNeighbors_hasVertex g u v :
  v ∈ getNeighbors g u → hasVertex g u = true.
Proof.
  intros Hv. destruct (hasVertex g u) eqn:Hu; [done |].
  rewrite getNeighbors_absent in Hv by done. by apply elem_of_nil in Hv.
Qed.

(** ... and every stored entry is itself a vertex. *)
Lemma built_undirected_closed g u v :
  built false g → v ∈ getNeighbors g u → hasVertex g v = true.
Proof.
  intros Hb Hv. eapply getNeighbors_hasVertex.
  by apply built_undirected_symmetric.
Qed.
End graph.

(** * traverse *)

Section traverse.
Context (g : Graph).

Local Abbreviation nbrs := (getNeighbors g).

Lemma traverse_loop_run fuel out q seen :
  traverse_loop fuel g q.*1 seen out.*1
  = r ← bfs_run fuel nbrs out q seen; Returns r.1.*1.
Proof.
  revert out q seen. induction fuel as [|fuel IH]; intros out q seen; [done |].
  destruct q as [|[u d] q]; [done |]. simpl.
  rewrite foldl_visit, <-IH.
  by rewrite !fmap_app, labelled_fst.
Qed.

Lemma component_loop_run fuel out q seen glob :
  component_loop fuel g q.*1 seen (glob ∪ seen) out.*1
  = r ← bfs_run fuel nbrs out q seen; Returns (r.1.*1, glob ∪ r.2).
Proof.
  revert out q seen. induction fuel as [|fuel IH]; intros out q seen; [done |].
  destruct q as [|[u d] q]; [done |]. simpl.
  rewrite foldl_visit_global, <-IH.
  rewrite !fmap_app, labelled_fst. simpl. f_equal. set_solver.
Qed.

Lemma bfs_run_start s :
  hasVertex g s = true →
  ∃ out seen,
    bfs_run (loop_bound g) nbrs [] [(s, 0)] {[s]} = Returns (out, seen) ∧
    bfs_inv nbrs (universe g) s out [] seen.
Proof.
  intros Hs.
  destruct (bfs_run_total nbrs (universe g) s (universe_closed g)
              (loop_bound g) [] [(s, 0)] {[s]})
    as (out & seen & Hrun & HI & _).
  - apply inv_init; [apply universe_closed | by apply universe_start].
  - unfold loop_bound. simpl. lia.
  - by exists out, seen.
Qed.

(** [traverse] from a vertex of the graph: it returns, and its result is
    the list of reachable vertices, each once, by non-decreasing distance. *)
Lemma traverse_levels s :
  hasVertex g s = true →
  ∃ out,
    traverse g s = Returns out.*1 ∧
    NoDup out.*1 ∧
    StronglySorted le out.*2 ∧
    (∀ v d, (v, d) ∈ out ↔ dist nbrs s v d) ∧
    (∀ v, v ∈ out.*1 ↔ reachable nbrs s v).
Proof.
  intros Hs. destruct (bfs_run_start s Hs) as (out & seen & Hrun & HI).
  exists out. split_and!.
  - unfold traverse. rewrite Hs. simpl.
    etrans; [exact (traverse_loop_run (loop_bound g) [] [(s, 0)] {[s]}) |].
    by rewrite Hrun.
  - pose proof (inv_nodup _ _ _ _ _ _ HI) as H. by rewrite app_nil_r in H.
  - pose proof (inv_sorted _ _ _ _ _ _ HI) as H. by rewrite app_nil_r in H.
  - intros v d. by eapply inv_final_dist.
  - intros v. by eapply inv_final_reachable.
Qed.

Lemma traverse_absent s : hasVertex g s = false → traverse g s = Returns [].
Proof. intros Hs. unfold traverse. by rewrite Hs. Qed.
End traverse.

(** * shortestDistance *)

Lemma zqueue_cons u d q : zqueue ((u, d) :: q) = (u, Z.of_nat d) :: zqueue q.
Proof. done. Qed.

Section shortestDistance.
Context (g : Graph) (s t : Z).

Local Abbreviation nbrs := (getNeighbors g).
Local Abbreviation Inv := (bfs_inv (getNeighbors g) (universe g) s).

Lemma shortestDistance_loop_spec fuel out q seen :
  Inv out q seen → t ∉ seen →
  length (universe g) < fuel + length out →
  ∃ r, shortestDistance_loop fuel g t (zqueue q) seen = Returns r ∧
       ((∃ n, dist nbrs s t n ∧ r = Z.of_nat n) ∨
        (¬ reachable nbrs s t ∧ r = (-1)%Z)).
Proof.
  revert out q seen.
  induction fuel as [|fuel IH]; intros out q seen HI Ht Hfuel.
  - apply inv_length in HI. lia.
  - destruct q as [|[u d] q].
    + exists (-1)%Z. split; [done |]. right. split; [|done].
      intros [n Hn]. apply Ht. eapply inv_below; [done.. |].
      by intros x ?%elem_of_nil.
    + rewrite zqueue_cons. cbn [shortestDistance_loop].
      assert ((u, d) ∈ out ++ (u, d) :: q) as Hu
        by (apply elem_of_app; right; left).
      destruct (decide (t ∈ nbrs u)) as [Hhit|Hmiss].
      * rewrite scan_neighbors_hit by done.
        exists (Z.of_nat d + 1)%Z. split; [done |]. left.
        exists (S d). split; [|lia].
        destruct (inv_dist _ _ _ _ _ _ HI _ _ Hu) as [Hwalk _].
        split; [by eapply walk_edge |].
        intros m Hm. destruct (decide (S d ≤ m)) as [|Hlt]; [done |].
        exfalso. apply Ht. eapply inv_below; [done.. |].
        intros x Hx. eapply inv_queue_ge in Hx; [|done]. lia.
      * rewrite scan_neighbors_miss by done.
        replace (Z.of_nat d + 1)%Z with (Z.of_nat (S d)) by lia.
        rewrite <-zqueue_labelled, <-zqueue_app.
        apply (IH (out ++ [(u, d)])).
        -- apply inv_step; [apply universe_closed | done].
        -- rewrite elem_of_union, elem_of_list_to_set, elem_of_fresh. tauto.
        -- rewrite length_app. simpl. lia.
Qed.

(** [shortestDistance] between two vertices of the graph returns the graph
    distance, or [-1] when there is no walk. *)
Lemma shortestDistance_spec :
  hasVertex g s = true → hasVertex g t = true →
  ∃ r, shortestDistance g s t = Returns r ∧
       ((∃ n, dist nbrs s t n ∧ r = Z.of_nat n) ∨
        (¬ reachable nbrs s t ∧ r = (-1)%Z)).
Proof.
  intros Hs Ht. unfold shortestDistance. rewrite Hs, Ht. cbn [negb orb].
  case_decide as Hst.
  - exists 0%Z. split; [done |]. left. exists 0. split; [|done].
    by apply dist_zero.
  - apply (shortestDistance_loop_spec (loop_bound g) [] [(s, 0)] {[s]}).
    + apply inv_init; [apply universe_closed | by apply universe_start].
    + set_solver.
    + unfold loop_bound. simpl. lia.
Qed.

Lemma shortestDistance_absent :
  hasVertex g s = false ∨ hasVertex g t = false →
  shortestDistance g s t = Returns (-1)%Z.
Proof.
  unfold shortestDistance. intros [-> | ->]; [done |].
  by rewrite orb_true_r.
Qed.
End shortestDistance.

(** * verticesAtDistance *)

Section verticesAtDistance.
Context (g : Graph) (s : Z).

Local Abbreviation nbrs := (getNeighbors g).
Local Abbreviation Inv := (bfs_inv (getNeighbors g) (universe g) s).

(** Once the head of the queue is at the wanted level, the rest of the
    queue is this level and the loop copies it to the result. *)
Lemma verticesAtDistance_loop_drain D fuel q seen result :
  (∀ x, x ∈ q → x.2 = D) → length q < fuel →
  verticesAtDistance_loop fuel g (Z.of_nat D) (zqueue q) seen result
  = Returns (result ++ q.*1).
Proof.
  revert q result. induction fuel as [|fuel IH]; intros q result Hq Hfuel.
  - lia.
  - destruct q as [|[u d] q].
    + simpl. by rewrite app_nil_r.
    + rewrite zqueue_cons. cbn [verticesAtDistance_loop].
      assert (d = D) as -> by (apply (Hq (u, d)); left).
      rewrite decide_True by done. rewrite IH.
      * by rewrite <-app_assoc.
      * intros x Hx. apply Hq. by right.
      * simpl in Hfuel. lia.
Qed.

Lemma verticesAtDistance_loop_spec D fuel out q seen :
  Inv out q seen →
  (∀ x, x ∈ out → x.2 < D) → (∀ x, x ∈ q → x.2 ≤ D) →
  length (universe g) < fuel + length out →
  ∃ r, verticesAtDistance_loop fuel g (Z.of_nat D) (zqueue q) seen []
       = Returns r ∧
       NoDup r ∧ ∀ v, v ∈ r ↔ dist nbrs s v D.
Proof.
  revert out q seen.
  induction fuel as [|fuel IH]; intros out q seen HI Hout Hq Hfuel.
  - apply inv_length in HI. lia.
  - destruct q as [|[u d] q].
    + exists []. split_and!; [done | constructor |].
      intros v. split; [by intros ?%elem_of_nil |]. intros Hv.
      apply (inv_final_dist _ _ _ _ _ _ _ HI) in Hv.
      apply Hout in Hv. simpl in Hv. lia.
    + destruct (decide (d = D)) as [->|Hd].
      * exists ((u, D) :: q).*1.
        assert (∀ x, x ∈ (u, D) :: q → x.2 = D) as Hlevel.
        { intros x Hx. pose proof (Hq _ Hx).
          eapply inv_queue_ge in Hx; [|done]. lia. }
        split_and!.
        -- rewrite verticesAtDistance_loop_drain; [done.. |].
           apply inv_length in HI. simpl in *. lia.
        -- pose proof (inv_nodup _ _ _ _ _ _ HI) as Hnd.
           rewrite fmap_app in Hnd. by apply NoDup_app in Hnd as (_ & _ & ?).
        -- intros v. split.
           ++ intros ([v' d] & -> & Hin)%list_elem_of_fmap.
              rewrite <-(Hlevel _ Hin). apply (inv_dist _ _ _ _ _ _ HI).
              apply elem_of_app. by right.
           ++ intros Hv.
              assert (v ∈ seen) as Hseen.
              { destruct Hv as [Hwalk _]. eapply inv_below; [done.. |].
                intros x Hx. by rewrite (Hlevel _ Hx). }
              destruct (inv_label _ _ _ _ _ _ _ HI Hseen) as [l Hl].
              assert (l = D) as ->.
              { eapply dist_unique; [|done]. by apply HI. }
              apply elem_of_app in Hl as [Hl|Hl].
              ** apply Hout in Hl. simpl in Hl. lia.
              ** by apply (list_elem_of_fmap_2 fst) in Hl.
      * assert (d ≤ D) by (apply (Hq (u, d)); left).
        rewrite zqueue_cons. cbn [verticesAtDistance_loop].
        rewrite decide_False by lia. rewrite decide_True by lia.
        rewrite foldl_visit_level.
        replace (Z.of_nat d + 1)%Z with (Z.of_nat (S d)) by lia.
        rewrite <-zqueue_labelled, <-zqueue_app.
        apply (IH (out ++ [(u, d)])).
        -- apply inv_step; [apply universe_closed | done].
        -- intros x [Hx|Hx%list_elem_of_singleton]%elem_of_app; [auto |].
           subst. simpl. lia.
        -- intros x [Hx|Hx%elem_of_labelled]%elem_of_app.
           ++ apply Hq. by right.
           ++ destruct Hx as [-> _]. lia.
        -- rewrite length_app. simpl. lia.
Qed.

(** [verticesAtDistance] from a vertex of the graph returns the level set
    of the given distance, each vertex once. *)
Lemma verticesAtDistance_spec (d : Z) :
  hasVertex g s = true → (0 ≤ d)%Z →
  ∃ r, verticesAtDistance g s d = Returns r ∧
       NoDup r ∧ ∀ v, v ∈ r ↔ dist nbrs s v (Z.to_nat d).
Proof.
  intros Hs Hd. unfold verticesAtDistance. rewrite Hs. simpl.
  rewrite bool_decide_eq_false_2 by lia. case_decide as Hd0.
  - subst. exists [s]. split_and!; [done | apply NoDup_singleton |].
    intros v. by rewrite list_elem_of_singleton, dist_zero.
  - destruct (verticesAtDistance_loop_spec (Z.to_nat d) (loop_bound g)
                [] [(s, 0)] {[s]}) as (r & Hr & Hnd & Hset).
    + apply inv_init; [apply universe_closed | by apply universe_start].
    + by intros x ?%elem_of_nil.
    + intros x ->%list_elem_of_singleton. simpl. lia.
    + unfold loop_bound. simpl. lia.
    + rewrite Z2Nat.id in Hr by done. by exists r.
Qed.

Lemma verticesAtDistance_sentinel (d : Z) :
  hasVertex g s = false ∨ (d < 0)%Z →
  verticesAtDistance g s d = Returns [].
Proof.
  unfold verticesAtDistance. intros [-> | Hd]; [done |].
  by rewrite bool_decide_eq_true_2, orb_true_r.
Qed.
End verticesAtDistance.

(** * shortestPath *)

Lemma lookup_set_parents current parent new v :
  set_parents current parent new !! v
  = if decide (v ∈ new) then Some current else parent !! v.
Proof.
  unfold set_parents. revert parent.
  induction new as [|w new IH]; intros parent; cbn [foldl].
  - rewrite decide_False; [done | by intros ?%elem_of_nil].
  - rewrite IH. destruct (decide (v ∈ new)) as [Hin|Hout].
    + rewrite decide_True; [done | by right].
    + destruct (decide (v = w)) as [->|Hne].
      * rewrite lookup_insert_eq. rewrite decide_True; [done | by left].
      * rewrite lookup_insert_ne by done.
        rewrite decide_False; [done |]. rewrite elem_of_cons. tauto.
Qed.

Lemma foldl_visit_parent current seen (q : list Z) parent ns :
  foldl (visit_parent current) (seen, q, parent) ns
  = (list_to_set (fresh seen ns) ∪ seen, q ++ fresh seen ns,
     set_parents current parent (fresh seen ns)).
Proof.
  revert seen q parent.
  induction ns as [|n ns IH]; intros seen q parent; simpl.
  - f_equal. f_equal; [set_solver | by rewrite app_nil_r].
  - case_decide; [apply IH |].
    rewrite IH, <-app_assoc. f_equal. f_equal. set_solver.
Qed.

Lemma mentions_universe g v : mentions g v ↔ v ∈ universe g.
Proof.
  split.
  - intros [Hv|[u Hu]]; [by apply universe_start | by eapply universe_closed].
  - unfold universe, mentions. rewrite elem_of_app, list_elem_of_join.
    intros [Hv|(l & Hv & Hl)]; [left; by apply elem_of_getAllVertices |].
    right. apply list_elem_of_fmap in Hl as ([u l'] & -> & Hin).
    apply elem_of_map_to_list in Hin. exists u. unfold getNeighbors.
    by rewrite Hin.
Qed.

Section shortestPath.
Context (g : Graph) (s t : Z).

Local Abbreviation nbrs := (getNeighbors g).
Local Abbreviation Inv := (bfs_inv (getNeighbors g) (universe g) s).

Lemma parent_inv_init : parent_inv {[s := (-1)%Z]} [(s, 0)].
Proof.
  intros v d ?%list_elem_of_singleton. simplify_eq.
  apply lookup_singleton_eq.
Qed.

Lemma parent_inv_step out u d q seen parent :
  Inv out ((u, d) :: q) seen →
  parent_inv parent (out ++ (u, d) :: q) →
  parent_inv (set_parents u parent (fresh seen (nbrs u)))
    ((out ++ [(u, d)]) ++ q ++ labelled (S d) (fresh seen (nbrs u))).
Proof.
  intros HI HP v l Hin.
  replace ((out ++ [(u, d)]) ++ q ++ labelled (S d) (fresh seen (nbrs u)))
    with ((out ++ (u, d) :: q) ++ labelled (S d) (fresh seen (nbrs u)))
    in * by (by rewrite <-!app_assoc).
  rewrite lookup_set_parents.
  apply elem_of_app in Hin as [Hold|Hnew].
  - rewrite decide_False.
    + specialize (HP _ _ Hold). destruct l as [|l]; [done |].
      destruct HP as (p & ? & ?). exists p. split; [done |].
      apply elem_of_app. by left.
    + rewrite elem_of_fresh. intros [_ Hns]. apply Hns.
      by eapply inv_label_seen.
  - apply elem_of_labelled in Hnew. destruct Hnew as [Hl Hv].
    simpl in *. subst l.
    rewrite decide_True by done. exists u. split; [done |].
    apply elem_of_app. left. apply elem_of_app. right. left.
Qed.

(** A vertex at level [d] heads a chain of [d + 1] distinct discovered
    vertices, so levels stay below the number of ids. *)
Lemma level_chain out q seen parent v d :
  Inv out q seen → parent_inv parent (out ++ q) → (v, d) ∈ out ++ q →
  ∃ l : list Z,
    length l = S d ∧ NoDup l ∧
    ∀ x, x ∈ l → ∃ d', d' ≤ d ∧ (x, d') ∈ out ++ q.
Proof.
  intros HI HP. revert v. induction d as [|d IH]; intros v Hv.
  - exists [v]. split_and!; [done | apply NoDup_singleton |].
    intros x ->%list_elem_of_singleton. by exists 0.
  - destruct (HP _ _ Hv) as (p & _ & Hp).
    destruct (IH _ Hp) as (l & Hlen & Hnd & Hl).
    exists (v :: l). split_and!.
    + simpl. by rewrite Hlen.
    + constructor; [|done]. intros (d' & Hd' & Hin)%Hl.
      apply (inv_dist _ _ _ _ _ _ HI) in Hin, Hv.
      pose proof (dist_unique _ _ _ _ _ Hin Hv). lia.
    + intros x [->|Hx]%elem_of_cons; [by exists (S d) |].
      destruct (Hl _ Hx) as (d' & ? & ?). exists d'. split; [lia | done].
Qed.

Lemma level_bound out q seen parent v d :
  Inv out q seen → parent_inv parent (out ++ q) → (v, d) ∈ out ++ q →
  d < length (universe g).
Proof.
  intros HI HP Hv.
  destruct (level_chain _ _ _ _ _ _ HI HP Hv) as (l & Hlen & Hnd & Hl).
  enough (length l ≤ length (universe g)) by lia.
  apply submseteq_length, NoDup_submseteq; [done |].
  intros x (d' & _ & Hx)%Hl. eapply inv_univ; [done |].
  by eapply inv_label_seen.
Qed.

(** Walking the parent links from a vertex at level [d] returns; when
    [-1] is not a vertex id, the path has [d + 1] more vertices. *)
Lemma reconstruct_spec out q seen parent d v path fuel :
  Inv out q seen → parent_inv parent (out ++ q) → (v, d) ∈ out ++ q →
  S d < fuel →
  ∃ r, reconstruct fuel parent v path = Returns r ∧
       (¬ mentions g (-1)%Z → length r = length path + S d).
Proof.
  intros HI HP. revert v path fuel.
  induction d as [|d IH]; intros v path fuel Hv Hfuel.
  - destruct fuel as [|[|fuel]]; [lia.. |].
    cbn [reconstruct]. rewrite (HP _ _ Hv). simpl.
    case_decide as Hv1.
    + eexists. split; [done |]. intros []. apply mentions_universe.
      eapply inv_univ; [done |]. subst. by eapply inv_label_seen.
    + eexists. split; [done |]. intros _.
      rewrite length_reverse, length_app. simpl. lia.
  - destruct fuel as [|fuel]; [lia |]. cbn [reconstruct].
    case_decide as Hv1.
    + eexists. split; [done |]. intros []. apply mentions_universe.
      eapply inv_univ; [done |]. subst. by eapply inv_label_seen.
    + destruct (HP _ _ Hv) as (p & -> & Hp). simpl.
      destruct (IH p (path ++ [v]) fuel Hp) as (r & -> & Hr); [lia |].
      exists r. split; [done |]. intros Hno. rewrite Hr by done.
      rewrite length_app. simpl. lia.
Qed.

Lemma shortestPath_loop_spec fuel out q seen parent :
  Inv out q seen → parent_inv parent (out ++ q) → t ∉ out.*1 →
  length (universe g) < fuel + length out →
  ∃ r, shortestPath_loop fuel g t q.*1 seen parent = Returns r ∧
       ((∃ n, dist nbrs s t n ∧
              (¬ mentions g (-1)%Z → length r = S n)) ∨
        (¬ reachable nbrs s t ∧ r = [])).
Proof.
  revert out q seen parent.
  induction fuel as [|fuel IH]; intros out q seen parent HI HP Ht Hfuel.
  - apply inv_length in HI. lia.
  - destruct q as [|[u d] q].
    + exists []. split; [done |]. right. split; [|done].
      intros Hr. apply Ht. by eapply inv_final_reachable.
    + rewrite fmap_cons. cbn [shortestPath_loop fst].
      assert ((u, d) ∈ out ++ (u, d) :: q) as Hu
        by (apply elem_of_app; right; left).
      case_decide as Hut.
      * subst u.
        destruct (reconstruct_spec _ _ _ _ _ _ [] (loop_bound g) HI HP Hu)
          as (r & Hr & Hlen).
        { unfold loop_bound.
          pose proof (level_bound _ _ _ _ _ _ HI HP Hu). lia. }
        exists r. split; [done |]. left. exists d.
        split; [by apply HI | done].
      * rewrite foldl_visit_parent.
        replace (q.*1 ++ fresh seen (nbrs u))
          with ((q ++ labelled (S d) (fresh seen (nbrs u))).*1)
          by (by rewrite fmap_app, labelled_fst).
        apply (IH (out ++ [(u, d)])).
        -- apply inv_step; [apply universe_closed | done].
        -- by apply parent_inv_step.
        -- rewrite fmap_app, elem_of_app.
           intros [?|Hin%list_elem_of_singleton]; [done |].
           simpl in Hin. congruence.
        -- rewrite length_app. simpl. lia.
Qed.

(** [shortestPath] between two vertices of the graph returns; the result
    is empty when there is no walk and, when [-1] is not a vertex id,
    has one vertex more than the graph distance otherwise. *)
Lemma shortestPath_spec :
  hasVertex g s = true → hasVertex g t = true →
  ∃ r, shortestPath g s t = Returns r ∧
       ((∃ n, dist nbrs s t n ∧
              (¬ mentions g (-1)%Z → length r = S n)) ∨
        (¬ reachable nbrs s t ∧ r = [])).
Proof.
  intros Hs Ht. unfold shortestPath. rewrite Hs, Ht. cbn [negb orb].
  case_decide as Hst.
  - exists [s]. split; [done |]. left. exists 0. split; [|done].
    by apply dist_zero.
  - apply (shortestPath_loop_spec (loop_bound g) [] [(s, 0)]).
    + apply inv_init; [apply universe_closed | by apply universe_start].
    + apply parent_inv_init.
    + by intros ?%elem_of_nil.
    + unfold loop_bound. simpl. lia.
Qed.

Lemma shortestPath_absent :
  hasVertex g s = false ∨ hasVertex g t = false →
  shortestPath g s t = Returns [].
Proof.
  unfold shortestPath. intros [-> | ->]; [done |].
  by rewrite orb_true_r.
Qed.
End shortestPath.

(** * findConnectedComponents *)

Lemma NoDup_join_disjoint {A} (ls : list (list A)) i j li lj x :
  NoDup (mjoin ls) → i ≠ j → ls !! i = Some li → ls !! j = Some lj →
  x ∈ li → x ∉ lj.
Proof.
  assert (∀ (ls : list (list A)) i j li lj x,
            NoDup (mjoin ls) → i < j → ls !! i = Some li → ls !! j = Some lj →
            x ∈ li → x ∈ lj → False) as Hlt.
  { clear. induction ls as [|l ls IH]; intros i j li lj x Hnd Hij Hi Hj Hxi Hxj.
    - done.
    - simpl in Hnd. apply NoDup_app in Hnd as (_ & Hdisj & Hnd).
      destruct j as [|j]; [lia |]. destruct i as [|i]; simpl in *.
      + simplify_eq. apply (Hdisj x); [done |].
        apply list_elem_of_join. exists lj. split; [done |].
        by eapply list_elem_of_lookup_2.
      + eapply (IH i j); eauto with lia. }
  intros Hnd Hij Hi Hj Hxi Hxj.
  destruct (decide (i < j)); [by eapply (Hlt ls i j) |].
  eapply (Hlt ls j i); eauto with lia.
Qed.

Section components.
Context (g : Graph).

Local Abbreviation nbrs := (getNeighbors g).

Lemma reachable_hasVertex x v :
  (∀ u w, w ∈ nbrs u → hasVertex g w = true) →
  hasVertex g x = true → reachable nbrs x v → hasVertex g v = true.
Proof. intros Hclosed Hx [n Hwalk]. induction Hwalk; eauto. Qed.

(** The inner loop, seeded at a vertex of the graph: it returns the
    vertices reachable from the seed, each once, and adds them to
    [globalVisited]. *)
Lemma component_loop_seed x glob :
  hasVertex g x = true →
  ∃ component seen,
    component_loop (loop_bound g) g [x] {[x]} ({[x]} ∪ glob) []
    = Returns (component, glob ∪ seen) ∧
    NoDup component ∧
    (∀ v, v ∈ component ↔ reachable nbrs x v) ∧
    (∀ v, v ∈ seen ↔ v ∈ component).
Proof.
  intros Hx. destruct (bfs_run_start g x Hx) as (out & seen & Hrun & HI).
  exists out.*1, seen. split_and!.
  - replace ({[x]} ∪ glob) with (glob ∪ {[x]}) by set_solver.
    etrans; [exact (component_loop_run g (loop_bound g) [] [(x, 0)]
                      {[x]} glob) |].
    by rewrite Hrun.
  - pose proof (inv_nodup _ _ _ _ _ _ HI) as H. by rewrite app_nil_r in H.
  - intros v. by eapply inv_final_reachable.
  - intros v. by eapply inv_final_seen.
Qed.

(** The outer loop returns on every enumeration of vertices. *)
Lemma components_loop_total vs glob cs :
  (∀ x, x ∈ vs → hasVertex g x = true) →
  ∃ r, components_loop g vs glob cs = Returns r.
Proof.
  revert glob cs.
  induction vs as [|x vs IH]; intros glob cs Hvs; cbn [components_loop].
  - by exists cs.
  - assert (∀ y, y ∈ vs → hasVertex g y = true) as Hvs'
      by (intros; apply Hvs; by right).
    case_decide; [by apply IH |].
    destruct (component_loop_seed x glob) as (c & seen & -> & _);
      [apply Hvs; left |].
    simpl. by apply IH.
Qed.

Section undirected.
Hypothesis symmetric : ∀ u v, v ∈ nbrs u → u ∈ nbrs v.

Lemma symmetric_closed u w : w ∈ nbrs u → hasVertex g w = true.
Proof. intros Hw%symmetric. by eapply getNeighbors_hasVertex. Qed.

Lemma components_inv_empty : components_inv g ∅ [].
Proof.
  split; simpl; [set_solver | constructor | set_solver.. | constructor].
Qed.

Lemma components_inv_step x glob cs component seen :
  components_inv g glob cs → x ∉ glob → hasVertex g x = true →
  NoDup component →
  (∀ v, v ∈ component ↔ reachable nbrs x v) →
  (∀ v, v ∈ seen ↔ v ∈ component) →
  components_inv g (glob ∪ seen) (cs ++ [component]).
Proof.
  intros HC Hx Hkey Hnd Hreach Hseen.
  assert (mjoin (cs ++ [component]) = mjoin cs ++ component) as E.
  { rewrite join_app. simpl. by rewrite app_nil_r. }
  split.
  - intros v. rewrite E, elem_of_union, elem_of_app, Hseen.
    by rewrite (cinv_union _ _ _ HC).
  - rewrite E. apply NoDup_app. split_and!; [apply HC | | done].
    intros v Hv%(cinv_union _ _ _ HC) Hv'%Hreach. apply Hx.
    eapply cinv_closed; [done.. |]. by apply reachable_sym.
  - intros u v. rewrite !elem_of_union, !Hseen, !Hreach.
    intros [Hu|Hu] Huv.
    + left. by eapply cinv_closed.
    + right. by eapply reachable_trans.
  - intros v. rewrite elem_of_union, Hseen, Hreach. intros [Hv|Hv].
    + by eapply cinv_vertices.
    + eapply reachable_hasVertex; [apply symmetric_closed | done..].
  - apply Forall_app. split; [apply HC |].
    apply Forall_singleton. by exists x.
Qed.

Lemma components_loop_spec vs glob cs :
  components_inv g glob cs →
  (∀ x, x ∈ vs → hasVertex g x = true) →
  ∃ cs' glob',
    components_loop g vs glob cs = Returns cs' ∧
    components_inv g glob' cs' ∧
    ∀ x, x ∈ vs → x ∈ glob'.
Proof.
  enough (∀ vs glob cs,
            components_inv g glob cs →
            (∀ x, x ∈ vs → hasVertex g x = true) →
            ∃ cs' glob',
              components_loop g vs glob cs = Returns cs' ∧
              components_inv g glob' cs' ∧ glob ⊆ glob' ∧
              ∀ x, x ∈ vs → x ∈ glob') as H.
  { intros HC Hvs. destruct (H vs glob cs HC Hvs) as (cs' & glob' & ?).
    exists cs', glob'. tauto. }
  clear vs glob cs.
  induction vs as [|x vs IH]; intros glob cs HC Hvs;
    cbn [components_loop].
  - exists cs, glob. split_and!; [done.. |]. by intros x ?%elem_of_nil.
  - assert (∀ y, y ∈ vs → hasVertex g y = true) as Hvs'
      by (intros; apply Hvs; by right).
    case_decide as Hx.
    + destruct (IH glob cs HC Hvs') as (cs' & glob' & ? & ? & Hsub & Hin).
      exists cs', glob'. split_and!; [done.. |].
      intros y [->|Hy]%elem_of_cons; [by apply Hsub | by apply Hin].
    + assert (hasVertex g x = true) as Hkey by (apply Hvs; left).
      destruct (component_loop_seed x glob Hkey)
        as (c & seen & -> & Hnd & Hreach & Hseen).
      simpl.
      destruct (IH (glob ∪ seen) (cs ++ [c])) as
        (cs' & glob' & ? & ? & Hsub & Hin); [|done |].
      { by eapply components_inv_step. }
      exists cs', glob'. split_and!; [done.. | set_solver |].
      intros y [->|Hy]%elem_of_cons; [|by apply Hin].
      apply Hsub, elem_of_union_r, Hseen, Hreach, reachable_refl.
Qed.
End undirected.
End components.

(** * Vectors of vectors *)

Lemma bind_Returns {A B} (a : A) (k : A → outcome B) :
  Returns a ≫= k = k a.
Proof. done. Qed.

Lemma at_index_Returns {A} (v : list A) i x :
  at_index v i = Returns x ↔ (0 ≤ i)%Z ∧ v !! Z.to_nat i = Some x.
Proof.
  unfold at_index. case_decide; [|naive_solver].
  destruct (v !! Z.to_nat i); naive_solver.
Qed.

Section matrix.
Context {A : Type}.
Implicit Types (m : list (list A)) (r c : Z) (x : A).

Lemma in_bounds_inside rows cols r c :
  in_bounds (Z.of_nat rows) (Z.of_nat cols) r c = true
  ↔ inside rows cols (r, c).
Proof.
  unfold in_bounds, inside. rewrite !andb_true_iff, !bool_decide_eq_true.
  simpl. tauto.
Qed.

Lemma at2_Returns m r c x :
  at2 m r c = Returns x ↔
  (0 ≤ r)%Z ∧ (0 ≤ c)%Z ∧
  ∃ row, m !! Z.to_nat r = Some row ∧ row !! Z.to_nat c = Some x.
Proof.
  unfold at2. destruct (at_index m r) as [row| |] eqn:Hrow; simpl.
  - apply at_index_Returns in Hrow as [? Hrow].
    rewrite at_index_Returns. naive_solver.
  - split; [done |]. intros (? & ? & row & Hr & _).
    assert (at_index m r = Returns row) as E by by apply at_index_Returns.
    congruence.
  - unfold at_index in Hrow. case_decide; [|done].
    by destruct (m !! Z.to_nat r).
Qed.

Lemma at2_inside m rows cols r c :
  dims m rows cols → inside rows cols (r, c) →
  ∃ x, at2 m r c = Returns x.
Proof.
  intros [Hlen Hrows] [[??] [??]]. simpl in *.
  destruct (lookup_lt_is_Some_2 m (Z.to_nat r)) as [row Hrow]; [lia |].
  assert (length row = cols) as Hc
    by (apply Hrows; by eapply list_elem_of_lookup_2).
  destruct (lookup_lt_is_Some_2 row (Z.to_nat c)) as [x Hx]; [lia |].
  exists x. apply at2_Returns. eauto 6.
Qed.

Lemma set2_inside m rows cols r c x :
  dims m rows cols → inside rows cols (r, c) →
  ∃ m', set2 m r c x = Returns m' ∧ dims m' rows cols ∧
        at2 m' r c = Returns x ∧
        ∀ r' c', (r', c') ≠ (r, c) → at2 m' r' c' = at2 m r' c'.
Proof.
  intros Hdims Hin.
  destruct (at2_inside _ _ _ _ _ Hdims Hin) as [y Hy].
  apply at2_Returns in Hy as (Hr & Hc & row & Hrow & Hcol).
  destruct Hdims as [Hlen Hrows].
  exists (<[Z.to_nat r := <[Z.to_nat c := x]> row]> m).
  assert (Z.to_nat r < length m) by by eapply lookup_lt_Some.
  assert (Z.to_nat c < length row) by by eapply lookup_lt_Some.
  split_and!.
  - unfold set2.
    assert (at_index m r = Returns row) as -> by by apply at_index_Returns.
    simpl.
    assert (at_index row c = Returns y) as -> by by apply at_index_Returns.
    done.
  - split; [by rewrite length_insert |].
    intros row' [i Hi]%list_elem_of_lookup.
    destruct (decide (i = Z.to_nat r)) as [->|Hne].
    + rewrite list_lookup_insert_eq in Hi by done. simplify_eq.
      rewrite length_insert. apply Hrows.
      by eapply list_elem_of_lookup_2.
    + rewrite list_lookup_insert_ne in Hi by done.
      apply Hrows. by eapply list_elem_of_lookup_2.
  - apply at2_Returns. split_and!; [done.. |].
    exists (<[Z.to_nat c := x]> row).
    by rewrite !list_lookup_insert_eq.
  - intros r' c' Hne. unfold at2.
    destruct (decide (r' = r)) as [->|Hner].
    + assert (at_index (<[Z.to_nat r := <[Z.to_nat c := x]> row]> m) r
              = Returns (<[Z.to_nat c := x]> row)) as ->.
      { apply at_index_Returns. by rewrite list_lookup_insert_eq. }
      assert (at_index m r = Returns row) as -> by by apply at_index_Returns.
      simpl. unfold at_index. destruct (decide (0 ≤ c')%Z); [|done].
      rewrite list_lookup_insert_ne; [done |].
      intros E. apply Hne. f_equal. lia.
    + assert (at_index (<[Z.to_nat r := <[Z.to_nat c := x]> row]> m) r'
              = at_index m r') as ->; [|done].
      unfold at_index. destruct (decide (0 ≤ r')%Z); [|done].
      rewrite list_lookup_insert_ne; [done | lia].
Qed.

Lemma dims_replicate rows cols x :
  dims (replicate rows (replicate cols x)) rows cols.
Proof.
  split; [apply length_replicate |].
  intros row [-> _]%elem_of_replicate. apply length_replicate.
Qed.

Lemma at2_replicate rows cols x r c :
  inside rows cols (r, c) →
  at2 (replicate rows (replicate cols x)) r c = Returns x.
Proof.
  intros [[??] [??]]. simpl in *. apply at2_Returns.
  split_and!; [done.. |]. exists (replicate cols x).
  split; apply lookup_replicate_2; lia.
Qed.
End matrix.

(** * gridBFS *)

Lemma inside_cells_length rows cols (l : list Cell) :
  NoDup l → (∀ c, c ∈ l → inside rows cols c) → length l ≤ rows * cols.
Proof.
  intros Hnd Hin.
  set (all := list_prod (seqZ 0 (Z.of_nat rows)) (seqZ 0 (Z.of_nat cols))).
  assert (length all = rows * cols) as <-.
  { unfold all. rewrite length_prod, !length_seqZ. lia. }
  apply submseteq_length, NoDup_submseteq; [done |].
  intros [r c] [[??] [??]]%Hin. simpl in *.
  apply list_elem_of_In, in_prod; apply list_elem_of_In, elem_of_seqZ; lia.
Qed.

Section gridBFS.
Context (grid : list (list Z)) (rows cols : nat) (start : Cell).
Hypothesis grid_dims : dims grid rows cols.

Local Abbreviation GInv := (grid_inv grid rows cols start).

Lemma grid_inv_length processed st :
  GInv processed st → length processed + length (gs_queue st) ≤ rows * cols.
Proof.
  intros HI. rewrite <-length_app.
  apply inside_cells_length; apply HI.
Qed.

Lemma visit_cell_inv processed st row col d :
  GInv processed st → (row, col) ∈ processed → d ∈ directions →
  ∃ st', visit_cell grid (Z.of_nat rows) (Z.of_nat cols) row col st d
         = Returns st' ∧ GInv processed st'.
Proof.
  intros HI Hcur Hd. unfold visit_cell.
  set (new := ((row + d.1)%Z, (col + d.2)%Z)).
  destruct (in_bounds _ _ _ _) eqn:Hb; [|by exists st].
  apply in_bounds_inside in Hb. fold new in Hb.
  destruct (at2_inside _ _ _ _ _ (ginv_visited_dims _ _ _ _ _ _ HI) Hb)
    as [seen Hseen].
  change (at2 (gs_visited st) new.1 new.2 = Returns seen) in Hseen.
  simpl in Hseen. rewrite Hseen, bind_Returns. cbv beta.
  destruct seen; [by exists st |].
  destruct (at2_inside _ _ _ _ _ grid_dims Hb) as [cell Hcell].
  simpl in Hcell. rewrite Hcell, bind_Returns. cbv beta.
  case_decide as Hzero; [|by exists st]. subst cell.
  destruct (set2_inside _ _ _ _ _ true
              (ginv_visited_dims _ _ _ _ _ _ HI) Hb)
    as (visited' & Hv & Hvd & Hvnew & Hvold).
  destruct (set2_inside _ _ _ _ _ (row, col)
              (ginv_parent_dims _ _ _ _ _ _ HI) Hb)
    as (parent' & Hp & Hpd & Hpnew & Hpold).
  simpl in Hv, Hp. rewrite Hv, bind_Returns. cbv beta.
  rewrite Hp, bind_Returns. cbv beta.
  eexists. split; [done |].
  assert (new ∉ processed ++ gs_queue st) as Hfresh.
  { intros Hin%(ginv_visited _ _ _ _ _ _ HI); [|done].
    simpl in Hin. congruence. }
  split; simpl; rewrite ?app_assoc.
  - done.
  - done.
  - apply NoDup_app. split_and!; [apply HI | | apply NoDup_singleton].
    intros c Hc ->%list_elem_of_singleton. done.
  - intros c [Hc|Hc%list_elem_of_singleton]%elem_of_app; [|by subst].
    by apply HI.
  - intros c Hc. rewrite elem_of_app, list_elem_of_singleton.
    destruct (decide (c = new)) as [->|Hne].
    + split; [by right | done].
    + rewrite Hvold by (destruct c; done).
      rewrite (ginv_visited _ _ _ _ _ _ HI) by done. naive_solver.
  - intros i c Hi. apply lookup_snoc_Some in Hi as [[Hlt Hi]|[Hlen <-]].
    + assert (c ≠ new) as Hne.
      { intros ->. apply Hfresh. by eapply list_elem_of_lookup_2. }
      rewrite Hpold by (destruct c; done).
      pose proof (ginv_chain _ _ _ _ _ _ HI i c Hi) as Hchain.
      destruct i as [|i]; [done |].
      destruct Hchain as (j & p & ? & Hj & ? & ? & ?). exists j, p.
      split_and!; [done | | done..]. by apply lookup_app_l_Some.
    + apply list_elem_of_lookup in Hcur as [j Hj].
      pose proof (lookup_lt_Some _ _ _ Hj).
      rewrite length_app in Hlen.
      destruct i as [|i]; [lia |].
      exists j, (row, col). split_and!; [lia | | done | | done].
      * by apply lookup_app_l_Some, lookup_app_l_Some.
      * by exists d.
Qed.

Lemma visit_cells_inv processed st row col ds :
  GInv processed st → (row, col) ∈ processed →
  (∀ d, d ∈ ds → d ∈ directions) →
  ∃ st', visit_cells grid (Z.of_nat rows) (Z.of_nat cols) row col st ds
         = Returns st' ∧ GInv processed st'.
Proof.
  intros HI Hcur. revert st HI.
  induction ds as [|d ds IH]; intros st HI Hds; simpl.
  - by exists st.
  - destruct (visit_cell_inv processed st row col d) as (st1 & -> & HI1);
      [done.. | apply Hds; left |].
    simpl. apply IH; [done |]. intros d' Hd'. apply Hds. by right.
Qed.

(** Walking the parent matrix back from a discovered cell returns the
    walk from the start to that cell. *)
Lemma grid_reconstruct_spec processed st i c path fuel :
  GInv processed st → (processed ++ gs_queue st) !! i = Some c →
  S i < fuel →
  ∃ l, grid_walk grid rows cols start c l ∧
       grid_reconstruct fuel (gs_parent st) c.1 c.2 path
       = Returns (l ++ reverse path).
Proof.
  intros HI. revert c path fuel.
  induction (lt_wf i) as [i _ IH]; intros [cr cc] path fuel Hi Hfuel.
  assert (inside rows cols (cr, cc)) as Hc.
  { eapply ginv_inside; [done |]. by eapply list_elem_of_lookup_2. }
  destruct fuel as [|fuel]; [lia |]. cbn [grid_reconstruct fst snd].
  assert (cr ≠ (-1)%Z ∧ cc ≠ (-1)%Z) as Hne
    by (unfold inside in Hc; simpl in Hc; lia).
  destruct (decide (cr ≠ (-1)%Z ∧ cc ≠ (-1)%Z)) as [_|?]; [|done].
  pose proof (ginv_chain _ _ _ _ _ _ HI i _ Hi) as Hchain.
  destruct i as [|i].
  - destruct Hchain as [Hs Hp]. simpl in Hp.
    rewrite Hp, bind_Returns. cbv beta. cbn [fst snd].
    destruct fuel as [|fuel]; [lia |]. cbn [grid_reconstruct].
    destruct (decide (_ ∧ _)) as [[? _]|_]; [done |]. exists [start].
    rewrite <-Hs. split; [by constructor |]. by rewrite reverse_snoc.
  - destruct Hchain as (j & p & Hj & Hp & Hpar & Hadj & Hzero).
    simpl in Hpar. rewrite Hpar, bind_Returns. cbv beta.
    destruct (IH j Hj p (path ++ [(cr, cc)]) fuel Hp) as (l & Hl & ->);
      [lia |].
    exists (l ++ [(cr, cc)]). split; [by econstructor |].
    by rewrite reverse_snoc, <-app_assoc.
Qed.

Lemma gridBFS_loop_spec target fuel processed st :
  GInv processed st → rows * cols < fuel + length processed →
  ∃ r, gridBFS_loop fuel grid (Z.of_nat rows) (Z.of_nat cols)
         target.1 target.2 st = Returns r ∧
       (r = [] ∨ grid_walk grid rows cols start target r).
Proof.
  revert processed st.
  induction fuel as [|fuel IH]; intros processed st HI Hfuel.
  - apply grid_inv_length in HI. lia.
  - destruct st as [visited parent queue]. cbn [gridBFS_loop gs_queue].
    destruct queue as [|[row col] queue]; [exists []; auto |].
    cbn [gs_parent gs_visited].
    case_decide as Htarget.
    + assert ((row, col) = target) as <- by (destruct target; naive_solver).
      assert ((row, col) ∈ processed ++ (row, col) :: queue) as Hin
        by (apply elem_of_app; right; left).
      apply list_elem_of_lookup in Hin as [i Hi].
      pose proof (lookup_lt_Some _ _ _ Hi) as Hlt.
      pose proof (grid_inv_length _ _ HI) as Hlen.
      rewrite length_app in Hlt. simpl in Hlt, Hlen.
      destruct (grid_reconstruct_spec processed _ i (row, col) []
                  (S (Z.to_nat (Z.of_nat rows * Z.of_nat cols))) HI Hi)
        as (l & Hl & Hrun); [lia |].
      exists l. cbn [fst snd gs_parent] in *.
      rewrite Hrun, reverse_nil, app_nil_r. auto.
    + assert (GInv (processed ++ [(row, col)])
                (mkGridState visited parent queue)) as HI'.
      { destruct HI as [? ? Hnd Hins Hvis Hchain]. simpl in *.
        split; simpl; rewrite <-?app_assoc; done. }
      destruct (visit_cells_inv _ _ row col directions HI')
        as (st' & -> & HI''); [|done |].
      { apply elem_of_app. right. left. }
      simpl. apply (IH (processed ++ [(row, col)])); [done |].
      rewrite length_app. simpl. lia.
Qed.
End gridBFS.

Lemma rectangular_dims grid :
  rectangular grid →
  dims grid (length grid) (length (default [] (head grid))).
Proof. intros Hrect. by split. Qed.

Lemma grid_inv_init grid rows cols start visited :
  inside rows cols start →
  set2 (replicate rows (replicate cols false)) start.1 start.2 true
  = Returns visited →
  grid_inv grid rows cols start []
    (mkGridState visited
       (replicate rows (replicate cols ((-1)%Z, (-1)%Z))) [start]).
Proof.
  intros Hstart Hset. destruct start as [sr sc].
  destruct (set2_inside _ _ _ _ _ true (dims_replicate rows cols false) Hstart)
    as (visited' & Hv & Hvd & Hvnew & Hvold).
  simpl in *. rewrite Hset in Hv. injection Hv as <-.
  split; simpl.
  - done.
  - apply dims_replicate.
  - apply NoDup_singleton.
  - by intros c ->%list_elem_of_singleton.
  - intros [r c] Hc. rewrite list_elem_of_singleton. simpl.
    destruct (decide ((r, c) = (sr, sc))) as [E|Hne].
    + injection E as -> ->. done.
    + rewrite Hvold, at2_replicate by done. naive_solver.
  - intros i c Hi. apply list_lookup_singleton_Some in Hi as [-> <-].
    split; [done |]. by apply at2_replicate.
Qed.

(** [gridBFS] on a rectangular grid returns, and what it returns is empty
    or a walk from the start cell to the target cell. *)
Lemma gridBFS_spec grid startRow startCol targetRow targetCol :
  rectangular grid →
  ∃ r, gridBFS grid startRow startCol targetRow targetCol = Returns r ∧
       (r = [] ∨
        grid_walk grid (length grid) (length (default [] (head grid)))
          (startRow, startCol) (targetRow, targetCol) r).
Proof.
  intros Hrect. pose proof (rectangular_dims _ Hrect) as Hdims.
  destruct grid as [|row0 rest]; [exists []; auto |].
  destruct row0 as [|x0 row0]; [exists []; auto |].
  set (grid := (x0 :: row0) :: rest) in *.
  set (rows := length grid) in *.
  set (cols := length (default [] (head grid))) in *.
  change (gridBFS grid startRow startCol targetRow targetCol) with
    (if negb (in_bounds (Z.of_nat rows) (Z.of_nat cols) startRow startCol) ||
        negb (in_bounds (Z.of_nat rows) (Z.of_nat cols) targetRow targetCol)
     then Returns []
     else
       startCell ← at2 grid startRow startCol;
       if decide (startCell = 1%Z) then Returns []
       else
         targetCell ← at2 grid targetRow targetCol;
         if decide (targetCell = 1%Z) then Returns []
         else if decide (startRow = targetRow ∧ startCol = targetCol) then
           Returns [(startRow, startCol)]
         else
           visited ← set2 (replicate rows (replicate cols false))
                       startRow startCol true;
           gridBFS_loop (S (Z.to_nat (Z.of_nat rows * Z.of_nat cols))) grid
             (Z.of_nat rows) (Z.of_nat cols) targetRow targetCol
             (mkGridState visited
                (replicate rows (replicate cols ((-1)%Z, (-1)%Z)))
                [(startRow, startCol)])).
  destruct (in_bounds _ _ startRow startCol) eqn:Hs; [|exists []; auto].
  destruct (in_bounds _ _ targetRow targetCol) eqn:Ht; [|exists []; auto].
  apply in_bounds_inside in Hs, Ht. cbn [negb orb].
  destruct (at2_inside _ _ _ _ _ Hdims Hs) as [startCell ->].
  rewrite bind_Returns. case_decide; [exists []; auto |].
  destruct (at2_inside _ _ _ _ _ Hdims Ht) as [targetCell ->].
  rewrite bind_Returns. case_decide; [exists []; auto |].
  case_decide as Hst.
  - destruct Hst as [<- <-]. eexists. split; [done |]. right. by constructor.
  - destruct (set2_inside _ _ _ _ _ true (dims_replicate rows cols false) Hs)
      as (visited & Hv & _).
    rewrite Hv, bind_Returns.
    apply (gridBFS_loop_spec grid rows cols (startRow, startCol) Hdims
             (targetRow, targetCol) _ []).
    + by apply grid_inv_init.
    + rewrite <-Nat2Z.inj_mul, Nat2Z.id. cbn [length]. lia.
Qed.

Lemma gridBFS_out_of_range grid startRow startCol targetRow targetCol :
  ¬ inside (length grid) (length (default [] (head grid)))
      (startRow, startCol) ∨
  ¬ inside (length grid) (length (default [] (head grid)))
      (targetRow, targetCol) →
  gridBFS grid startRow startCol targetRow targetCol = Returns [].
Proof.
  intros Hout. destruct grid as [|row0 rest]; [done |].
  destruct row0 as [|x0 row0]; [done |].
  unfold gridBFS.
  destruct (in_bounds _ _ startRow startCol) eqn:Hs; [|done].
  destruct (in_bounds _ _ targetRow targetCol) eqn:Ht; [|done].
  apply in_bounds_inside in Hs, Ht. tauto.
Qed.

Lemma gridBFS_blocked grid startRow startCol targetRow targetCol :
  rectangular grid →
  at2 grid startRow startCol = Returns 1%Z ∨
  at2 grid targetRow targetCol = Returns 1%Z →
  gridBFS grid startRow startCol targetRow targetCol = Returns [].
Proof.
  intros Hrect Hblocked. pose proof (rectangular_dims _ Hrect) as Hdims.
  destruct grid as [|row0 rest]; [done |].
  destruct row0 as [|x0 row0]; [done |].
  unfold gridBFS.
  destruct (in_bounds _ _ startRow startCol) eqn:Hs; [|done].
  destruct (in_bounds _ _ targetRow targetCol) eqn:Ht; [|done].
  apply in_bounds_inside in Hs, Ht. cbn [negb orb].
  destruct (at2_inside _ _ _ _ _ Hdims Hs) as [startCell Hsc].
  rewrite Hsc, bind_Returns. case_decide; [done |].
  destruct Hblocked as [E|E]; [congruence |].
  rewrite E, bind_Returns. by rewrite decide_True.
Qed.

(** A walk in the sense of [grid_walk] starts at the start cell, ends at
    its end cell, stays in range, moves by single steps, and has value [0]
    on every cell after the first. *)
Lemma grid_walk_valid grid rows cols start c l :
  grid_walk grid rows cols start c l →
  head l = Some start ∧ last l = Some c ∧
  Forall (inside rows cols) l ∧
  Forall (λ cell, at2 grid cell.1 cell.2 = Returns 0%Z) (tail l) ∧
  ∀ i a b, l !! i = Some a → l !! S i = Some b → adjacent a b.
Proof.
  induction 1 as [Hstart|p c l Hwalk IH Hadj Hin Hzero].
  - split_and!; [done | done | by constructor | constructor |].
    intros i a b _ Hb. by destruct i.
  - destruct IH as (Hhead & Hlast & Hinside & Hpass & Hsteps).
    destruct l as [|x l]; [done |]. simpl in Hhead. simplify_eq.
    split_and!.
    + done.
    + apply last_snoc.
    + apply Forall_app. split; [done | by constructor].
    + simpl in *. apply Forall_app. split; [done | by constructor].
    + intros i a b Ha Hb.
      apply lookup_snoc_Some in Hb as [[Hlt Hb]|[Hlen <-]].
      * rewrite lookup_app_l in Ha by lia. by eapply Hsteps.
      * rewrite lookup_app_l in Ha by lia.
        rewrite last_lookup, <-Hlen in Hlast. simpl in Hlast.
        rewrite Hlast in Ha. by simplify_eq.
Qed.

(** On a rectangular grid a non-empty result of [gridBFS] is a walk from
    the start cell to the target cell by single steps inside the grid;
    every cell after the first has value [0], and the first has a value
    other than [1]. *)
Lemma gridBFS_valid_walk grid startRow startCol targetRow targetCol path :
  rectangular grid →
  gridBFS grid startRow startCol targetRow targetCol = Returns path →
  path ≠ [] →
  head path = Some (startRow, startCol) ∧
  last path = Some (targetRow, targetCol) ∧
  Forall (inside (length grid) (length (default [] (head grid)))) path ∧
  Forall (λ cell, at2 grid cell.1 cell.2 = Returns 0%Z) (tail path) ∧
  (∃ x, at2 grid startRow startCol = Returns x ∧ x ≠ 1%Z) ∧
  ∀ i a b, path !! i = Some a → path !! S i = Some b → adjacent a b.
Proof.
  intros Hrect Hrun Hne.
  destruct (gridBFS_spec grid startRow startCol targetRow targetCol Hrect)
    as (r & Hr & [->|Hwalk]); rewrite Hrun in Hr; simplify_eq.
  destruct (grid_walk_valid _ _ _ _ _ _ Hwalk)
    as (Hhead & Hlast & Hinside & Hpass & Hsteps).
  split_and!; [done.. | | done].
  assert (inside (length grid) (length (default [] (head grid)))
            (startRow, startCol)) as Hstart.
  { apply head_Some in Hhead as [l' ->].
    by apply Forall_cons in Hinside as [? _]. }
  destruct (at2_inside _ _ _ _ _ (rectangular_dims _ Hrect) Hstart) as [x Hx].
  exists x. split; [done |]. intros ->.
  rewrite gridBFS_blocked in Hrun by auto. by simplify_eq.
Qed.

(** When the grid holds only the values 0 and 1, every cell of the path
    has value [0]. *)
Lemma gridBFS_path_passable grid startRow startCol targetRow targetCol path :
  rectangular grid →
  (∀ r c x, at2 grid r c = Returns x → x = 0%Z ∨ x = 1%Z) →
  gridBFS grid startRow startCol targetRow targetCol = Returns path →
  Forall (λ cell, at2 grid cell.1 cell.2 = Returns 0%Z) path.
Proof.
  intros Hrect Hbinary Hrun. destruct path as [|c path]; [constructor |].
  destruct (gridBFS_valid_walk _ _ _ _ _ _ Hrect Hrun)
    as (Hhead & _ & _ & Hpass & (x & Hx & Hx1) & _); [done |].
  simpl in *. simplify_eq. constructor; [|done]. simpl.
  destruct (Hbinary _ _ _ Hx); by subst.
Qed.

(** * Every query returns *)

Lemma traverse_total g start : ∃ r, traverse g start = Returns r.
Proof.
  destruct (hasVertex g start) eqn:Hs.
  - destruct (traverse_levels g start Hs) as (out & ? & _). by eexists.
  - exists []. by apply traverse_absent.
Qed.

Lemma shortestPath_total g start target :
  ∃ r, shortestPath g start target = Returns r ∧
       (¬ reachable (getNeighbors g) start target → r = []).
Proof.
  destruct (hasVertex g start) eqn:Hs; [destruct (hasVertex g target) eqn:Ht|].
  - destruct (shortestPath_spec g start target Hs Ht)
      as (r & ? & [(n & Hn & _)|[_ ->]]); exists r || exists []; split; try done.
    intros []. by eapply dist_reachable.
  - exists []. split; [apply shortestPath_absent; auto | done].
  - exists []. split; [apply shortestPath_absent; auto | done].
Qed.

Lemma shortestDistance_total g start target :
  ∃ r, shortestDistance g start target = Returns r ∧
       (¬ reachable (getNeighbors g) start target → r = (-1)%Z).
Proof.
  destruct (hasVertex g start) eqn:Hs; [destruct (hasVertex g target) eqn:Ht|].
  - destruct (shortestDistance_spec g start target Hs Ht)
      as (r & ? & [(n & Hn & _)|[_ ->]]); eexists; split; try done.
    intros []. by eapply dist_reachable.
  - exists (-1)%Z. split; [apply shortestDistance_absent; auto | done].
  - exists (-1)%Z. split; [apply shortestDistance_absent; auto | done].
Qed.

Lemma verticesAtDistance_total g start distance :
  ∃ r, verticesAtDistance g start distance = Returns r.
Proof.
  destruct (hasVertex g start) eqn:Hs;
    [destruct (decide (0 ≤ distance)%Z) as [Hd|Hd]|].
  - destruct (verticesAtDistance_spec g start distance Hs Hd) as (r & ? & _).
    by exists r.
  - exists []. apply verticesAtDistance_sentinel. right. lia.
  - exists []. apply verticesAtDistance_sentinel. by left.
Qed.

Lemma isConnected_over_total vertices g :
  ∃ b, isConnected_over vertices g = Returns b.
Proof.
  destruct vertices as [|first rest]; [by exists true |].
  unfold isConnected_over.
  destruct (traverse_total g first) as [r ->]. by eexists.
Qed.

Lemma findConnectedComponents_over_total vertices g :
  vertices ≡ₚ getAllVertices g →
  ∃ cs, findConnectedComponents_over vertices g = Returns cs.
Proof.
  intros Hperm. apply components_loop_total.
  intros x Hx. apply elem_of_getAllVertices. by rewrite <-Hperm.
Qed.

(** * isConnected against findConnectedComponents *)

(** The outer loop adds a component exactly when it meets a vertex that is
    not yet in [globalVisited]. *)
Lemma components_loop_length g vs glob cs0 :
  (∀ x, x ∈ vs → hasVertex g x = true) →
  ∃ cs, components_loop g vs glob cs0 = Returns cs ∧
        length cs0 ≤ length cs ∧
        (length cs = length cs0 ↔ ∀ x, x ∈ vs → x ∈ glob).
Proof.
  revert glob cs0.
  induction vs as [|x vs IH]; intros glob cs0 Hvs; cbn [components_loop].
  - exists cs0. split_and!; [done.. |]. split; [|done].
    by intros _ x ?%elem_of_nil.
  - assert (∀ y, y ∈ vs → hasVertex g y = true) as Hvs'
      by (intros; apply Hvs; by right).
    case_decide as Hx.
    + destruct (IH glob cs0 Hvs') as (cs & ? & ? & Hiff).
      exists cs. split_and!; [done.. |]. rewrite Hiff. split.
      * intros Hall y [->|Hy]%elem_of_cons; auto.
      * intros Hall y Hy. apply Hall. by right.
    + destruct (component_loop_seed g x glob) as (c & seen & -> & _);
        [apply Hvs; left |].
      rewrite bind_Returns. cbv beta. cbn [fst snd].
      destruct (IH (glob ∪ seen) (cs0 ++ [c]) Hvs') as (cs & ? & Hlen & _).
      rewrite length_app in Hlen. simpl in Hlen.
      exists cs. split_and!; [done | lia |]. split; [lia |].
      intros Hall. destruct Hx. apply Hall. left.
Qed.

(** On a graph in which every stored neighbor is itself a vertex, and for
    every order of enumeration, [isConnected] answers true exactly when
    [findConnectedComponents] returns one component, or none for the empty
    graph. *)
Lemma isConnected_iff_one_component g vertices :
  (∀ u w, w ∈ getNeighbors g u → hasVertex g w = true) →
  vertices ≡ₚ getAllVertices g →
  ∃ b cs, isConnected_over vertices g = Returns b ∧
          findConnectedComponents_over vertices g = Returns cs ∧
          (b = true ↔ length cs = 1 ∨ (cs = [] ∧ vertices = [])).
Proof.
  intros Hclosed Hperm.
  assert (∀ x, x ∈ vertices → hasVertex g x = true) as Hkeys.
  { intros x Hx. apply elem_of_getAllVertices. by rewrite <-Hperm. }
  assert (NoDup vertices) as Hnd
    by (rewrite Hperm; apply NoDup_getAllVertices).
  destruct vertices as [|x rest].
  { exists true, []. split_and!; [done.. |]. split; auto. }
  assert (hasVertex g x = true) as Hx by (apply Hkeys; left).
  destruct (traverse_levels g x Hx) as (out & Hrun & Hndout & _ & _ & Hreach).
  unfold isConnected_over, findConnectedComponents_over.
  cbn [components_loop]. rewrite Hrun, bind_Returns. cbv beta.
  rewrite decide_False by set_solver.
  destruct (component_loop_seed g x ∅ Hx) as (c & seen & -> & _ & Hc & Hseen).
  rewrite bind_Returns. cbv beta. cbn [fst snd].
  destruct (components_loop_length g rest (∅ ∪ seen) ([] ++ [c]))
    as (cs & -> & Hlen & Hiff).
  { intros y Hy. apply Hkeys. by right. }
  simpl in Hlen, Hiff.
  eexists _, cs. split_and!; [done.. |].
  rewrite bool_decide_eq_true.
  assert (∀ v, v ∈ out.*1 → v ∈ x :: rest) as Hsub.
  { intros v Hv%Hreach. rewrite Hperm. apply elem_of_getAllVertices.
    by eapply reachable_hasVertex. }
  split.
  - intros Hsame. left. apply Hiff. intros y Hy.
    apply elem_of_union_r, Hseen, Hc, Hreach.
    assert (out.*1 ≡ₚ x :: rest) as ->; [|by right].
    apply submseteq_length_Permutation; [|by rewrite Hsame].
    by apply NoDup_submseteq.
  - intros [Hone|[_ ?]]; [|done].
    apply Permutation_length, NoDup_Permutation; [done.. |].
    intros v. split; [apply Hsub |].
    intros [->|Hv]%elem_of_cons.
    + apply Hreach, reachable_refl.
    + apply Hreach, Hc, Hseen.
      assert (v ∈ ∅ ∪ seen) as Hin by by apply Hiff.
      set_solver.
Qed.

(** * Scenarios *)

Lemma sorted_lookup_le (l : list nat) i j x y :
  StronglySorted le l → i ≤ j → l !! i = Some x → l !! j = Some y → x ≤ y.
Proof.
  intros Hs. revert i j. induction Hs as [|a l Hs IH Hall]; intros i j Hij Hi Hj.
  - done.
  - destruct i as [|i]; destruct j as [|j]; simpl in *; simplify_eq.
    + done.
    + rewrite Forall_forall in Hall. apply Hall.
      by eapply list_elem_of_lookup_2.
    + lia.
    + eapply (IH i j); [lia | done..].
Qed.

Lemma built_scenarioA : built false scenarioA.
Proof. unfold scenarioA. repeat apply built_addEdge. apply built_new. Qed.

(** The scenarios of the specification, evaluated. *)

Example scenarioA_results :
  traverse scenarioA 1 = Returns [1; 2; 4; 3]%Z ∧
  shortestPath scenarioA 1 3 = Returns [1; 2; 3]%Z ∧
  shortestDistance scenarioA 1 3 = Returns 2%Z ∧
  verticesAtDistance scenarioA 1 1 = Returns [2; 4]%Z ∧
  isConnected scenarioA = Returns true.
Proof. by vm_compute. Qed.

Example scenarioC_results :
  traverse scenarioA 9 = Returns [] ∧
  shortestDistance scenarioA 9 1 = Returns (-1)%Z.
Proof. by vm_compute. Qed.

Example scenarioD_results :
  shortestPath scenarioA 2 2 = Returns [2%Z] ∧
  shortestDistance scenarioA 2 2 = Returns 0%Z ∧
  gridBFS scenarioB 2 1 2 1 = Returns [(2, 1)]%Z.
Proof. by vm_compute. Qed.

(** ** C1 *)

(** C1, as stated, fails: on Scenario B from (0,0) to (2,0) [gridBFS] does
    not return a path of 5 cells. *)
Lemma C1_scenarioB_not_five_cells :
  ¬ ∃ path, gridBFS scenarioB 0 0 2 0 = Returns path ∧
            (1%Z, 2%Z) ∈ path ∧ length path = 5.
Proof. intros (path & Hrun & _ & Hlen). vm_compute in Hrun. by simplify_eq. Qed.

(** C1, amended: on Scenario B from (0,0) to (2,0) [gridBFS] returns the
    path along row 0, down column 2 and back along row 2; it passes the
    middle row in column 2 and has 7 cells. *)
Theorem C1_scenarioB_path :
  ∃ path, gridBFS scenarioB 0 0 2 0 = Returns path ∧
          path = [(0, 0); (0, 1); (0, 2); (1, 2); (2, 2); (2, 1); (2, 0)]%Z ∧
          (∀ col, (1%Z, col) ∈ path → col = 2%Z) ∧
          (1%Z, 2%Z) ∈ path ∧
          length path = 7.
Proof.
  eexists. split; [by vm_compute |]. split_and!; [done | | | done].
  - intros col Hin. repeat (apply elem_of_cons in Hin as [Hin|Hin];
                             [by simplify_eq |]).
    by apply elem_of_nil in Hin.
  - do 3 right. left.
Qed.

(** ** C2 *)

(** C2 fails on a directed graph: after [addEdge(1, 2)] on an empty
    directed graph the source vertex is present and the target is not,
    although it is stored as a neighbor; [shortestPath] then answers "no
    path" for the edge just added. *)
Theorem C2_addEdge_directed_target_absent :
  hasVertex (addEdge (newGraph true) 1 2) 1 = true ∧
  hasVertex (addEdge (newGraph true) 1 2) 2 = false ∧
  getNeighbors (addEdge (newGraph true) 1 2) 1 = [2%Z] ∧
  shortestPath (addEdge (newGraph true) 1 2) 1 2 = Returns [].
Proof. by vm_compute. Qed.

(** On an undirected graph both endpoints are present after [addEdge]. *)
Lemma addEdge_undirected_endpoints g u v :
  isDirected g = false →
  hasVertex (addEdge g u v) u = true ∧ hasVertex (addEdge g u v) v = true.
Proof.
  intros Hd. split;
    [apply hasVertex_addEdge_from | by apply hasVertex_addEdge_undirected].
Qed.

(** ** C3 *)

(** C3, as stated, fails: on the directed graph with the edges 1 -> 2 and
    3 -> 2 the components returned are not pairwise disjoint (vertex 2 is
    in two of them). *)
Lemma C3_directed_components_overlap :
  ¬ ∃ cs, findConnectedComponents two_arrows = Returns cs ∧
          partitions cs (getAllVertices two_arrows).
Proof.
  intros (cs & Hrun & Hdisj & _). vm_compute in Hrun. simplify_eq.
  apply (Hdisj 0 1 [3; 2]%Z [1; 2]%Z 2%Z); [done.. | |].
  - right. left.
  - right. left.
Qed.

(** The overlap does not depend on the order in which the vertices are
    enumerated: in each of the six orders the first two components share
    vertex 2. *)
Lemma two_arrows_overlap_in_every_order vertices :
  vertices ≡ₚ getAllVertices two_arrows →
  ∃ cs c0 c1,
    findConnectedComponents_over vertices two_arrows = Returns cs ∧
    cs !! 0 = Some c0 ∧ cs !! 1 = Some c1 ∧ 2%Z ∈ c0 ∧ 2%Z ∈ c1.
Proof.
  intros Hperm. symmetry in Hperm.
  apply permutations_Permutation in Hperm. vm_compute in Hperm.
  repeat (apply elem_of_cons in Hperm as [->|Hperm];
          [do 3 eexists; split_and!; [by vm_compute | done | done | |];
           set_solver |]).
  by apply elem_of_nil in Hperm.
Qed.

(** C3, amended: on every graph built undirected, and for every order in
    which the vertices are enumerated, [findConnectedComponents] returns
    non-empty components that are pairwise disjoint and whose union is the
    vertex set; no vertex is listed twice. *)
Theorem C3_components_partition g vertices :
  built false g → vertices ≡ₚ getAllVertices g →
  ∃ cs, findConnectedComponents_over vertices g = Returns cs ∧
        partitions cs (getAllVertices g) ∧
        NoDup (mjoin cs) ∧
        Forall (λ c, c ≠ []) cs.
Proof.
  intros Hb Hperm.
  assert (∀ u v, v ∈ getNeighbors g u → u ∈ getNeighbors g v) as Hsym
    by (intros; by apply built_undirected_symmetric).
  destruct (components_loop_spec g Hsym vertices ∅ [])
    as (cs & glob & Hrun & HC & Hall).
  { by apply components_inv_empty. }
  { intros x Hx. apply elem_of_getAllVertices. by rewrite <-Hperm. }
  exists cs. split; [done |]. split; [split |split; [apply HC |]].
  - intros i j ci cj v. apply NoDup_join_disjoint, HC.
  - intros v. rewrite <-(cinv_union _ _ _ HC). split.
    + intros Hv. apply elem_of_getAllVertices. by eapply cinv_vertices.
    + intros Hv. apply Hall. by rewrite Hperm.
  - eapply Forall_impl; [apply HC |]. intros c [x Hx] ->.
    eapply elem_of_nil, Hx, reachable_refl.
Qed.

Lemma C3_components_partition_witness :
  built false scenarioA ∧ getAllVertices scenarioA ≡ₚ getAllVertices scenarioA ∧
  ∃ cs, findConnectedComponents_over (getAllVertices scenarioA) scenarioA
        = Returns cs ∧
        partitions cs (getAllVertices scenarioA) ∧
        NoDup (mjoin cs) ∧
        Forall (λ c, c ≠ []) cs.
Proof.
  split; [apply built_scenarioA |]. split; [reflexivity |].
  apply (C3_components_partition scenarioA (getAllVertices scenarioA));
    [apply built_scenarioA | reflexivity].
Defined.

(** ** C4 *)

(** C4 fails on a graph that uses [-1] as a vertex id: on the undirected
    path 1 - (-1) - 3, vertex 3 is reachable from 1 and [shortestDistance]
    answers 2, but [shortestPath] takes the parent [-1] of vertex 3 for its
    "no parent" mark, stops the reconstruction there and returns the single
    vertex 3: a sequence that does not start at 1 and whose length minus
    one is not the distance. *)
Theorem C4_path_cut_at_minus_one :
  reachable (getNeighbors through_minus_one) 1 3 ∧
  shortestDistance through_minus_one 1 3 = Returns 2%Z ∧
  shortestPath through_minus_one 1 3 = Returns [3%Z] ∧
  ¬ ∃ d p, shortestDistance through_minus_one 1 3 = Returns d ∧
           shortestPath through_minus_one 1 3 = Returns p ∧
           d = (Z.of_nat (length p) - 1)%Z.
Proof.
  split_and!.
  - exists 2.
    apply (walk_edge _ _ (-1)%Z 3%Z 1);
      [apply (walk_edge _ _ 1%Z (-1)%Z 0); [apply walk_here |] |];
      vm_compute; set_solver.
  - by vm_compute.
  - by vm_compute.
  - intros (d & p & Hd & Hp & E). vm_compute in Hd, Hp. by simplify_eq.
Qed.

(** Where [-1] is not a vertex id (neither a key nor a stored neighbor) the
    two queries agree: for every [target] reachable from [start],
    [shortestDistance] equals the length of [shortestPath] minus one. *)
Lemma distance_is_path_length g start target :
  ¬ mentions g (-1)%Z →
  reachable (getNeighbors g) start target →
  ∃ d p, shortestDistance g start target = Returns d ∧
         shortestPath g start target = Returns p ∧
         d = (Z.of_nat (length p) - 1)%Z.
Proof.
  intros Hno Hreach.
  destruct (hasVertex g start) eqn:Hs; [destruct (hasVertex g target) eqn:Ht|].
  - destruct (shortestDistance_spec g start target Hs Ht)
      as (d & Hd & [(n & Hn & ->)|[[] _]]); [|done].
    destruct (shortestPath_spec g start target Hs Ht)
      as (p & Hp & [(m & Hm & Hlen)|[[] _]]); [|done].
    exists (Z.of_nat n), p. split_and!; [done.. |].
    rewrite Hlen by done. rewrite (dist_unique _ _ _ _ _ Hn Hm). lia.
  - exists (-1)%Z, []. split_and!; [|  | done].
    + apply shortestDistance_absent. auto.
    + apply shortestPath_absent. auto.
  - exists (-1)%Z, []. split_and!; [|  | done].
    + apply shortestDistance_absent. auto.
    + apply shortestPath_absent. auto.
Qed.

Lemma not_mentions_scenarioA : ¬ mentions scenarioA (-1)%Z.
Proof.
  rewrite mentions_universe. vm_compute.
  intros Hin. repeat (apply elem_of_cons in Hin as [Hin|Hin]; [done |]).
  by apply elem_of_nil in Hin.
Qed.

Lemma reachable_scenarioA_1_3 : reachable (getNeighbors scenarioA) 1 3.
Proof.
  exists 2.
  apply (walk_edge _ _ 2%Z 3%Z 1);
    [apply (walk_edge _ _ 1%Z 2%Z 0); [apply walk_here |] |];
    vm_compute; set_solver.
Qed.

Lemma distance_is_path_length_scenarioA :
  ¬ mentions scenarioA (-1)%Z ∧
  reachable (getNeighbors scenarioA) 1 3 ∧
  ∃ d p, shortestDistance scenarioA 1 3 = Returns d ∧
         shortestPath scenarioA 1 3 = Returns p ∧
         d = (Z.of_nat (length p) - 1)%Z.
Proof.
  split; [apply not_mentions_scenarioA |].
  split; [apply reachable_scenarioA_1_3 |].
  apply (distance_is_path_length scenarioA 1 3);
    [apply not_mentions_scenarioA | apply reachable_scenarioA_1_3].
Defined.

(** ** C5 *)

(** C5 fails on a directed graph: with the single edge 1 -> 2, vertex 1 is
    the only key, [traverse] from it lists two vertices, so [isConnected]
    answers false although [findConnectedComponents] returns exactly one
    component. *)
Theorem C5_one_component_not_connected :
  getAllVertices one_arrow = [1%Z] ∧
  isConnected one_arrow = Returns false ∧
  findConnectedComponents one_arrow = Returns [[1; 2]%Z].
Proof. by vm_compute. Qed.

(** ** C6 *)

(** C6: from a vertex [s] of the graph, [traverse] returns a list without
    repetition whose members are exactly the vertices reachable from [s];
    with [e] the eccentricity of [s], a vertex is in that list if and only
    if it is in the result of [verticesAtDistance] for some distance
    between 0 and [e]. *)
Theorem C6_traverse_is_union_of_levels g s :
  hasVertex g s = true →
  ∃ r e,
    traverse g s = Returns r ∧
    NoDup r ∧
    (∀ v, v ∈ r ↔ reachable (getNeighbors g) s v) ∧
    eccentricity (getNeighbors g) s e ∧
    ∀ v, v ∈ r ↔
         ∃ d level, (0 ≤ d ≤ Z.of_nat e)%Z ∧
                    verticesAtDistance g s d = Returns level ∧ v ∈ level.
Proof.
  intros Hs.
  destruct (traverse_levels g s Hs) as (out & Hrun & Hnd & Hsorted & Hdist & Hreach).
  assert (∃ ve e, (ve, e) ∈ out ∧ ∀ x, x ∈ out → x.2 ≤ e) as (ve & e & He & Hmax).
  { destruct out as [|x out _] using rev_ind.
    - exfalso. eapply elem_of_nil, (Hdist s 0), dist_zero. done.
    - destruct x as [ve e]. exists ve, e. split; [set_solver |].
      intros y [Hy|Hy%list_elem_of_singleton]%elem_of_app; [|by subst].
      rewrite fmap_app in Hsorted.
      apply (StronglySorted_app_1_elem_of _ _ _ y.2 e) in Hsorted;
        [done | by apply list_elem_of_fmap_2 | by left]. }
  exists out.*1, e. split_and!; [done.. | |].
  - split; [exists ve; by apply Hdist |].
    intros v n Hn%Hdist. by apply Hmax in Hn.
  - intros v. split.
    + intros ([v' d] & -> & Hin)%list_elem_of_fmap. simpl.
      destruct (verticesAtDistance_spec g s (Z.of_nat d) Hs)
        as (level & Hlevel & _ & Hset); [lia |].
      exists (Z.of_nat d), level. split_and!; [lia | | done |].
      * apply Hmax in Hin. simpl in Hin. lia.
      * apply Hset. rewrite Nat2Z.id. by apply Hdist.
    + intros (d & level & [Hd0 _] & Hlevel & Hv).
      destruct (verticesAtDistance_spec g s d Hs Hd0)
        as (level' & Hlevel' & _ & Hset).
      rewrite Hlevel in Hlevel'. simplify_eq.
      apply Hset, Hdist in Hv. by apply (list_elem_of_fmap_2 fst) in Hv.
Qed.

Lemma C6_traverse_is_union_of_levels_witness :
  hasVertex scenarioA 1 = true ∧
  ∃ r e,
    traverse scenarioA 1 = Returns r ∧
    NoDup r ∧
    (∀ v, v ∈ r ↔ reachable (getNeighbors scenarioA) 1 v) ∧
    eccentricity (getNeighbors scenarioA) 1 e ∧
    ∀ v, v ∈ r ↔
         ∃ d level, (0 ≤ d ≤ Z.of_nat e)%Z ∧
                    verticesAtDistance scenarioA 1 d = Returns level ∧
                    v ∈ level.
Proof.
  split; [reflexivity |].
  apply (C6_traverse_is_union_of_levels scenarioA 1). reflexivity.
Defined.

(** ** C7 *)

(** C7 fails for [gridBFS] on a grid with a row shorter than the first:
    the column bound is the length of row 0 alone, so on [[0,0],[0]] the
    coordinates (1,1) pass the bounds check although row 1 has no column 1,
    and the grid is then read out of range.  This happens in the entry
    check when (1,1) is the target, and in the neighbor test when both the
    start (1,0) and the target (0,1) are cells of the grid holding 0; in
    neither case is a path or the empty sequence returned. *)
Theorem C7_gridBFS_short_row_out_of_range :
  in_bounds (Z.of_nat (length short_row))
            (Z.of_nat (length (default [] (head short_row)))) 1 1 = true ∧
  at2 short_row 1 1 = Undefined ∧
  gridBFS short_row 0 0 1 1 = Undefined ∧
  at2 short_row 1 0 = Returns 0%Z ∧
  at2 short_row 0 1 = Returns 0%Z ∧
  gridBFS short_row 1 0 0 1 = Undefined ∧
  ¬ (∃ p, gridBFS short_row 0 0 1 1 = Returns p) ∧
  ¬ (∃ p, gridBFS short_row 1 0 0 1 = Returns p).
Proof.
  split_and!; try by vm_compute.
  - intros [p Hp]. vm_compute in Hp. discriminate.
  - intros [p Hp]. vm_compute in Hp. discriminate.
Qed.

(** The graph queries return a value on every input, whatever order the
    vertices are enumerated in, and so does [gridBFS] on every rectangular
    grid; an absent start vertex, an unreachable target, a negative
    distance and start or target cells out of range or blocked are answered
    by the empty sequence or [-1].  In particular, when the start vertex is
    absent, [traverse] returns the empty sequence and [shortestDistance]
    returns [-1]. *)
Lemma queries_total g start target distance vertices
    grid startRow startCol targetRow targetCol :
  vertices ≡ₚ getAllVertices g →
  rectangular grid →
  (∃ r, traverse g start = Returns r) ∧
  (∃ r, shortestPath g start target = Returns r) ∧
  (∃ r, shortestDistance g start target = Returns r) ∧
  (∃ r, verticesAtDistance g start distance = Returns r) ∧
  (∃ b, isConnected_over vertices g = Returns b) ∧
  (∃ cs, findConnectedComponents_over vertices g = Returns cs) ∧
  (∃ p, gridBFS grid startRow startCol targetRow targetCol = Returns p) ∧
  (hasVertex g start = false →
     traverse g start = Returns [] ∧
     shortestPath g start target = Returns [] ∧
     shortestDistance g start target = Returns (-1)%Z ∧
     verticesAtDistance g start distance = Returns []) ∧
  (hasVertex g target = false ∨
   ¬ reachable (getNeighbors g) start target →
     shortestPath g start target = Returns [] ∧
     shortestDistance g start target = Returns (-1)%Z) ∧
  ((distance < 0)%Z → verticesAtDistance g start distance = Returns []) ∧
  (¬ inside (length grid) (length (default [] (head grid)))
       (startRow, startCol) ∨
   ¬ inside (length grid) (length (default [] (head grid)))
       (targetRow, targetCol) ∨
   at2 grid startRow startCol = Returns 1%Z ∨
   at2 grid targetRow targetCol = Returns 1%Z →
     gridBFS grid startRow startCol targetRow targetCol = Returns []).
Proof.
  intros Hperm Hrect. split_and!.
  - apply traverse_total.
  - destruct (shortestPath_total g start target) as (r & ? & _). by exists r.
  - destruct (shortestDistance_total g start target) as (r & ? & _).
    by exists r.
  - apply verticesAtDistance_total.
  - apply isConnected_over_total.
  - by apply findConnectedComponents_over_total.
  - destruct (gridBFS_spec grid startRow startCol targetRow targetCol Hrect)
      as (p & ? & _). by exists p.
  - intros Hs. split_and!.
    + by apply traverse_absent.
    + apply shortestPath_absent. by left.
    + apply shortestDistance_absent. by left.
    + apply verticesAtDistance_sentinel. by left.
  - intros [Ht|Hunreach].
    + split; [apply shortestPath_absent | apply shortestDistance_absent];
        by right.
    + destruct (shortestPath_total g start target) as (p & -> & Hp).
      destruct (shortestDistance_total g start target) as (d & -> & Hd).
      by rewrite Hp, Hd.
  - intros Hd. apply verticesAtDistance_sentinel. by right.
  - intros [Hout|[Hout|Hblocked]].
    + apply gridBFS_out_of_range. by left.
    + apply gridBFS_out_of_range. by right.
    + by apply gridBFS_blocked.
Qed.

Lemma rectangular_scenarioB : rectangular scenarioB.
Proof.
  intros row Hrow. unfold scenarioB in Hrow.
  repeat (apply elem_of_cons in Hrow as [->|Hrow]; [done |]).
  by apply elem_of_nil in Hrow.
Qed.

Lemma queries_total_scenarios :
  getAllVertices scenarioA ≡ₚ getAllVertices scenarioA ∧
  rectangular scenarioB ∧
  (∃ r, traverse scenarioA 7 = Returns r) ∧
  (∃ r, shortestDistance scenarioA 7 3 = Returns r) ∧
  (∃ p, gridBFS scenarioB 0 0 5 5 = Returns p).
Proof.
  split; [reflexivity |]. split; [apply rectangular_scenarioB |].
  destruct (queries_total scenarioA 7 3 (-1) (getAllVertices scenarioA)
              scenarioB 0 0 5 5 (reflexivity _) rectangular_scenarioB)
    as (Ht & _ & Hd & _ & _ & _ & Hg & _).
  exact (conj Ht (conj Hd Hg)).
Defined.

(** ** C8 *)

(** C8: the sequence that [traverse] returns lists no vertex twice, and
    when [u] comes before [v] in it, the graph distance from the start to
    [u] is at most the graph distance from the start to [v]. *)
Theorem C8_discovery_order_by_distance g s :
  ∃ r, traverse g s = Returns r ∧
       NoDup r ∧
       ∀ i j u v,
         i < j → r !! i = Some u → r !! j = Some v →
         ∃ du dv, dist (getNeighbors g) s u du ∧
                  dist (getNeighbors g) s v dv ∧ du ≤ dv.
Proof.
  destruct (hasVertex g s) eqn:Hs.
  - destruct (traverse_levels g s Hs)
      as (out & Hrun & Hnd & Hsorted & Hdist & _).
    exists out.*1. split_and!; [done.. |].
    intros i j u v Hij Hi Hj.
    apply list_lookup_fmap_Some in Hi as ([u' du] & -> & Hi).
    apply list_lookup_fmap_Some in Hj as ([v' dv] & -> & Hj).
    exists du, dv. split_and!.
    + apply Hdist. by eapply list_elem_of_lookup_2.
    + apply Hdist. by eapply list_elem_of_lookup_2.
    + apply (sorted_lookup_le out.*2 i j); [done | lia | |].
      * by rewrite list_lookup_fmap, Hi.
      * by rewrite list_lookup_fmap, Hj.
  - exists []. split_and!; [by apply traverse_absent | constructor | done].
Qed.

Lemma C8_discovery_order_by_distance_witness :
  ∃ r, traverse scenarioA 1 = Returns r ∧
       NoDup r ∧
       ∀ i j u v,
         i < j → r !! i = Some u → r !! j = Some v →
         ∃ du dv, dist (getNeighbors scenarioA) 1 u du ∧
                  dist (getNeighbors scenarioA) 1 v dv ∧ du ≤ dv.
Proof. apply (C8_discovery_order_by_distance scenarioA 1). Defined.

(** ** C9 *)

(** C9 fails when the start cell holds a value other than 0 and 1: the
    entry check rejects only the value 1, so the returned path begins on a
    cell that the neighbor test would not enter. *)
Theorem C9_start_cell_not_passable :
  gridBFS marked_start 0 0 0 1 = Returns [(0, 0); (0, 1)]%Z ∧
  at2 marked_start 0 0 = Returns 2%Z.
Proof. by vm_compute. Qed.

(** ** C10 *)

(** C10: on every graph built undirected, [shortestDistance] returns the
    same value in both directions. *)
Theorem C10_shortestDistance_symmetric g u v :
  built false g →
  ∃ d, shortestDistance g u v = Returns d ∧
       shortestDistance g v u = Returns d.
Proof.
  intros Hb.
  assert (∀ a b, b ∈ getNeighbors g a → a ∈ getNeighbors g b) as Hsym
    by (intros; by apply built_undirected_symmetric).
  destruct (hasVertex g u) eqn:Hu; [destruct (hasVertex g v) eqn:Hv|].
  - destruct (shortestDistance_spec g u v Hu Hv) as (d & Hd & Hspec).
    destruct (shortestDistance_spec g v u Hv Hu) as (d' & Hd' & Hspec').
    exists d. split; [done |]. rewrite Hd'. f_equal.
    destruct Hspec as [(n & Hn & ->)|[Hno ->]];
      destruct Hspec' as [(m & Hm & ->)|[Hno' ->]].
    + apply dist_sym in Hm; [|done].
      by rewrite (dist_unique _ _ _ _ _ Hn Hm).
    + destruct Hno'. eapply reachable_sym, dist_reachable; done.
    + destruct Hno. eapply reachable_sym, dist_reachable; done.
    + done.
  - exists (-1)%Z. split; apply shortestDistance_absent; auto.
  - exists (-1)%Z. split; apply shortestDistance_absent; auto.
Qed.

Lemma C10_shortestDistance_symmetric_witness :
  built false scenarioA ∧
  ∃ d, shortestDistance scenarioA 1 3 = Returns d ∧
       shortestDistance scenarioA 3 1 = Returns d.
Proof.
  split; [apply built_scenarioA |].
  apply (C10_shortestDistance_symmetric scenarioA 1 3), built_scenarioA.
Defined.

(** * Further properties of the graph container *)

Lemma hasVertex_is_Some g v :
  hasVertex g v = bool_decide (is_Some (adjList g !! v)).
Proof. done. Qed.

(** X1: [addVertex] makes the vertex present and changes nothing else: all
    neighbor lists stay as they were (also that of a vertex that was
    already there), no other vertex appears or disappears, the count grows
    by one exactly when the vertex was absent, and a second call is a
    no-op. *)
Theorem X1_addVertex_only_adds_the_vertex g v :
  hasVertex (addVertex g v) v = true ∧
  (∀ k, getNeighbors (addVertex g v) k = getNeighbors g k) ∧
  (∀ k, k ≠ v → hasVertex (addVertex g v) k = hasVertex g k) ∧
  getVertexCount (addVertex g v)
  = (if hasVertex g v then getVertexCount g else S (getVertexCount g)) ∧
  addVertex (addVertex g v) v = addVertex g v ∧
  isDirected (addVertex g v) = isDirected g.
Proof.
  split_and!.
  - apply hasVertex_true. unfold addVertex.
    destruct (adjList g !! v) eqn:Hv; simpl; [by rewrite Hv |].
    by rewrite lookup_insert_eq.
  - apply getNeighbors_addVertex.
  - intros k Hk. rewrite !hasVertex_is_Some. unfold addVertex.
    destruct (adjList g !! v); simpl; [done |].
    by rewrite lookup_insert_ne.
  - destruct (hasVertex g v) eqn:E.
    + apply hasVertex_true in E as [l Hl]. unfold addVertex. by rewrite Hl.
    + apply hasVertex_false in E. unfold addVertex, getVertexCount.
      rewrite E. simpl. by apply map_size_insert_None.
  - unfold addVertex at 1.
    assert (hasVertex (addVertex g v) v = true) as [l ->]%hasVertex_true;
      [|done].
    apply hasVertex_true. unfold addVertex.
    destruct (adjList g !! v) eqn:Hv; simpl; [by rewrite Hv |].
    by rewrite lookup_insert_eq.
  - apply isDirected_addVertex.
Qed.

(** X2: [addEdge(from, to)] appends [to] to the neighbor list of [from]
    and, on an undirected graph, then appends [from] to the list of [to];
    every other list is unchanged.  Nothing is deduplicated, and an
    undirected self-loop stores the vertex twice. *)
Theorem X2_addEdge_appends g from to :
  (∀ k, getNeighbors (addEdge g from to) k
        = getNeighbors g k
          ++ (if decide (k = from) then [to] else [])
          ++ (if isDirected g then []
              else if decide (k = to) then [from] else [])) ∧
  (isDirected g = false →
   getNeighbors (addEdge g from from) from
   = getNeighbors g from ++ [from; from]) ∧
  isDirected (addEdge g from to) = isDirected g.
Proof.
  split_and!; [| |done].
  - intros k. destruct (isDirected g) eqn:Hd.
    + rewrite getNeighbors_addEdge_directed by done. by rewrite app_nil_r.
    + by apply getNeighbors_addEdge_undirected.
  - intros Hd. rewrite getNeighbors_addEdge_undirected by done.
    by rewrite !decide_True by done.
Qed.

(** X3: after [addEdge(from, to)] the vertices are those that were there
    before, [from], and on an undirected graph also [to]: on a directed
    graph the target becomes a vertex only if it already was one, and no
    vertex is ever removed. *)
Theorem X3_addEdge_vertex_set g from to k :
  hasVertex (addEdge g from to) k = true ↔
  hasVertex g k = true ∨ k = from ∨ (isDirected g = false ∧ k = to).
Proof.
  rewrite !hasVertex_true. unfold addEdge.
  destruct (isDirected g); simpl; rewrite ?push_back_at_is_Some; naive_solver.
Qed.

(** X4: [getAllVertices] lists every vertex exactly once, lists nothing
    else, and has [getVertexCount] entries. *)
Theorem X4_getAllVertices_enumerates g :
  NoDup (getAllVertices g) ∧
  (∀ v, v ∈ getAllVertices g ↔ hasVertex g v = true) ∧
  length (getAllVertices g) = getVertexCount g.
Proof.
  split_and!;
    [apply NoDup_getAllVertices | apply elem_of_getAllVertices
     | apply length_getAllVertices].
Qed.

Lemma length_filter_app_eq (x : Z) (l1 l2 : list Z) :
  length (filter (λ y, y = x) (l1 ++ l2))
  = length (filter (λ y, y = x) l1) + length (filter (λ y, y = x) l2).
Proof. by rewrite filter_app, length_app. Qed.

(** X5: in a graph built undirected the adjacency is symmetric with
    multiplicity: [v] is stored as a neighbor of [u] as many times as [u]
    is stored as a neighbor of [v]; and every stored neighbor is a
    vertex. *)
Theorem X5_undirected_adjacency_symmetric g u v :
  built false g →
  length (filter (λ y, y = v) (getNeighbors g u))
  = length (filter (λ y, y = u) (getNeighbors g v)) ∧
  (v ∈ getNeighbors g u → hasVertex g v = true).
Proof.
  intros Hb. split; [|by apply built_undirected_closed].
  revert u v. induction Hb as [|g x Hb IH|g a b Hb IH]; intros u v.
  - unfold getNeighbors, newGraph. simpl. by rewrite !lookup_empty.
  - rewrite !getNeighbors_addVertex. apply IH.
  - rewrite !getNeighbors_addEdge_undirected by by apply built_isDirected.
    rewrite !length_filter_app_eq, IH.
    destruct (decide (u = v)) as [->|Hne]; [done |].
    repeat case_decide; simplify_eq; simpl;
      rewrite ?filter_cons, ?filter_nil; repeat case_decide;
      simplify_eq; simpl; lia.
Qed.

Lemma X5_undirected_adjacency_symmetric_witness :
  built false scenarioA ∧
  length (filter (λ y, y = 2%Z) (getNeighbors scenarioA 1))
  = length (filter (λ y, y = 1%Z) (getNeighbors scenarioA 2)) ∧
  (2%Z ∈ getNeighbors scenarioA 1 → hasVertex scenarioA 2 = true).
Proof.
  split; [apply built_scenarioA |].
  apply (X5_undirected_adjacency_symmetric scenarioA 1 2), built_scenarioA.
Defined.

(** * Further properties of the graph queries *)

(** X6: between two vertices of the graph [shortestDistance] returns the
    graph distance, the length of a shortest walk along stored neighbor
    entries; it returns [-1] exactly when there is no walk. *)
Theorem X6_shortestDistance_is_graph_distance g s t :
  hasVertex g s = true → hasVertex g t = true →
  ∃ r, shortestDistance g s t = Returns r ∧
       ((∃ n, dist (getNeighbors g) s t n ∧ r = Z.of_nat n) ∨
        (¬ reachable (getNeighbors g) s t ∧ r = (-1)%Z)).
Proof. apply shortestDistance_spec. Qed.

Lemma X6_shortestDistance_is_graph_distance_witness :
  hasVertex scenarioA 1 = true ∧ hasVertex scenarioA 3 = true ∧
  ∃ r, shortestDistance scenarioA 1 3 = Returns r ∧
       ((∃ n, dist (getNeighbors scenarioA) 1 3 n ∧ r = Z.of_nat n) ∨
        (¬ reachable (getNeighbors scenarioA) 1 3 ∧ r = (-1)%Z)).
Proof.
  split; [reflexivity |]. split; [reflexivity |].
  apply (X6_shortestDistance_is_graph_distance scenarioA 1 3); reflexivity.
Defined.

(** X7: from a vertex of the graph and for a distance [d >= 0],
    [verticesAtDistance] returns exactly the vertices at graph distance
    [d], each once. *)
Theorem X7_verticesAtDistance_is_level_set g s d :
  hasVertex g s = true → (0 ≤ d)%Z →
  ∃ r, verticesAtDistance g s d = Returns r ∧
       NoDup r ∧ ∀ v, v ∈ r ↔ dist (getNeighbors g) s v (Z.to_nat d).
Proof. apply verticesAtDistance_spec. Qed.

Lemma X7_verticesAtDistance_is_level_set_witness :
  hasVertex scenarioA 1 = true ∧ (0 ≤ 2)%Z ∧
  ∃ r, verticesAtDistance scenarioA 1 2 = Returns r ∧
       NoDup r ∧ ∀ v, v ∈ r ↔ dist (getNeighbors scenarioA) 1 v (Z.to_nat 2).
Proof.
  split; [reflexivity |]. split; [lia |].
  apply (X7_verticesAtDistance_is_level_set scenarioA 1 2); [reflexivity | lia].
Defined.

(** The annotated loop only appends: what is dequeued or queued stays, in
    this order, a prefix of the final output, and what comes after is
    deeper than the shallowest queued level. *)
Lemma bfs_run_extends D fuel nbrs out q seen out' seen' :
  bfs_run fuel nbrs out q seen = Returns (out', seen') →
  (∀ x, x ∈ q → D ≤ x.2) →
  ∃ rest, out' = out ++ q ++ rest ∧ ∀ x, x ∈ rest → D < x.2.
Proof.
  revert out q seen. induction fuel as [|fuel IH]; intros out q seen; [done |].
  destruct q as [|[u d] q]; simpl.
  - intros [= <- <-] _. exists []. split; [by rewrite app_nil_r |].
    by intros x ?%elem_of_nil.
  - intros Hrun Hq.
    assert (D ≤ d) by (apply (Hq (u, d)); left).
    apply IH in Hrun as (rest & -> & Hrest).
    + exists (labelled (S d) (fresh seen (nbrs u)) ++ rest).
      split; [by rewrite <-!app_assoc |].
      intros x [Hx|Hx]%elem_of_app; [|by apply Hrest].
      apply elem_of_labelled in Hx as [-> _]. lia.
    + intros x [Hx|Hx]%elem_of_app; [apply Hq; by right |].
      apply elem_of_labelled in Hx as [-> _]. lia.
Qed.

Lemma filter_level_all D (l : list (Z * nat)) :
  (∀ x, x ∈ l → x.2 = D) → filter (λ x, x.2 = D) l = l.
Proof.
  induction l as [|x l IH]; intros Hl; [done |].
  rewrite filter_cons_True by (apply Hl; left).
  f_equal. apply IH. intros y Hy. apply Hl. by right.
Qed.

Lemma filter_level_none D (l : list (Z * nat)) :
  (∀ x, x ∈ l → x.2 ≠ D) → filter (λ x, x.2 = D) l = [].
Proof.
  induction l as [|x l IH]; intros Hl; [done |].
  rewrite filter_cons_False by (apply Hl; left).
  apply IH. intros y Hy. apply Hl. by right.
Qed.

(** The loop of [verticesAtDistance] returns the level-[D] part of what
    the full traversal from the same state dequeues, in the same order. *)
Lemma verticesAtDistance_loop_filter g s D fuel fuel' out q seen out' seen' :
  bfs_inv (getNeighbors g) (universe g) s out q seen →
  (∀ x, x ∈ out → x.2 < D) → (∀ x, x ∈ q → x.2 ≤ D) →
  length (universe g) < fuel + length out →
  bfs_run fuel' (getNeighbors g) out q seen = Returns (out', seen') →
  verticesAtDistance_loop fuel g (Z.of_nat D) (zqueue q) seen []
  = Returns (filter (λ x, x.2 = D) out').*1.
Proof.
  revert fuel' out q seen.
  induction fuel as [|fuel IH]; intros fuel' out q seen HI Hout Hq Hfuel Hrun.
  - apply inv_length in HI. lia.
  - destruct fuel' as [|fuel']; [done |].
    destruct q as [|[u d] q].
    + simpl in Hrun. simplify_eq. simpl.
      rewrite filter_level_none; [done |].
      intros x Hx%Hout. lia.
    + destruct (decide (d = D)) as [->|Hd].
      * assert (∀ x, x ∈ (u, D) :: q → x.2 = D) as Hlevel.
        { intros x Hx. pose proof (Hq _ Hx).
          eapply inv_queue_ge in Hx; [|done]. lia. }
        rewrite verticesAtDistance_loop_drain; [|done |].
        2:{ apply inv_length in HI. simpl in *. lia. }
        apply (bfs_run_extends D) in Hrun as (rest & -> & Hrest).
        2:{ intros x Hx. rewrite (Hlevel _ Hx). lia. }
        rewrite !filter_app, (filter_level_all D ((u, D) :: q)) by done.
        rewrite !filter_level_none, app_nil_r; [done | |].
        -- intros x Hx%Hrest. lia.
        -- intros x Hx%Hout. lia.
      * assert (d ≤ D) by (apply (Hq (u, d)); left).
        rewrite zqueue_cons. cbn [verticesAtDistance_loop].
        rewrite decide_False by lia. rewrite decide_True by lia.
        rewrite foldl_visit_level.
        replace (Z.of_nat d + 1)%Z with (Z.of_nat (S d)) by lia.
        rewrite <-zqueue_labelled, <-zqueue_app.
        apply (IH fuel' (out ++ [(u, d)])).
        -- apply inv_step; [apply universe_closed | done].
        -- intros x [Hx|Hx%list_elem_of_singleton]%elem_of_app; [auto |].
           subst. simpl. lia.
        -- intros x [Hx|Hx%elem_of_labelled]%elem_of_app.
           ++ apply Hq. by right.
           ++ destruct Hx as [-> _]. lia.
        -- rewrite length_app. simpl. lia.
        -- done.
Qed.

(** The result of [traverse] with its levels, against [verticesAtDistance]
    and the first expansion. *)
Lemma traverse_levels_in_order g s :
  hasVertex g s = true →
  ∃ out rest,
    traverse g s = Returns out.*1 ∧
    (∀ v d, (v, d) ∈ out ↔ dist (getNeighbors g) s v d) ∧
    out = (s, 0) :: labelled 1 (fresh {[s]} (getNeighbors g s)) ++ rest ∧
    (∀ x, x ∈ rest → 1 < x.2) ∧
    ∀ d, (0 ≤ d)%Z →
         verticesAtDistance g s d
         = Returns (filter (λ x, x.2 = Z.to_nat d) out).*1.
Proof.
  intros Hs. destruct (bfs_run_start g s Hs) as (out & seen & Hrun & HI).
  assert (bfs_inv (getNeighbors g) (universe g) s [] [(s, 0)] {[s]}) as HI0
    by (apply inv_init; [apply universe_closed | by apply universe_start]).
  pose proof Hrun as Hrun1. unfold loop_bound in Hrun1. simpl in Hrun1.
  apply (bfs_run_extends 1) in Hrun1 as (rest & Hout & Hrest).
  2:{ intros x Hx%elem_of_labelled. destruct Hx as [-> _]. done. }
  simpl in Hout. exists out, rest. split_and!; [| |done |done |].
  - unfold traverse. rewrite Hs. simpl.
    etrans; [exact (traverse_loop_run g (loop_bound g) [] [(s, 0)] {[s]}) |].
    by rewrite Hrun.
  - intros v d. by eapply inv_final_dist.
  - intros d Hd. unfold verticesAtDistance. rewrite Hs. simpl.
    rewrite bool_decide_eq_false_2 by lia. case_decide as Hd0.
    + subst d. rewrite Hout. change (Z.to_nat 0) with 0.
      rewrite filter_cons_True by done. rewrite filter_app.
      rewrite !filter_level_none; [done | |].
      * intros x Hx%Hrest. simpl. lia.
      * intros x Hx%elem_of_labelled. destruct Hx as [-> _]. done.
    + set (D := Z.to_nat d).
      assert (d = Z.of_nat D) as Hd' by lia.
      assert (0 < D) as HD by lia. clearbody D. subst d.
      apply (verticesAtDistance_loop_filter g s D (loop_bound g)
               (loop_bound g) [] [(s, 0)] {[s]} out seen); [done | | | |done].
      * by intros x ?%elem_of_nil.
      * intros x ->%list_elem_of_singleton. simpl. lia.
      * unfold loop_bound. simpl. lia.
Qed.

(** X8: [verticesAtDistance(s, d)] is [traverse(s)] restricted to the
    vertices at distance [d], in the same order: with every entry of the
    traversal annotated by its graph distance, each level query returns
    the entries of its level as the traversal lists them. *)
Theorem X8_levels_are_slices_of_traverse g s :
  hasVertex g s = true →
  ∃ out,
    traverse g s = Returns out.*1 ∧
    (∀ v d, (v, d) ∈ out ↔ dist (getNeighbors g) s v d) ∧
    ∀ d, (0 ≤ d)%Z →
         verticesAtDistance g s d
         = Returns (filter (λ x, x.2 = Z.to_nat d) out).*1.
Proof.
  intros Hs.
  destruct (traverse_levels_in_order g s Hs) as (out & rest & ? & ? & _ & _ & ?).
  by exists out.
Qed.

Lemma X8_levels_are_slices_of_traverse_witness :
  hasVertex scenarioA 1 = true ∧
  ∃ out,
    traverse scenarioA 1 = Returns out.*1 ∧
    (∀ v d, (v, d) ∈ out ↔ dist (getNeighbors scenarioA) 1 v d) ∧
    ∀ d, (0 ≤ d)%Z →
         verticesAtDistance scenarioA 1 d
         = Returns (filter (λ x, x.2 = Z.to_nat d) out).*1.
Proof.
  split; [reflexivity |].
  apply (X8_levels_are_slices_of_traverse scenarioA 1). reflexivity.
Defined.

(** X9: ties follow insertion order.  [traverse] lists the start first and
    then its neighbors in the order in which the edges were added, without
    the start itself and without repetitions, before any deeper vertex;
    [verticesAtDistance(s, 1)] returns exactly this list of neighbors. *)
Theorem X9_neighbors_in_insertion_order g s :
  hasVertex g s = true →
  ∃ rest,
    traverse g s
    = Returns (s :: fresh {[s]} (getNeighbors g s) ++ rest) ∧
    (∀ v, v ∈ rest → ∃ n, dist (getNeighbors g) s v n ∧ 1 < n) ∧
    verticesAtDistance g s 1 = Returns (fresh {[s]} (getNeighbors g s)).
Proof.
  intros Hs.
  destruct (traverse_levels_in_order g s Hs)
    as (out & rest & Hrun & Hdist & -> & Hrest & Hlevels).
  exists rest.*1. split_and!.
  - rewrite Hrun. simpl. by rewrite fmap_app, labelled_fst.
  - intros v ([v' n] & -> & Hin)%list_elem_of_fmap. exists n. split.
    + apply Hdist. right. apply elem_of_app. by right.
    + by apply Hrest in Hin.
  - rewrite Hlevels by lia. change (Z.to_nat 1) with 1.
    rewrite filter_cons_False by (simpl; lia). rewrite filter_app.
    rewrite filter_level_all, filter_level_none, app_nil_r,
      labelled_fst; [done | |].
    + intros x Hx%Hrest. lia.
    + intros x Hx%elem_of_labelled. by destruct Hx.
Qed.

Lemma X9_neighbors_in_insertion_order_witness :
  hasVertex scenarioA 1 = true ∧
  ∃ rest,
    traverse scenarioA 1
    = Returns (1%Z :: fresh {[1%Z]} (getNeighbors scenarioA 1) ++ rest) ∧
    (∀ v, v ∈ rest → ∃ n, dist (getNeighbors scenarioA) 1 v n ∧ 1 < n) ∧
    verticesAtDistance scenarioA 1 1
    = Returns (fresh {[1%Z]} (getNeighbors scenarioA 1)).
Proof.
  split; [reflexivity |].
  apply (X9_neighbors_in_insertion_order scenarioA 1). reflexivity.
Defined.

(** ** The path of shortestPath *)

Lemma path_from_valid nbrs s v l :
  path_from nbrs s v l →
  head l = Some s ∧ last l = Some v ∧
  (∀ i a b, l !! i = Some a → l !! S i = Some b → b ∈ nbrs a) ∧
  ∃ n, length l = S n ∧ walk nbrs s v n.
Proof.
  induction 1 as [|u v l Hpath IH Hedge].
  - split_and!; [done | done | |].
    + intros i a b _ Hb. by destruct i.
    + exists 0. split; [done | apply walk_here].
  - destruct IH as (Hhead & Hlast & Hsteps & n & Hlen & Hwalk).
    destruct l as [|x l]; [done |]. simpl in Hhead. simplify_eq.
    split_and!.
    + done.
    + apply last_snoc.
    + intros i a b Ha Hb.
      apply lookup_snoc_Some in Hb as [[Hlt Hb]|[Hi <-]].
      * rewrite lookup_app_l in Ha by lia. by eapply Hsteps.
      * rewrite lookup_app_l in Ha by lia.
        rewrite last_lookup, <-Hi in Hlast. simpl in Hlast.
        rewrite Hlast in Ha. by simplify_eq.
    + exists (S n). split; [rewrite length_app; simpl in *; lia |].
      by eapply walk_edge.
Qed.

Section shortestPath_path.
Context (g : Graph) (s t : Z).
Hypothesis no_sentinel_id : ¬ mentions g (-1)%Z.

Local Abbreviation nbrs := (getNeighbors g).
Local Abbreviation Inv := (bfs_inv (getNeighbors g) (universe g) s).

Lemma parent_edges_init : parent_edges nbrs {[s := (-1)%Z]} [(s, 0)].
Proof. intros v d Hin%list_elem_of_singleton. simplify_eq. Qed.

Lemma parent_edges_step out u d q seen parent :
  Inv out ((u, d) :: q) seen →
  parent_edges nbrs parent (out ++ (u, d) :: q) →
  parent_edges nbrs (set_parents u parent (fresh seen (nbrs u)))
    ((out ++ [(u, d)]) ++ q ++ labelled (S d) (fresh seen (nbrs u))).
Proof.
  intros HI HP v l Hin.
  replace ((out ++ [(u, d)]) ++ q ++ labelled (S d) (fresh seen (nbrs u)))
    with ((out ++ (u, d) :: q) ++ labelled (S d) (fresh seen (nbrs u)))
    in * by (by rewrite <-!app_assoc).
  rewrite lookup_set_parents.
  apply elem_of_app in Hin as [Hold|Hnew].
  - rewrite decide_False; [by apply (HP v l) |].
    rewrite elem_of_fresh. intros [_ Hns]. apply Hns.
    by eapply inv_label_seen.
  - apply elem_of_labelled in Hnew. destruct Hnew as [_ Hv]. simpl in Hv.
    rewrite decide_True by done. exists u. split; [done |].
    by apply elem_of_fresh in Hv as [? _].
Qed.

Lemma reconstruct_path out q seen parent d v path fuel r :
  Inv out q seen → parent_inv parent (out ++ q) →
  parent_edges nbrs parent (out ++ q) → (v, d) ∈ out ++ q →
  reconstruct fuel parent v path = Returns r →
  ∃ chain, r = chain ++ reverse path ∧ path_from nbrs s v chain.
Proof.
  intros HI HP HE. revert v path fuel r.
  induction d as [|d IH]; intros v path fuel r Hv Hrun.
  - assert (v ≠ (-1)%Z) as Hv1.
    { intros ->. apply no_sentinel_id, mentions_universe.
      eapply inv_univ; [done |]. by eapply inv_label_seen. }
    destruct fuel as [|fuel]; [done |]. cbn [reconstruct] in Hrun.
    rewrite decide_False in Hrun by done.
    rewrite (HP _ _ Hv) in Hrun. simpl in Hrun.
    destruct fuel as [|fuel]; [done |]. cbn [reconstruct] in Hrun.
    rewrite decide_True in Hrun by done. simplify_eq.
    assert (v = s) as -> by (by eapply dist_zero, inv_dist).
    exists [s]. split; [by rewrite reverse_snoc | constructor].
  - assert (v ≠ (-1)%Z) as Hv1.
    { intros ->. apply no_sentinel_id, mentions_universe.
      eapply inv_univ; [done |]. by eapply inv_label_seen. }
    destruct fuel as [|fuel]; [done |]. cbn [reconstruct] in Hrun.
    rewrite decide_False in Hrun by done.
    destruct (HP _ _ Hv) as (p & Hp & Hpd).
    destruct (HE _ _ Hv) as (p' & Hp' & Hedge).
    rewrite Hp in Hp'. simplify_eq.
    rewrite Hp in Hrun. simpl in Hrun.
    destruct (IH _ _ _ _ Hpd Hrun) as (chain & -> & Hchain).
    exists (chain ++ [v]). split; [by rewrite reverse_snoc, <-app_assoc |].
    by econstructor.
Qed.

Lemma shortestPath_loop_path fuel out q seen parent r :
  Inv out q seen → parent_inv parent (out ++ q) →
  parent_edges nbrs parent (out ++ q) →
  shortestPath_loop fuel g t q.*1 seen parent = Returns r →
  r = [] ∨ path_from nbrs s t r.
Proof.
  revert out q seen parent.
  induction fuel as [|fuel IH]; intros out q seen parent HI HP HE Hrun;
    [done |].
  destruct q as [|[u d] q].
  - simpl in Hrun. simplify_eq. by left.
  - rewrite fmap_cons in Hrun. cbn [shortestPath_loop fst] in Hrun.
    assert ((u, d) ∈ out ++ (u, d) :: q) as Hu
      by (apply elem_of_app; right; left).
    case_decide as Hut.
    + subst u. right.
      destruct (reconstruct_path _ _ _ _ _ _ _ _ _ HI HP HE Hu Hrun)
        as (chain & -> & Hchain).
      by rewrite reverse_nil, app_nil_r.
    + rewrite foldl_visit_parent in Hrun.
      replace (q.*1 ++ fresh seen (nbrs u))
        with ((q ++ labelled (S d) (fresh seen (nbrs u))).*1) in Hrun
        by (by rewrite fmap_app, labelled_fst).
      eapply (IH (out ++ [(u, d)])); [| | |exact Hrun].
      * apply inv_step; [apply universe_closed | done].
      * by apply (parent_inv_step g s).
      * by apply parent_edges_step.
Qed.
End shortestPath_path.

(** The path of [shortestPath] between two vertices of a graph in which
    [-1] is not a vertex id. *)
Lemma shortestPath_shortest_walk g s t :
  ¬ mentions g (-1)%Z →
  hasVertex g s = true → hasVertex g t = true →
  ∃ p, shortestPath g s t = Returns p ∧
       ((¬ reachable (getNeighbors g) s t ∧ p = []) ∨
        (head p = Some s ∧ last p = Some t ∧
         (∀ i a b, p !! i = Some a → p !! S i = Some b →
                   b ∈ getNeighbors g a) ∧
         ∃ n, dist (getNeighbors g) s t n ∧ length p = S n)).
Proof.
  intros Hno Hs Ht.
  destruct (shortestPath_spec g s t Hs Ht)
    as (p & Hrun & [(n & Hn & Hlen)|[Hunreach ->]]); [|exists []; auto].
  exists p. split; [done |]. right. specialize (Hlen Hno).
  assert (path_from (getNeighbors g) s t p) as Hpath.
  { unfold shortestPath in Hrun. rewrite Hs, Ht in Hrun.
    cbn [negb orb] in Hrun. case_decide as Hst.
    - simplify_eq. constructor.
    - destruct (shortestPath_loop_path g s t Hno (loop_bound g)
                  [] [(s, 0)] {[s]} {[s := (-1)%Z]} p) as [->|?];
        [| | |exact Hrun |done |done].
      + apply inv_init; [apply universe_closed | by apply universe_start].
      + apply parent_inv_init.
      + apply parent_edges_init. }
  destruct (path_from_valid _ _ _ _ Hpath) as (? & ? & ? & _).
  split_and!; [done.. |]. by exists n.
Qed.

(** X10: when [-1] is not a vertex id, [shortestPath] between two vertices
    of the graph returns the empty sequence if the target cannot be
    reached, and otherwise a shortest walk: it starts at the start, ends
    at the target, every vertex on it is a stored neighbor of the one
    before it, and it has one vertex more than the graph distance. *)
Theorem X10_shortestPath_is_a_shortest_walk g s t :
  ¬ mentions g (-1)%Z →
  hasVertex g s = true → hasVertex g t = true →
  ∃ p, shortestPath g s t = Returns p ∧
       ((¬ reachable (getNeighbors g) s t ∧ p = []) ∨
        (head p = Some s ∧ last p = Some t ∧
         (∀ i a b, p !! i = Some a → p !! S i = Some b →
                   b ∈ getNeighbors g a) ∧
         ∃ n, dist (getNeighbors g) s t n ∧ length p = S n)).
Proof. apply shortestPath_shortest_walk. Qed.

Lemma X10_shortestPath_is_a_shortest_walk_witness :
  ¬ mentions scenarioA (-1)%Z ∧
  hasVertex scenarioA 1 = true ∧ hasVertex scenarioA 3 = true ∧
  ∃ p, shortestPath scenarioA 1 3 = Returns p ∧
       ((¬ reachable (getNeighbors scenarioA) 1 3 ∧ p = []) ∨
        (head p = Some 1%Z ∧ last p = Some 3%Z ∧
         (∀ i a b, p !! i = Some a → p !! S i = Some b →
                   b ∈ getNeighbors scenarioA a) ∧
         ∃ n, dist (getNeighbors scenarioA) 1 3 n ∧ length p = S n)).
Proof.
  split; [apply not_mentions_scenarioA |].
  split; [reflexivity |]. split; [reflexivity |].
  apply (X10_shortestPath_is_a_shortest_walk scenarioA 1 3);
    [apply not_mentions_scenarioA | reflexivity | reflexivity].
Defined.

(** ** isConnected *)

(** On a graph whose stored neighbors are all vertices, [isConnected]
    answers whether every vertex is reachable from the first enumerated
    one. *)
Lemma isConnected_over_first g x rest :
  (∀ u w, w ∈ getNeighbors g u → hasVertex g w = true) →
  x :: rest ≡ₚ getAllVertices g →
  ∃ b, isConnected_over (x :: rest) g = Returns b ∧
       (b = true ↔
        ∀ v, hasVertex g v = true → reachable (getNeighbors g) x v).
Proof.
  intros Hclosed Hperm.
  assert (hasVertex g x = true) as Hx.
  { apply elem_of_getAllVertices. rewrite <-Hperm. left. }
  assert (NoDup (x :: rest)) as Hnd
    by (rewrite Hperm; apply NoDup_getAllVertices).
  destruct (traverse_levels g x Hx) as (out & Hrun & Hndout & _ & _ & Hreach).
  unfold isConnected_over. rewrite Hrun, bind_Returns. cbv beta.
  eexists. split; [done |]. rewrite bool_decide_eq_true.
  assert (∀ v, v ∈ out.*1 → v ∈ x :: rest) as Hsub.
  { intros v Hv%Hreach. rewrite Hperm. apply elem_of_getAllVertices.
    by eapply reachable_hasVertex. }
  split.
  - intros Hsame v Hv. apply Hreach.
    assert (out.*1 ≡ₚ x :: rest) as ->.
    { apply submseteq_length_Permutation; [|by rewrite Hsame].
      by apply NoDup_submseteq. }
    rewrite Hperm. by apply elem_of_getAllVertices.
  - intros Hall. apply Permutation_length, NoDup_Permutation; [done.. |].
    intros v. split; [apply Hsub |]. intros Hv. apply Hreach, Hall.
    apply elem_of_getAllVertices. by rewrite <-Hperm.
Qed.

Lemma closed_scenarioA u w :
  w ∈ getNeighbors scenarioA u → hasVertex scenarioA w = true.
Proof. apply built_undirected_closed, built_scenarioA. Qed.

(** On the directed graph with the single edge 2 -> 1 and both endpoints
    as keys, [isConnected] answers true when 2 is enumerated first and
    false when 1 is. *)
Lemma isConnected_back_arrow :
  isDirected back_arrow = true ∧
  (∀ u w, w ∈ getNeighbors back_arrow u → hasVertex back_arrow w = true) ∧
  [2; 1]%Z ≡ₚ getAllVertices back_arrow ∧
  [1; 2]%Z ≡ₚ getAllVertices back_arrow ∧
  isConnected_over [2; 1]%Z back_arrow = Returns true ∧
  isConnected_over [1; 2]%Z back_arrow = Returns false.
Proof.
  assert (getAllVertices back_arrow = [1; 2]%Z ∨
          getAllVertices back_arrow = [2; 1]%Z) as Hkeys
    by (vm_compute; auto).
  split_and!; [done | | | | by vm_compute | by vm_compute].
  - intros u w. unfold back_arrow.
    rewrite getNeighbors_addVertex, getNeighbors_addEdge_directed by done.
    unfold getNeighbors at 1. simpl. rewrite lookup_empty. simpl.
    destruct (decide (u = 2%Z)) as [->|Hu]; [|by intros ?%elem_of_nil].
    by intros ->%list_elem_of_singleton.
  - destruct Hkeys as [->| ->]; [apply perm_swap | done].
  - destruct Hkeys as [->| ->]; [done | apply perm_swap].
Qed.

(** X11: on a graph in which every stored neighbor is a vertex,
    [isConnected] returns true exactly when every vertex is reachable from
    the vertex that [getAllVertices] enumerates first (and true on the
    empty graph); and there is a directed graph of that kind on which two
    enumeration orders of its vertices give different answers, so that on
    a directed graph the answer depends on the enumeration order. *)
Theorem X11_isConnected_reaches_all_from_first :
  (∀ g vertices,
     (∀ u w, w ∈ getNeighbors g u → hasVertex g w = true) →
     vertices ≡ₚ getAllVertices g →
     ∃ b, isConnected_over vertices g = Returns b ∧
          (b = true ↔
           ∀ x, head vertices = Some x →
                ∀ v, hasVertex g v = true → reachable (getNeighbors g) x v)) ∧
  (∃ g vertices vertices',
     isDirected g = true ∧
     (∀ u w, w ∈ getNeighbors g u → hasVertex g w = true) ∧
     vertices ≡ₚ getAllVertices g ∧
     vertices' ≡ₚ getAllVertices g ∧
     isConnected_over vertices g = Returns true ∧
     isConnected_over vertices' g = Returns false).
Proof.
  split.
  - intros g vertices Hclosed Hperm. destruct vertices as [|x rest].
    + exists true. split; [done |]. split; [by intros _ x [=] | done].
    + destruct (isConnected_over_first g x rest Hclosed Hperm)
        as (b & Hrun & Hb).
      exists b. split; [done |]. rewrite Hb. split.
      * by intros Hall y [= <-].
      * intros Hall. by apply Hall.
  - exists back_arrow, [2; 1]%Z, [1; 2]%Z. apply isConnected_back_arrow.
Qed.

Lemma X11_isConnected_reaches_all_from_first_witness :
  (∀ u w, w ∈ getNeighbors scenarioA u → hasVertex scenarioA w = true) ∧
  getAllVertices scenarioA ≡ₚ getAllVertices scenarioA ∧
  ∃ b, isConnected_over (getAllVertices scenarioA) scenarioA = Returns b ∧
       (b = true ↔
        ∀ x, head (getAllVertices scenarioA) = Some x →
             ∀ v, hasVertex scenarioA v = true →
                  reachable (getNeighbors scenarioA) x v).
Proof.
  split; [apply closed_scenarioA |]. split; [reflexivity |].
  apply (proj1 X11_isConnected_reaches_all_from_first scenarioA
           (getAllVertices scenarioA)); [apply closed_scenarioA | reflexivity].
Defined.

(** X12: on a graph built undirected, and whatever the enumeration order,
    [isConnected] returns true exactly when every vertex is reachable from
    every other vertex. *)
Theorem X12_isConnected_undirected g vertices :
  built false g → vertices ≡ₚ getAllVertices g →
  ∃ b, isConnected_over vertices g = Returns b ∧
       (b = true ↔
        ∀ u v, hasVertex g u = true → hasVertex g v = true →
               reachable (getNeighbors g) u v).
Proof.
  intros Hb Hperm.
  assert (∀ a b, b ∈ getNeighbors g a → a ∈ getNeighbors g b) as Hsym
    by (intros; by apply built_undirected_symmetric).
  destruct vertices as [|x rest].
  - exists true. split; [done |]. split; [|done].
    intros _ u v Hu%elem_of_getAllVertices. rewrite <-Hperm in Hu.
    by apply elem_of_nil in Hu.
  - destruct (isConnected_over_first g x rest) as (b & Hrun & Hiff);
      [intros; by eapply built_undirected_closed | done |].
    exists b. split; [done |]. rewrite Hiff. split.
    + intros Hall u v Hu Hv.
      eapply reachable_trans; [|by apply Hall].
      apply reachable_sym; [done |]. by apply Hall.
    + intros Hall v Hv. apply Hall; [|done].
      apply elem_of_getAllVertices. rewrite <-Hperm. left.
Qed.

Lemma X12_isConnected_undirected_witness :
  built false scenarioA ∧
  getAllVertices scenarioA ≡ₚ getAllVertices scenarioA ∧
  ∃ b, isConnected_over (getAllVertices scenarioA) scenarioA = Returns b ∧
       (b = true ↔
        ∀ u v, hasVertex scenarioA u = true → hasVertex scenarioA v = true →
               reachable (getNeighbors scenarioA) u v).
Proof.
  split; [apply built_scenarioA |]. split; [reflexivity |].
  apply (X12_isConnected_undirected scenarioA (getAllVertices scenarioA));
    [apply built_scenarioA | reflexivity].
Defined.

(** X13: on a graph in which every stored neighbor is a vertex, and
    whatever the enumeration order, [isConnected] returns true exactly
    when [findConnectedComponents] returns one component, or none for the
    empty graph. *)
Theorem X13_isConnected_agrees_with_components g vertices :
  (∀ u w, w ∈ getNeighbors g u → hasVertex g w = true) →
  vertices ≡ₚ getAllVertices g →
  ∃ b cs, isConnected_over vertices g = Returns b ∧
          findConnectedComponents_over vertices g = Returns cs ∧
          (b = true ↔ length cs = 1 ∨ (cs = [] ∧ vertices = [])).
Proof. apply isConnected_iff_one_component. Qed.

Lemma X13_isConnected_agrees_with_components_witness :
  (∀ u w, w ∈ getNeighbors scenarioA u → hasVertex scenarioA w = true) ∧
  getAllVertices scenarioA ≡ₚ getAllVertices scenarioA ∧
  ∃ b cs,
    isConnected_over (getAllVertices scenarioA) scenarioA = Returns b ∧
    findConnectedComponents_over (getAllVertices scenarioA) scenarioA
    = Returns cs ∧
    (b = true ↔ length cs = 1 ∨ (cs = [] ∧ getAllVertices scenarioA = [])).
Proof.
  split; [apply closed_scenarioA |]. split; [reflexivity |].
  apply (X13_isConnected_agrees_with_components scenarioA
           (getAllVertices scenarioA)); [apply closed_scenarioA | reflexivity].
Defined.

(** ** findConnectedComponents on any graph *)

Lemma component_loop_seed_head g x glob :
  hasVertex g x = true →
  ∃ component seen,
    component_loop (loop_bound g) g [x] {[x]} ({[x]} ∪ glob) []
    = Returns (component, glob ∪ seen) ∧
    reach_class g component ∧
    head component = Some x ∧
    (∀ v, v ∈ seen ↔ v ∈ component).
Proof.
  intros Hx. destruct (bfs_run_start g x Hx) as (out & seen & Hrun & HI).
  exists out.*1, seen.
  assert (head out.*1 = Some x) as Hhead.
  { apply (bfs_run_extends 0) in Hrun as (rest & -> & _); [done |].
    intros y _. lia. }
  split_and!; [| |done |].
  - replace ({[x]} ∪ glob) with (glob ∪ {[x]}) by set_solver.
    etrans; [exact (component_loop_run g (loop_bound g) [] [(x, 0)]
                      {[x]} glob) |].
    by rewrite Hrun.
  - split.
    + pose proof (inv_nodup _ _ _ _ _ _ HI) as H. by rewrite app_nil_r in H.
    + exists x. split_and!; [done.. |].
      intros v. by eapply inv_final_reachable.
  - intros v. by eapply inv_final_seen.
Qed.

Lemma components_loop_classes g vs glob cs :
  (∀ x, x ∈ vs → hasVertex g x = true) →
  (∀ v, v ∈ glob ↔ v ∈ mjoin cs) →
  Forall (reach_class g) cs → fresh_seeds cs →
  ∃ cs', components_loop g vs glob cs = Returns cs' ∧
         Forall (reach_class g) cs' ∧ fresh_seeds cs' ∧
         (∀ x, x ∈ vs → x ∈ mjoin cs') ∧
         (∀ v, v ∈ mjoin cs → v ∈ mjoin cs') ∧
         length cs' ≤ length cs + length vs.
Proof.
  revert glob cs.
  induction vs as [|x vs IH]; intros glob cs Hvs Hglob Hcs Hseeds;
    cbn [components_loop].
  - exists cs. split_and!; [done.. | | done | lia].
    by intros x ?%elem_of_nil.
  - assert (∀ y, y ∈ vs → hasVertex g y = true) as Hvs'
      by (intros; apply Hvs; by right).
    case_decide as Hx.
    + destruct (IH glob cs Hvs' Hglob Hcs Hseeds)
        as (cs' & ? & ? & ? & Hin & Hmono & ?).
      exists cs'. split_and!; [done.. | | done | simpl; lia].
      intros y [->|Hy]%elem_of_cons; [|by apply Hin].
      by apply Hmono, Hglob.
    + destruct (component_loop_seed_head g x glob)
        as (c & seen & -> & Hclass & Hhead & Hseen); [apply Hvs; left |].
      rewrite bind_Returns. cbv beta. cbn [fst snd].
      assert (mjoin (cs ++ [c]) = mjoin cs ++ c) as E.
      { rewrite join_app. simpl. by rewrite app_nil_r. }
      destruct (IH (glob ∪ seen) (cs ++ [c]) Hvs')
        as (cs' & ? & ? & ? & Hin & Hmono & Hlen).
      * intros v. rewrite E, elem_of_union, elem_of_app, Hseen, Hglob. done.
      * apply Forall_app. split; [done | by constructor].
      * intros i j ci cj y Hij Hi Hj Hy.
        apply lookup_snoc_Some in Hj as [[Hlt Hj]|[Hlast <-]].
        -- rewrite lookup_app_l in Hi by lia.
           exact (Hseeds i j ci cj y Hij Hi Hj Hy).
        -- rewrite lookup_app_l in Hi by lia. simplify_eq.
           intros Hyi. apply Hx, Hglob, list_elem_of_join.
           exists ci. split; [done | by eapply list_elem_of_lookup_2].
      * rewrite length_app in Hlen. simpl in Hlen.
        exists cs'. split_and!; [done.. | | | simpl; lia].
        -- intros y [->|Hy]%elem_of_cons; [|by apply Hin].
           apply Hmono. rewrite E. apply elem_of_app. right.
           by apply head_Some_elem_of.
        -- intros v Hv. apply Hmono. rewrite E. apply elem_of_app. by left.
Qed.

(** X14: on every graph, directed or not, and in every enumeration order,
    [findConnectedComponents] returns reachability classes: each component
    starts with a vertex of the graph, lists exactly the vertices
    reachable from it, each once, and its first vertex is in no earlier
    component.  Every vertex is in some component, and there are at most
    as many components as vertices. *)
Theorem X14_components_are_reachability_classes g vertices :
  vertices ≡ₚ getAllVertices g →
  ∃ cs, findConnectedComponents_over vertices g = Returns cs ∧
        Forall (reach_class g) cs ∧
        fresh_seeds cs ∧
        (∀ v, hasVertex g v = true → v ∈ mjoin cs) ∧
        length cs ≤ getVertexCount g.
Proof.
  intros Hperm.
  destruct (components_loop_classes g vertices ∅ [])
    as (cs & Hrun & Hclass & Hseeds & Hin & _ & Hlen).
  - intros x Hx. apply elem_of_getAllVertices. by rewrite <-Hperm.
  - intros v. simpl. set_solver.
  - constructor.
  - by intros i j ci cj x _ ?.
  - exists cs. split_and!; [done.. | |].
    + intros v Hv. apply Hin. rewrite Hperm. by apply elem_of_getAllVertices.
    + simpl in Hlen. by rewrite <-length_getAllVertices, <-Hperm.
Qed.

Lemma X14_components_are_reachability_classes_witness :
  getAllVertices two_arrows ≡ₚ getAllVertices two_arrows ∧
  ∃ cs, findConnectedComponents_over (getAllVertices two_arrows) two_arrows
        = Returns cs ∧
        Forall (reach_class two_arrows) cs ∧
        fresh_seeds cs ∧
        (∀ v, hasVertex two_arrows v = true → v ∈ mjoin cs) ∧
        length cs ≤ getVertexCount two_arrows.
Proof.
  split; [reflexivity |].
  apply (X14_components_are_reachability_classes two_arrows
           (getAllVertices two_arrows)). reflexivity.
Defined.

(** X15: on a graph built undirected, the component that contains a vertex
    [s] has the same members as [traverse(s)], whatever the enumeration
    order; such a component exists for every vertex of the graph. *)
Theorem X15_component_of_vertex_is_traverse g vertices s :
  built false g → vertices ≡ₚ getAllVertices g → hasVertex g s = true →
  ∃ cs r,
    findConnectedComponents_over vertices g = Returns cs ∧
    traverse g s = Returns r ∧
    (∃ c, c ∈ cs ∧ s ∈ c) ∧
    ∀ c, c ∈ cs → s ∈ c → ∀ v, v ∈ c ↔ v ∈ r.
Proof.
  intros Hb Hperm Hs.
  assert (∀ u v, v ∈ getNeighbors g u → u ∈ getNeighbors g v) as Hsym
    by (intros; by apply built_undirected_symmetric).
  destruct (components_loop_spec g Hsym vertices ∅ [])
    as (cs & glob & Hrun & HC & Hall).
  { by apply components_inv_empty. }
  { intros x Hx. apply elem_of_getAllVertices. by rewrite <-Hperm. }
  destruct (traverse_levels g s Hs) as (out & Hrun' & _ & _ & _ & Hreach).
  exists cs, out.*1. split_and!; [done.. | |].
  - assert (s ∈ mjoin cs) as Hin.
    { apply (cinv_union _ _ _ HC), Hall. rewrite Hperm.
      by apply elem_of_getAllVertices. }
    apply list_elem_of_join in Hin as (c & ? & ?). by exists c.
  - intros c Hc Hsc v.
    pose proof (cinv_class _ _ _ HC) as Hclass.
    rewrite Forall_forall in Hclass. destruct (Hclass c Hc) as [x Hx].
    rewrite Hx, Hreach. apply Hx in Hsc. split; intros Hv.
    + eapply reachable_trans; [by apply reachable_sym | done].
    + by eapply reachable_trans.
Qed.

Lemma X15_component_of_vertex_is_traverse_witness :
  built false scenarioA ∧
  getAllVertices scenarioA ≡ₚ getAllVertices scenarioA ∧
  hasVertex scenarioA 1 = true ∧
  ∃ cs r,
    findConnectedComponents_over (getAllVertices scenarioA) scenarioA
    = Returns cs ∧
    traverse scenarioA 1 = Returns r ∧
    (∃ c, c ∈ cs ∧ 1%Z ∈ c) ∧
    ∀ c, c ∈ cs → 1%Z ∈ c → ∀ v, v ∈ c ↔ v ∈ r.
Proof.
  split; [apply built_scenarioA |]. split; [reflexivity |].
  split; [reflexivity |].
  apply (X15_component_of_vertex_is_traverse scenarioA
           (getAllVertices scenarioA) 1);
    [apply built_scenarioA | reflexivity | reflexivity].
Defined.

(** * Levels of a first-in first-out search *)

Section levels.
Context {V : Type} `{!EqDecision V} (edge : V → V → Prop) (s : V).
Implicit Types (processed queue q : list (V * nat)) (new : list V).

Local Abbreviation LInv := (level_inv edge s).

Lemma level_inv_init : LInv [] [(s, 0)].
Proof.
  split; simpl.
  - by left.
  - apply NoDup_singleton.
  - intros v d Hin%list_elem_of_singleton. simplify_eq.
    split; [constructor | lia].
  - repeat constructor.
  - intros u d q x [= <- <- <-]. by intros ?%elem_of_nil.
  - intros u d w Hin. by apply elem_of_nil in Hin.
Qed.

Lemma level_label processed queue v :
  v ∈ (processed ++ queue).*1 → ∃ d, (v, d) ∈ processed ++ queue.
Proof. intros ([v' d] & -> & Hin)%list_elem_of_fmap. by exists d. Qed.

Lemma level_known processed queue v d :
  (v, d) ∈ processed ++ queue → v ∈ (processed ++ queue).*1.
Proof. intros Hin. by apply (list_elem_of_fmap_2 fst) in Hin. Qed.

Lemma level_below processed queue v n :
  LInv processed queue → hops edge s v n →
  (∀ x, x ∈ queue → n ≤ x.2) → v ∈ (processed ++ queue).*1.
Proof.
  intros HI Hhops. induction Hhops as [|u v n Hhops IH Hedge]; intros Hq.
  - apply HI.
  - assert (u ∈ (processed ++ queue).*1) as Hu.
    { apply IH. intros x Hx. apply Hq in Hx. lia. }
    destruct (level_label _ _ _ Hu) as [l Hl].
    assert (l ≤ n).
    { apply (lv_dist _ _ _ _ HI) in Hl as [_ Hmin]. by apply Hmin. }
    apply elem_of_app in Hl as [Hl|Hl].
    + eapply lv_closed; eauto.
    + apply Hq in Hl. simpl in Hl. lia.
Qed.

Lemma level_processed_le processed u d q x :
  LInv processed ((u, d) :: q) → x ∈ processed → x.2 ≤ d.
Proof.
  intros HI Hx. pose proof (lv_sorted _ _ _ _ HI) as Hs.
  rewrite fmap_app in Hs. apply StronglySorted_app in Hs as (H & _ & _).
  apply H; [by apply list_elem_of_fmap_2 | left].
Qed.

Lemma level_queue_ge processed u d q x :
  LInv processed ((u, d) :: q) → x ∈ (u, d) :: q → d ≤ x.2.
Proof.
  intros HI Hx. pose proof (lv_sorted _ _ _ _ HI) as Hs.
  rewrite fmap_app in Hs. apply StronglySorted_app_1_r in Hs.
  apply elem_of_cons in Hx as [->|Hx]; [done |].
  rewrite fmap_cons in Hs. apply StronglySorted_inv in Hs as [_ Hall].
  rewrite Forall_forall in Hall. apply Hall. by apply list_elem_of_fmap_2.
Qed.

(** One expansion: the head is processed and the vertices it leads to that
    were not yet discovered join the queue one level down. *)
Lemma level_step processed u d q new :
  LInv processed ((u, d) :: q) →
  NoDup new →
  (∀ x, x ∈ new ↔ edge u x ∧ x ∉ (processed ++ (u, d) :: q).*1) →
  LInv (processed ++ [(u, d)]) (q ++ ((λ w, (w, S d)) <$> new)).
Proof.
  intros HI Hnd Hnew. set (lnew := (λ w, (w, S d)) <$> new).
  assert (lnew.*1 = new) as Hfst.
  { unfold lnew. rewrite <-list_fmap_compose. apply list_fmap_id. }
  assert (∀ x, x ∈ lnew ↔ x.2 = S d ∧ x.1 ∈ new) as Hlnew.
  { intros x. unfold lnew. rewrite list_elem_of_fmap. split.
    - by intros (w & -> & ?).
    - destruct x as [w l]. simpl. intros [-> ?]. by exists w. }
  assert ((processed ++ [(u, d)]) ++ q ++ lnew
          = (processed ++ (u, d) :: q) ++ lnew) as E
    by (by rewrite <-!app_assoc).
  assert ((u, d) ∈ processed ++ (u, d) :: q) as Hu
    by (apply elem_of_app; right; left).
  split.
  - rewrite E, fmap_app. apply elem_of_app. left. apply HI.
  - rewrite E, fmap_app, Hfst. apply NoDup_app.
    split_and!; [apply HI | | done].
    intros x Hx Hx'%Hnew. tauto.
  - intros v d'. rewrite E, elem_of_app, Hlnew. simpl.
    intros [Hold|[-> Hv%Hnew]]; [by apply HI |].
    destruct Hv as [Hedge Hunseen].
    destruct (lv_dist _ _ _ _ HI _ _ Hu) as [Hhops _].
    split; [by eapply hops_edge |].
    intros m Hm. destruct (decide (S d ≤ m)) as [|Hlt]; [done |].
    exfalso. apply Hunseen. eapply level_below; [done.. |].
    intros x Hx. eapply level_queue_ge in Hx; [|done]. lia.
  - rewrite E, fmap_app. apply StronglySorted_app_2; [|apply HI|].
    + intros x1 x2 Hx1 Hx2.
      apply list_elem_of_fmap in Hx1 as (p1 & -> & Hp1).
      apply list_elem_of_fmap in Hx2 as (p2 & -> & Hp2).
      apply Hlnew in Hp2 as [-> _].
      apply elem_of_app in Hp1 as [Hp1|Hp1].
      * eapply level_processed_le in Hp1; [|done]. lia.
      * apply elem_of_cons in Hp1 as [->|Hp1]; [simpl; lia |].
        eapply lv_window; [done.. |]. done.
    + unfold lnew. clear. induction new as [|x new IH]; [constructor |].
      constructor; [done |]. apply Forall_forall.
      intros y Hy. apply list_elem_of_fmap in Hy as (p & -> & Hp).
      apply list_elem_of_fmap in Hp as (w & -> & _). done.
  - intros u' d' q' x Hq' Hx. destruct q as [|[u1 d1] q1]; simpl in Hq'.
    + destruct new as [|y new']; [done |]. injection Hq' as <- <- <-.
      apply list_elem_of_fmap in Hx as (w & -> & _). simpl. lia.
    + injection Hq' as -> -> <-.
      assert (d ≤ d').
      { eapply (level_queue_ge _ _ _ _ (u', d')) in HI; [done |].
        right; left. }
      apply elem_of_app in Hx as [Hx|Hx].
      * enough (x.2 ≤ S d) by lia.
        eapply (lv_window _ _ _ _ HI); [done |]. by right.
      * apply Hlnew in Hx as [-> _]. lia.
  - intros u' d' w Hin Hw. rewrite E, fmap_app, Hfst, elem_of_app.
    apply elem_of_app in Hin as [Hin|Hin%list_elem_of_singleton].
    + left. eapply lv_closed; eauto.
    + simplify_eq. rewrite Hnew.
      destruct (decide (w ∈ (processed ++ (u, d) :: q).*1)); tauto.
Qed.
End levels.

(** * gridBFS finds shortest walks *)

Section gridBFS_levels.
Context (grid : list (list Z)) (rows cols : nat) (start : Cell).
Hypothesis grid_dims : dims grid rows cols.

Local Abbreviation GInv := (grid_inv grid rows cols start).
Local Abbreviation move := (gstep grid rows cols).

(** What one direction adds to the queue. *)
Lemma visit_cell_new processed st row col d :
  GInv processed st → (row, col) ∈ processed → d ∈ directions →
  ∃ st' new,
    visit_cell grid (Z.of_nat rows) (Z.of_nat cols) row col st d
    = Returns st' ∧
    GInv processed st' ∧
    gs_queue st' = gs_queue st ++ new ∧
    NoDup new ∧
    (∀ x, x ∈ new ↔
          x = ((row + d.1)%Z, (col + d.2)%Z) ∧ inside rows cols x ∧
          at2 grid x.1 x.2 = Returns 0%Z ∧ x ∉ processed ++ gs_queue st) ∧
    (∀ x, x ∈ new → at2 (gs_parent st') x.1 x.2 = Returns (row, col)) ∧
    (∀ x, x ∉ new →
          at2 (gs_parent st') x.1 x.2 = at2 (gs_parent st) x.1 x.2).
Proof.
  intros HI Hcur Hd.
  destruct (visit_cell_inv grid rows cols start grid_dims
              processed st row col d HI Hcur Hd) as (st' & Hrun0 & HI').
  exists st'. pose proof Hrun0 as Hrun. unfold visit_cell in Hrun.
  set (new := ((row + d.1)%Z, (col + d.2)%Z)) in *.
  assert (st' = st →
          ¬ (inside rows cols new ∧ at2 grid new.1 new.2 = Returns 0%Z ∧
             new ∉ processed ++ gs_queue st) →
          ∃ l : list Cell,
            visit_cell grid (Z.of_nat rows) (Z.of_nat cols) row col st d
            = Returns st' ∧ GInv processed st' ∧
            gs_queue st' = gs_queue st ++ l ∧ NoDup l ∧
            (∀ x, x ∈ l ↔
                  x = new ∧ inside rows cols x ∧
                  at2 grid x.1 x.2 = Returns 0%Z ∧
                  x ∉ processed ++ gs_queue st) ∧
            (∀ x, x ∈ l →
                  at2 (gs_parent st') x.1 x.2 = Returns (row, col)) ∧
            (∀ x, x ∉ l →
                  at2 (gs_parent st') x.1 x.2 = at2 (gs_parent st) x.1 x.2))
    as Hskip.
  { intros -> Hno. exists []. split_and!.
    - done.
    - done.
    - by rewrite app_nil_r.
    - constructor.
    - intros x. split; [by intros ?%elem_of_nil |].
      intros (-> & ? & ? & ?). destruct Hno. done.
    - by intros x ?%elem_of_nil.
    - done. }
  destruct (in_bounds _ _ _ _) eqn:Hb.
  2:{ simplify_eq. apply Hskip; [done |]. intros (Hin & _).
      apply in_bounds_inside in Hin. fold new in Hb. simpl in Hb.
      congruence. }
  apply in_bounds_inside in Hb.
  destruct (at2_inside _ _ _ _ _ (ginv_visited_dims _ _ _ _ _ _ HI) Hb)
    as [seen Hseen]. simpl in Hseen.
  rewrite Hseen, bind_Returns in Hrun. cbv beta in Hrun.
  destruct seen.
  { simplify_eq. apply Hskip; [done |]. intros (_ & _ & Hnot).
    apply Hnot, (ginv_visited _ _ _ _ _ _ HI); done. }
  destruct (at2_inside _ _ _ _ _ grid_dims Hb) as [cell Hcell].
  simpl in Hcell. rewrite Hcell, bind_Returns in Hrun. cbv beta in Hrun.
  case_decide as Hzero.
  2:{ simplify_eq. apply Hskip; [done |]. intros (_ & Hval & _).
      simpl in Hval. congruence. }
  subst cell.
  destruct (set2_inside _ _ _ _ _ true
              (ginv_visited_dims _ _ _ _ _ _ HI) Hb)
    as (visited' & Hv & _).
  destruct (set2_inside _ _ _ _ _ (row, col)
              (ginv_parent_dims _ _ _ _ _ _ HI) Hb)
    as (parent' & Hp & _ & Hpnew & Hpold).
  simpl in Hv, Hp. rewrite Hv, bind_Returns in Hrun. cbv beta in Hrun.
  rewrite Hp, bind_Returns in Hrun. cbv beta in Hrun. simplify_eq.
  assert (new ∉ processed ++ gs_queue st) as Hfresh.
  { intros Hin%(ginv_visited _ _ _ _ _ _ HI); [|done].
    simpl in Hin. congruence. }
  exists [new]. split_and!.
  - done.
  - done.
  - done.
  - apply NoDup_singleton.
  - intros x. rewrite list_elem_of_singleton. split; [by intros -> |].
    by intros [-> _].
  - intros x ->%list_elem_of_singleton. done.
  - intros [r c] Hx. simpl. apply Hpold. intros E. apply Hx.
    rewrite list_elem_of_singleton. by rewrite E.
Qed.

(** What the four directions add to the queue: the cells one move away
    that were not yet discovered, each with the current cell as parent. *)
Lemma visit_cells_new processed st row col ds :
  GInv processed st → (row, col) ∈ processed →
  (∀ d, d ∈ ds → d ∈ directions) →
  ∃ st' new,
    visit_cells grid (Z.of_nat rows) (Z.of_nat cols) row col st ds
    = Returns st' ∧
    GInv processed st' ∧
    gs_queue st' = gs_queue st ++ new ∧
    NoDup new ∧
    (∀ x, x ∈ new ↔
          (∃ d, d ∈ ds ∧ x = ((row + d.1)%Z, (col + d.2)%Z)) ∧
          inside rows cols x ∧ at2 grid x.1 x.2 = Returns 0%Z ∧
          x ∉ processed ++ gs_queue st) ∧
    (∀ x, x ∈ new → at2 (gs_parent st') x.1 x.2 = Returns (row, col)) ∧
    (∀ x, x ∉ new →
          at2 (gs_parent st') x.1 x.2 = at2 (gs_parent st) x.1 x.2).
Proof.
  intros HI Hcur. revert st HI.
  induction ds as [|d ds IH]; intros st HI Hds; cbn [visit_cells].
  - exists st, []. split_and!; [done | done | by rewrite app_nil_r
                                | constructor | | | done].
    + intros x. split; [by intros ?%elem_of_nil |].
      by intros [(d & ?%elem_of_nil & _) _].
    + by intros x ?%elem_of_nil.
  - destruct (visit_cell_new processed st row col d HI Hcur)
      as (st1 & new1 & -> & HI1 & Hq1 & Hnd1 & Hin1 & Hpar1 & Hold1);
      [apply Hds; left |].
    rewrite bind_Returns. cbv beta.
    destruct (IH st1 HI1)
      as (st2 & new2 & -> & HI2 & Hq2 & Hnd2 & Hin2 & Hpar2 & Hold2);
      [intros; apply Hds; by right |].
    exists st2, (new1 ++ new2). split_and!.
    + done.
    + done.
    + by rewrite Hq2, Hq1, <-app_assoc.
    + apply NoDup_app. split_and!; [done | | done].
      intros x Hx1 Hx2. apply Hin2 in Hx2 as (_ & _ & _ & Hnot).
      apply Hnot. rewrite Hq1, app_assoc. apply elem_of_app. by right.
    + intros x. rewrite elem_of_app, Hin1, Hin2, Hq1. split.
      * intros [(-> & ? & ? & ?)|((d' & ? & ->) & ? & ? & Hnot)].
        -- split_and!; [|done..]. exists d. split; [left | done].
        -- split_and!; [|done | done |].
           ++ exists d'. split; [by right | done].
           ++ intros Hin. apply Hnot. rewrite app_assoc.
              apply elem_of_app. by left.
      * intros ((d' & Hd' & ->) & ? & ? & Hnot).
        apply elem_of_cons in Hd' as [->|Hd']; [by left |].
        destruct (decide (((row + d'.1)%Z, (col + d'.2)%Z) ∈ new1))
          as [Hin|Hout].
        -- left. by apply Hin1.
        -- right. split_and!; [by exists d' | done | done |].
           rewrite app_assoc, elem_of_app. tauto.
    + intros x [Hx|Hx]%elem_of_app; [|by apply Hpar2].
      rewrite Hold2; [by apply Hpar1 |].
      intros Hx2. apply Hin2 in Hx2 as (_ & _ & _ & Hnot).
      apply Hnot. rewrite Hq1, app_assoc. apply elem_of_app. by right.
    + intros x Hx. rewrite elem_of_app in Hx.
      rewrite Hold2, Hold1; tauto.
Qed.

(** The length of the walk that the parent matrix yields for a cell at
    level [d]. *)
Lemma grid_reconstruct_length parent known c d path fuel r :
  grid_parent_levels parent known →
  (∀ x l, (x, l) ∈ known → inside rows cols x) →
  (c, d) ∈ known →
  grid_reconstruct fuel parent c.1 c.2 path = Returns r →
  length r = length path + S d.
Proof.
  intros HP Hins. revert c path fuel r.
  induction d as [|d IH]; intros [cr cc] path fuel r Hc Hrun.
  - pose proof (Hins _ _ Hc) as [[??] [??]]. simpl in *.
    destruct fuel as [|fuel]; [done |]. cbn [grid_reconstruct] in Hrun.
    destruct (decide (cr ≠ (-1)%Z ∧ cc ≠ (-1)%Z)) as [_|Hno]; [|lia].
    pose proof (HP _ _ Hc) as Hp0. simpl in Hp0.
    rewrite Hp0, bind_Returns in Hrun. cbv beta in Hrun.
    destruct fuel as [|fuel]; [done |]. cbn [grid_reconstruct fst snd] in Hrun.
    destruct (decide (_ ∧ _)) as [[? _]|_]; [done |]. simplify_eq.
    rewrite length_reverse, !length_app. simpl. lia.
  - pose proof (Hins _ _ Hc) as [[??] [??]]. simpl in *.
    destruct fuel as [|fuel]; [done |]. cbn [grid_reconstruct] in Hrun.
    destruct (decide (cr ≠ (-1)%Z ∧ cc ≠ (-1)%Z)) as [_|Hno]; [|lia].
    destruct (HP _ _ Hc) as (p & Hp & Hpd). simpl in Hp.
    rewrite Hp, bind_Returns in Hrun. cbv beta in Hrun.
    rewrite (IH _ _ _ _ Hpd Hrun), length_app. simpl. lia.
Qed.

Lemma grid_parent_levels_step lp row col d lq new (st st' : GridState) :
  GInv (lp.*1 ++ [(row, col)]) st →
  gs_queue st = lq.*1 →
  grid_parent_levels (gs_parent st) (lp ++ ((row, col), d) :: lq) →
  (∀ x, x ∈ new → x ∉ (lp.*1 ++ [(row, col)]) ++ gs_queue st) →
  (∀ x, x ∈ new → at2 (gs_parent st') x.1 x.2 = Returns (row, col)) →
  (∀ x, x ∉ new →
        at2 (gs_parent st') x.1 x.2 = at2 (gs_parent st) x.1 x.2) →
  grid_parent_levels (gs_parent st')
    ((lp ++ [((row, col), d)]) ++ lq ++ ((λ w, (w, S d)) <$> new)).
Proof.
  intros HI Hq HP Hfresh Hnew Hold c l Hin.
  replace ((lp ++ [((row, col), d)]) ++ lq ++ ((λ w, (w, S d)) <$> new))
    with ((lp ++ ((row, col), d) :: lq) ++ ((λ w, (w, S d)) <$> new))
    in * by (by rewrite <-!app_assoc).
  apply elem_of_app in Hin as [Hin|Hin].
  - assert (c ∉ new) as Hc.
    { intros Hc%Hfresh. apply Hc. rewrite Hq, <-app_assoc. simpl.
      apply (list_elem_of_fmap_2 fst) in Hin.
      by rewrite fmap_app in Hin. }
    rewrite Hold by done. specialize (HP _ _ Hin).
    destruct l as [|l]; [done |]. destruct HP as (p & ? & ?).
    exists p. split; [done |]. apply elem_of_app. by left.
  - apply list_elem_of_fmap in Hin as (w & [= -> ->] & Hw).
    exists (row, col). split; [by apply Hnew |].
    apply elem_of_app. left. apply elem_of_app. right. left.
Qed.

Lemma gridBFS_loop_levels target fuel lp lq st r :
  GInv lp.*1 st → gs_queue st = lq.*1 →
  level_inv move start lp lq →
  grid_parent_levels (gs_parent st) (lp ++ lq) →
  target ∉ lp.*1 →
  gridBFS_loop fuel grid (Z.of_nat rows) (Z.of_nat cols)
    target.1 target.2 st = Returns r →
  (r = [] ∧ ∀ n, ¬ hops move start target n) ∨
  (∃ d, length r = S d ∧ hops move start target d ∧
        ∀ m, hops move start target m → d ≤ m).
Proof.
  revert lp lq st.
  induction fuel as [|fuel IH]; intros lp lq st HI Hq HL HP Ht Hrun; [done |].
  destruct st as [visited parent queue]. simpl in Hq. subst queue.
  cbn [gridBFS_loop gs_queue] in Hrun.
  destruct lq as [|[[row col] d] lq].
  - simpl in Hrun. simplify_eq. left. split; [done |].
    intros n Hn. apply Ht.
    eapply level_below in Hn; [|done |by intros x ?%elem_of_nil].
    by rewrite app_nil_r in Hn.
  - rewrite fmap_cons in Hrun. cbn [fst gs_parent gs_visited] in Hrun.
    assert (((row, col), d) ∈ lp ++ ((row, col), d) :: lq) as Hhead
      by (apply elem_of_app; right; left).
    case_decide as Htarget.
    + assert ((row, col) = target) as <- by (destruct target; naive_solver).
      right. exists d.
      destruct (lv_dist _ _ _ _ HL _ _ Hhead) as [Hhops Hmin].
      split_and!; [|done..].
      eapply (grid_reconstruct_length parent _ (row, col) d []) in Hrun;
        [done | done | | done].
      intros x l Hx. eapply (ginv_inside _ _ _ _ _ _ HI).
      apply (list_elem_of_fmap_2 fst) in Hx. simpl.
      by rewrite fmap_app in Hx.
    + assert (GInv (lp.*1 ++ [(row, col)])
                (mkGridState visited parent lq.*1)) as HI'.
      { destruct HI as [? ? Hnd Hins Hvis Hchain]. simpl in *.
        split; simpl; rewrite <-?app_assoc; done. }
      destruct (visit_cells_new _ _ row col directions HI')
        as (st' & new & Hvisit & HI'' & Hq' & Hnd & Hin & Hpar & Hold);
        [apply elem_of_app; right; left | done |].
      rewrite Hvisit, bind_Returns in Hrun. cbv beta in Hrun.
      assert (((lp ++ [((row, col), d)]).*1 = lp.*1 ++ [(row, col)])) as E1
        by by rewrite fmap_app.
      assert ((lq ++ ((λ w, (w, S d)) <$> new)).*1 = lq.*1 ++ new) as E2.
      { rewrite fmap_app, <-list_fmap_compose. f_equal. apply list_fmap_id. }
      assert ((lp.*1 ++ [(row, col)]) ++ lq.*1
              = (lp ++ ((row, col), d) :: lq).*1) as E3
        by (by rewrite fmap_app, <-app_assoc).
      eapply (IH (lp ++ [((row, col), d)])
                 (lq ++ ((λ w, (w, S d)) <$> new))); [| | | | |exact Hrun].
      * by rewrite E1.
      * by rewrite E2.
      * apply level_step; [done.. |].
        intros x. rewrite Hin, <-E3. simpl. unfold gstep, adjacent. simpl.
        naive_solver.
      * eapply (grid_parent_levels_step lp row col d lq new
                  (mkGridState visited parent lq.*1) st'); try done.
        intros x Hx%Hin. tauto.
      * rewrite E1, elem_of_app, list_elem_of_singleton.
        intros [?|Heq]; [done |]. subst target. simpl in *. tauto.
Qed.
End gridBFS_levels.

Lemma hops_cons {V} (edge : V → V → Prop) s u v n :
  edge s u → hops edge u v n → hops edge s v (S n).
Proof.
  intros Hsu Huv. induction Huv as [|x y n _ IH Hxy].
  - eapply hops_edge; [apply hops_here | done].
  - eapply hops_edge; [apply IH | done].
Qed.

Lemma at2_Returns_inside {A} (m : list (list A)) rows cols r c x :
  dims m rows cols → at2 m r c = Returns x → inside rows cols (r, c).
Proof.
  intros [Hlen Hrows] (? & ? & row & Hrow & Hx)%at2_Returns.
  pose proof (lookup_lt_Some _ _ _ Hrow).
  pose proof (lookup_lt_Some _ _ _ Hx).
  rewrite (Hrows row) in * by by eapply list_elem_of_lookup_2.
  split; simpl; lia.
Qed.

Lemma adjacent_sym a b : adjacent a b → adjacent b a.
Proof.
  intros (d & Hd & ->). exists ((- d.1)%Z, (- d.2)%Z). split.
  - unfold directions in *.
    repeat (apply elem_of_cons in Hd as [->|Hd]; [set_solver |]).
    by apply elem_of_nil in Hd.
  - destruct a. simpl. f_equal; lia.
Qed.

Section grid_walks.
Context (grid : list (list Z)) (rows cols : nat).

Local Abbreviation move := (gstep grid rows cols).

Lemma grid_walk_hops start c l :
  grid_walk grid rows cols start c l →
  ∃ n, length l = S n ∧ hops move start c n.
Proof.
  induction 1 as [|p c l _ (n & Hlen & Hhops) Hadj Hin Hzero].
  - exists 0. split; [done | constructor].
  - exists (S n). split; [rewrite length_app; simpl; lia |].
    by eapply hops_edge.
Qed.

Lemma hops_passable start c n :
  hops move start c n →
  inside rows cols start → at2 grid start.1 start.2 = Returns 0%Z →
  inside rows cols c ∧ at2 grid c.1 c.2 = Returns 0%Z.
Proof. intros Hhops ??. by destruct Hhops as [|? ? ? _ (_ & ? & ?)]. Qed.

Lemma hops_rev start c n :
  inside rows cols start → at2 grid start.1 start.2 = Returns 0%Z →
  hops move start c n → hops move c start n.
Proof.
  intros Hin Hzero Hhops.
  induction Hhops as [|u v n Hhops IH (Hadj & Hv & Hvzero)].
  - constructor.
  - eapply hops_cons; [|done].
    destruct (hops_passable _ _ _ Hhops Hin Hzero).
    split_and!; [by apply adjacent_sym | done..].
Qed.

Lemma hops_manhattan_le start c n :
  hops move start c n →
  (Z.abs (c.1 - start.1) + Z.abs (c.2 - start.2) ≤ Z.of_nat n)%Z.
Proof.
  induction 1 as [|u v n _ IH ((d & Hd & ->) & _)]; [lia |].
  unfold directions in Hd. simpl.
  repeat (apply elem_of_cons in Hd as [->|Hd]; [simpl; lia |]).
  by apply elem_of_nil in Hd.
Qed.

Lemma hops_manhattan_open start c n :
  (∀ x, inside rows cols x → at2 grid x.1 x.2 = Returns 0%Z) →
  inside rows cols start → inside rows cols c →
  (Z.abs (c.1 - start.1) + Z.abs (c.2 - start.2) = Z.of_nat n)%Z →
  hops move start c n.
Proof.
  intros Hopen Hstart. revert c.
  induction n as [|n IH]; intros [cr cc] Hc Hn; simpl in Hn.
  - assert ((cr, cc) = start) as -> by (destruct start; simpl in *; f_equal; lia).
    constructor.
  - destruct Hstart as [[??] [??]], Hc as [[??] [??]]. simpl in *.
    assert (∀ p d, d ∈ directions →
              (cr, cc) = ((p.1 + d.1)%Z, (p.2 + d.2)%Z) →
              inside rows cols p →
              (Z.abs (p.1 - start.1) + Z.abs (p.2 - start.2)
               = Z.of_nat n)%Z →
              hops move start (cr, cc) (S n)) as Hvia.
    { intros p d Hd Heq Hp Hpn. eapply hops_edge; [by apply IH |].
      split_and!.
      - by exists d.
      - split; simpl; lia.
      - apply Hopen. split; simpl; lia. }
    destruct (decide (start.1 < cr)%Z); [|destruct (decide (cr < start.1)%Z);
      [|destruct (decide (start.2 < cc)%Z)]].
    + apply (Hvia ((cr - 1)%Z, cc) (1%Z, 0%Z)); [set_solver | |..];
        [simpl; f_equal; lia | split; simpl; lia | simpl; lia].
    + apply (Hvia ((cr + 1)%Z, cc) ((-1)%Z, 0%Z)); [set_solver | |..];
        [simpl; f_equal; lia | split; simpl; lia | simpl; lia].
    + apply (Hvia (cr, (cc - 1)%Z) (0%Z, 1%Z)); [set_solver | |..];
        [simpl; f_equal; lia | split; simpl; lia | simpl; lia].
    + apply (Hvia (cr, (cc + 1)%Z) (0%Z, (-1)%Z)); [set_solver | |..];
        [simpl; f_equal; lia | split; simpl; lia | simpl; lia].
Qed.
End grid_walks.

(** From a start cell that is in range and does not hold [1], [gridBFS]
    on a rectangular grid returns a path with one cell more than the least
    number of moves to the target, or the empty path when no sequence of
    moves reaches the target. *)
Lemma gridBFS_least_moves grid startRow startCol targetRow targetCol :
  rectangular grid →
  inside (length grid) (length (default [] (head grid)))
    (startRow, startCol) →
  at2 grid startRow startCol ≠ Returns 1%Z →
  ∃ p, gridBFS grid startRow startCol targetRow targetCol = Returns p ∧
       ((p = [] ∧
         ∀ n, ¬ hops (gstep grid (length grid)
                        (length (default [] (head grid))))
                  (startRow, startCol) (targetRow, targetCol) n) ∨
        (∃ d, length p = S d ∧
              hops (gstep grid (length grid)
                      (length (default [] (head grid))))
                (startRow, startCol) (targetRow, targetCol) d ∧
              ∀ m, hops (gstep grid (length grid)
                           (length (default [] (head grid))))
                     (startRow, startCol) (targetRow, targetCol) m →
                   d ≤ m)).
Proof.
  intros Hrect Hs Hopen. pose proof (rectangular_dims _ Hrect) as Hdims.
  destruct (gridBFS_spec grid startRow startCol targetRow targetCol Hrect)
    as (p & Hrun & _).
  exists p. split; [done |].
  destruct grid as [|row0 rest]; [destruct Hs as [[??] _]; simpl in *; lia |].
  destruct row0 as [|x0 row0]; [destruct Hs as [_ [??]]; simpl in *; lia |].
  set (grid := (x0 :: row0) :: rest) in *.
  set (rows := length grid) in *.
  set (cols := length (default [] (head grid))) in *.
  change (gridBFS grid startRow startCol targetRow targetCol) with
    (if negb (in_bounds (Z.of_nat rows) (Z.of_nat cols) startRow startCol) ||
        negb (in_bounds (Z.of_nat rows) (Z.of_nat cols) targetRow targetCol)
     then Returns []
     else
       startCell ← at2 grid startRow startCol;
       if decide (startCell = 1%Z) then Returns []
       else
         targetCell ← at2 grid targetRow targetCol;
         if decide (targetCell = 1%Z) then Returns []
         else if decide (startRow = targetRow ∧ startCol = targetCol) then
           Returns [(startRow, startCol)]
         else
           visited ← set2 (replicate rows (replicate cols false))
                       startRow startCol true;
           gridBFS_loop (S (Z.to_nat (Z.of_nat rows * Z.of_nat cols))) grid
             (Z.of_nat rows) (Z.of_nat cols) targetRow targetCol
             (mkGridState visited
                (replicate rows (replicate cols ((-1)%Z, (-1)%Z)))
                [(startRow, startCol)])) in Hrun.
  assert (in_bounds (Z.of_nat rows) (Z.of_nat cols) startRow startCol = true)
    as Hsb by by apply in_bounds_inside.
  rewrite Hsb in Hrun. cbn [negb orb] in Hrun.
  destruct (at2_inside _ _ _ _ _ Hdims Hs) as [startCell Hsc].
  assert (∀ n, hops (gstep grid rows cols) (startRow, startCol)
                 (targetRow, targetCol) n →
               (startRow, startCol) = (targetRow, targetCol) ∨
               (inside rows cols (targetRow, targetCol) ∧
                at2 grid targetRow targetCol = Returns 0%Z)) as Hreach.
  { intros n Hn. inversion Hn as [|? ? ? _ (_ & ? & ?)]; auto. }
  destruct (in_bounds _ _ targetRow targetCol) eqn:Ht.
  2:{ simpl in Hrun. simplify_eq. left. split; [done |].
      intros n [E|[Hin _]]%Hreach.
      - injection E as <- <-. congruence.
      - apply in_bounds_inside in Hin. congruence. }
  apply in_bounds_inside in Ht. cbn [negb] in Hrun.
  rewrite Hsc, bind_Returns in Hrun. cbv beta in Hrun.
  rewrite decide_False in Hrun by congruence.
  destruct (at2_inside _ _ _ _ _ Hdims Ht) as [targetCell Htc].
  rewrite Htc, bind_Returns in Hrun. cbv beta in Hrun.
  case_decide as Hblocked.
  { simplify_eq. left. split; [done |].
    intros n [E|[_ Hzero]]%Hreach; [|congruence].
    injection E as <- <-. congruence. }
  case_decide as Hst.
  { destruct Hst as [<- <-]. simplify_eq. right. exists 0.
    split_and!; [done | constructor | lia]. }
  destruct (set2_inside _ _ _ _ _ true (dims_replicate rows cols false) Hs)
    as (visited & Hv & _).
  rewrite Hv, bind_Returns in Hrun. cbv beta in Hrun.
  eapply (gridBFS_loop_levels grid rows cols (startRow, startCol) Hdims
            (targetRow, targetCol) _ [] [((startRow, startCol), 0)]);
    [| | | | |exact Hrun].
  - by apply grid_inv_init.
  - done.
  - apply level_inv_init.
  - intros c d Hin%list_elem_of_singleton. simplify_eq.
    by apply at2_replicate.
  - by intros ?%elem_of_nil.
Qed.

Lemma inside_scenarioB_origin :
  inside (length scenarioB) (length (default [] (head scenarioB)))
    (0%Z, 0%Z).
Proof. split; simpl; lia. Qed.

Lemma scenarioB_origin_open : at2 scenarioB 0 0 ≠ Returns 1%Z.
Proof. by vm_compute. Qed.

(** X16: on a rectangular grid, a non-empty result of [gridBFS] starts at
    the start cell, ends at the target cell, stays inside the grid, moves
    by one step up, down, left or right at a time, holds [0] on every cell
    after the first, and its first cell does not hold [1]. *)
Theorem X16_gridBFS_returns_a_grid_walk
    grid startRow startCol targetRow targetCol path :
  rectangular grid →
  gridBFS grid startRow startCol targetRow targetCol = Returns path →
  path ≠ [] →
  head path = Some (startRow, startCol) ∧
  last path = Some (targetRow, targetCol) ∧
  Forall (inside (length grid) (length (default [] (head grid)))) path ∧
  Forall (λ cell, at2 grid cell.1 cell.2 = Returns 0%Z) (tail path) ∧
  (∃ x, at2 grid startRow startCol = Returns x ∧ x ≠ 1%Z) ∧
  ∀ i a b, path !! i = Some a → path !! S i = Some b → adjacent a b.
Proof. apply gridBFS_valid_walk. Qed.

Lemma X16_gridBFS_returns_a_grid_walk_witness :
  rectangular scenarioB ∧
  gridBFS scenarioB 0 0 0 2 = Returns [(0, 0); (0, 1); (0, 2)]%Z ∧
  [(0, 0); (0, 1); (0, 2)]%Z ≠ ([] : list Cell) ∧
  head [(0, 0); (0, 1); (0, 2)]%Z = Some (0%Z, 0%Z) ∧
  last [(0, 0); (0, 1); (0, 2)]%Z = Some (0%Z, 2%Z).
Proof.
  split; [apply rectangular_scenarioB |].
  split; [by vm_compute |]. split; [done |].
  destruct (X16_gridBFS_returns_a_grid_walk scenarioB 0 0 0 2
              [(0, 0); (0, 1); (0, 2)]%Z rectangular_scenarioB)
    as (Hhead & Hlast & _); [by vm_compute | done |].
  exact (conj Hhead Hlast).
Defined.

(** X17: on a rectangular grid, from a start cell that is in range and
    does not hold [1], [gridBFS] returns a shortest walk: the result is a
    walk from start to target through cells holding [0], no such walk has
    fewer cells, and the result is empty exactly when there is no such
    walk. *)
Theorem X17_gridBFS_path_is_shortest
    grid startRow startCol targetRow targetCol :
  rectangular grid →
  inside (length grid) (length (default [] (head grid)))
    (startRow, startCol) →
  at2 grid startRow startCol ≠ Returns 1%Z →
  ∃ p, gridBFS grid startRow startCol targetRow targetCol = Returns p ∧
       ((p = [] ∧
         ∀ l, ¬ grid_walk grid (length grid)
                  (length (default [] (head grid)))
                  (startRow, startCol) (targetRow, targetCol) l) ∨
        (grid_walk grid (length grid) (length (default [] (head grid)))
           (startRow, startCol) (targetRow, targetCol) p ∧
         ∀ l, grid_walk grid (length grid)
                (length (default [] (head grid)))
                (startRow, startCol) (targetRow, targetCol) l →
              length p ≤ length l)).
Proof.
  intros Hrect Hs Hopen.
  destruct (gridBFS_least_moves grid startRow startCol targetRow targetCol
              Hrect Hs Hopen) as (p & Hrun & Hcases).
  exists p. split; [done |].
  destruct Hcases as [[-> Hnone]|(d & Hlen & Hd & Hmin)].
  - left. split; [done |]. intros l (n & _ & Hn)%grid_walk_hops.
    by apply Hnone in Hn.
  - right.
    destruct (gridBFS_spec grid startRow startCol targetRow targetCol Hrect)
      as (p' & Hrun' & [->|Hwalk]); rewrite Hrun in Hrun'; simplify_eq.
    split; [done |]. intros l (n & Hl & Hn)%grid_walk_hops.
    apply Hmin in Hn. lia.
Qed.

Lemma X17_gridBFS_path_is_shortest_witness :
  rectangular scenarioB ∧
  inside (length scenarioB) (length (default [] (head scenarioB)))
    (0%Z, 0%Z) ∧
  at2 scenarioB 0 0 ≠ Returns 1%Z ∧
  ∃ p, gridBFS scenarioB 0 0 2 0 = Returns p ∧
       ((p = [] ∧
         ∀ l, ¬ grid_walk scenarioB (length scenarioB)
                  (length (default [] (head scenarioB)))
                  (0%Z, 0%Z) (2%Z, 0%Z) l) ∨
        (grid_walk scenarioB (length scenarioB)
           (length (default [] (head scenarioB)))
           (0%Z, 0%Z) (2%Z, 0%Z) p ∧
         ∀ l, grid_walk scenarioB (length scenarioB)
                (length (default [] (head scenarioB)))
                (0%Z, 0%Z) (2%Z, 0%Z) l →
              length p ≤ length l)).
Proof.
  split; [apply rectangular_scenarioB |].
  split; [apply inside_scenarioB_origin |].
  split; [apply scenarioB_origin_open |].
  apply (X17_gridBFS_path_is_shortest scenarioB 0 0 2 0);
    [apply rectangular_scenarioB | apply inside_scenarioB_origin
     | apply scenarioB_origin_open].
Defined.

(** X18: on a rectangular grid, between two cells that both hold [0],
    [gridBFS] returns paths of the same length in both directions (both
    empty when there is no walk). *)
Theorem X18_gridBFS_length_symmetric grid r1 c1 r2 c2 :
  rectangular grid →
  at2 grid r1 c1 = Returns 0%Z → at2 grid r2 c2 = Returns 0%Z →
  ∃ p q, gridBFS grid r1 c1 r2 c2 = Returns p ∧
         gridBFS grid r2 c2 r1 c1 = Returns q ∧
         length p = length q.
Proof.
  intros Hrect Hz1 Hz2. pose proof (rectangular_dims _ Hrect) as Hdims.
  pose proof (at2_Returns_inside _ _ _ _ _ _ Hdims Hz1) as Hin1.
  pose proof (at2_Returns_inside _ _ _ _ _ _ Hdims Hz2) as Hin2.
  destruct (gridBFS_least_moves grid r1 c1 r2 c2 Hrect Hin1)
    as (p & Hp & Hpcases); [congruence |].
  destruct (gridBFS_least_moves grid r2 c2 r1 c1 Hrect Hin2)
    as (q & Hq & Hqcases); [congruence |].
  exists p, q. split_and!; [done.. |].
  destruct Hpcases as [[-> Hnone]|(d & -> & Hd & Hdmin)];
    destruct Hqcases as [[-> Hnone']|(e & -> & He & Hemin)].
  - done.
  - apply hops_rev in He; [|done..]. by apply Hnone in He.
  - apply hops_rev in Hd; [|done..]. by apply Hnone' in Hd.
  - apply hops_rev in Hd as Hd'; [|done..].
    apply hops_rev in He as He'; [|done..].
    apply Hemin in Hd'. apply Hdmin in He'. lia.
Qed.

Lemma X18_gridBFS_length_symmetric_witness :
  rectangular scenarioB ∧
  at2 scenarioB 0 0 = Returns 0%Z ∧ at2 scenarioB 2 0 = Returns 0%Z ∧
  ∃ p q, gridBFS scenarioB 0 0 2 0 = Returns p ∧
         gridBFS scenarioB 2 0 0 0 = Returns q ∧
         length p = length q.
Proof.
  split; [apply rectangular_scenarioB |].
  split; [reflexivity |]. split; [reflexivity |].
  apply (X18_gridBFS_length_symmetric scenarioB 0 0 2 0);
    [apply rectangular_scenarioB | reflexivity | reflexivity].
Defined.

(** X19: on a rectangular grid without obstacles (every cell holds [0]),
    between two cells of the grid [gridBFS] returns a path with one cell
    more than the Manhattan distance. *)
Theorem X19_gridBFS_manhattan grid startRow startCol targetRow targetCol :
  rectangular grid →
  (∀ x, inside (length grid) (length (default [] (head grid))) x →
        at2 grid x.1 x.2 = Returns 0%Z) →
  inside (length grid) (length (default [] (head grid)))
    (startRow, startCol) →
  inside (length grid) (length (default [] (head grid)))
    (targetRow, targetCol) →
  ∃ p, gridBFS grid startRow startCol targetRow targetCol = Returns p ∧
       Z.of_nat (length p)
       = (1 + Z.abs (targetRow - startRow)
            + Z.abs (targetCol - startCol))%Z.
Proof.
  intros Hrect Hopen Hs Ht.
  destruct (gridBFS_least_moves grid startRow startCol targetRow targetCol
              Hrect Hs) as (p & Hp & Hcases).
  { pose proof (Hopen _ Hs) as Hzero. simpl in Hzero. congruence. }
  exists p. split; [done |].
  set (n := Z.to_nat (Z.abs (targetRow - startRow)
                      + Z.abs (targetCol - startCol))).
  assert (hops (gstep grid (length grid) (length (default [] (head grid))))
            (startRow, startCol) (targetRow, targetCol) n) as Hn.
  { apply hops_manhattan_open; [done.. |]. simpl. lia. }
  destruct Hcases as [[-> Hnone]|(d & -> & Hd & Hmin)].
  - by apply Hnone in Hn.
  - apply Hmin in Hn. apply hops_manhattan_le in Hd. simpl in Hd. lia.
Qed.

Lemma open_grid_rectangular : rectangular open_grid.
Proof.
  intros row Hrow. unfold open_grid in Hrow.
  repeat (apply elem_of_cons in Hrow as [->|Hrow]; [done |]).
  by apply elem_of_nil in Hrow.
Qed.

Lemma open_grid_open x :
  inside (length open_grid) (length (default [] (head open_grid))) x →
  at2 open_grid x.1 x.2 = Returns 0%Z.
Proof.
  destruct x as [r c]. intros [[??] [??]]. simpl in *.
  assert (r = 0 ∨ r = 1)%Z as [-> | ->] by lia;
    assert (c = 0 ∨ c = 1 ∨ c = 2)%Z as [-> | [-> | ->]] by lia;
    reflexivity.
Qed.

Lemma X19_gridBFS_manhattan_witness :
  rectangular open_grid ∧
  (∀ x, inside (length open_grid) (length (default [] (head open_grid))) x →
        at2 open_grid x.1 x.2 = Returns 0%Z) ∧
  inside (length open_grid) (length (default [] (head open_grid)))
    (0%Z, 0%Z) ∧
  inside (length open_grid) (length (default [] (head open_grid)))
    (1%Z, 2%Z) ∧
  ∃ p, gridBFS open_grid 0 0 1 2 = Returns p ∧
       Z.of_nat (length p) = (1 + Z.abs (1 - 0) + Z.abs (2 - 0))%Z.
Proof.
  split; [apply open_grid_rectangular |].
  split; [apply open_grid_open |].
  split; [split; simpl; lia |]. split; [split; simpl; lia |].
  apply (X19_gridBFS_manhattan open_grid 0 0 1 2);
    [apply open_grid_rectangular | apply open_grid_open
     | split; simpl; lia | split; simpl; lia].
Defined.

(** * How the container operations combine with the queries *)

Lemma walk_mono nbrs nbrs' u v n :
  (∀ k x, x ∈ nbrs k → x ∈ nbrs' k) →
  walk nbrs u v n → walk nbrs' u v n.
Proof.
  intros Hsub Hwalk. induction Hwalk; [constructor |].
  eapply walk_edge; [done |]. by apply Hsub.
Qed.

Lemma getNeighbors_addEdge_mono g a b k x :
  x ∈ getNeighbors g k → x ∈ getNeighbors (addEdge g a b) k.
Proof.
  intros Hx. destruct (isDirected g) eqn:Hd.
  - rewrite getNeighbors_addEdge_directed by done. apply elem_of_app. by left.
  - rewrite getNeighbors_addEdge_undirected by done.
    apply elem_of_app. by left.
Qed.

Lemma hasVertex_addEdge_mono g a b k :
  hasVertex g k = true → hasVertex (addEdge g a b) k = true.
Proof.
  rewrite !hasVertex_true. unfold addEdge.
  destruct (isDirected g); simpl; rewrite ?push_back_at_is_Some; auto.
Qed.

Lemma getNeighbors_addEdge_new g u v : v ∈ getNeighbors (addEdge g u v) u.
Proof.
  destruct (isDirected g) eqn:Hd.
  - rewrite getNeighbors_addEdge_directed by done.
    rewrite decide_True by done. set_solver.
  - rewrite getNeighbors_addEdge_undirected by done.
    rewrite decide_True by done. set_solver.
Qed.

(** X20: right after [addEdge(u, v)] with [u] and [v] different and [v] a
    vertex of the resulting graph (always so on an undirected graph),
    [shortestDistance(u, v)] is 1, and when [-1] is not a vertex id
    [shortestPath(u, v)] is the two-vertex path. *)
Theorem X20_addEdge_then_distance_one g u v :
  u ≠ v → hasVertex (addEdge g u v) v = true →
  shortestDistance (addEdge g u v) u v = Returns 1%Z ∧
  (¬ mentions (addEdge g u v) (-1)%Z →
   shortestPath (addEdge g u v) u v = Returns [u; v]).
Proof.
  intros Hne Hv. set (g' := addEdge g u v) in *.
  assert (hasVertex g' u = true) as Hu by apply hasVertex_addEdge_from.
  assert (dist (getNeighbors g') u v 1) as Hdist.
  { split.
    - eapply walk_edge; [constructor | apply getNeighbors_addEdge_new].
    - intros [|m] Hm; [|lia]. apply walk_zero in Hm. done. }
  split.
  - destruct (shortestDistance_spec g' u v Hu Hv)
      as (r & -> & [(n & Hn & ->)|[Hno _]]).
    + by rewrite (dist_unique _ _ _ _ _ Hn Hdist).
    + destruct Hno. by eapply dist_reachable.
  - intros Hno.
    destruct (shortestPath_shortest_walk g' u v Hno Hu Hv)
      as (p & -> & [[Hunreach _]|(Hhead & Hlast & _ & n & Hn & Hlen)]).
    + destruct Hunreach. by eapply dist_reachable.
    + rewrite (dist_unique _ _ _ _ _ Hn Hdist) in Hlen.
      destruct p as [|a [|b [|c p]]]; simplify_eq/=. done.
Qed.

Lemma X20_addEdge_then_distance_one_witness :
  (1 ≠ 5)%Z ∧ hasVertex (addEdge scenarioA 1 5) 5 = true ∧
  shortestDistance (addEdge scenarioA 1 5) 1 5 = Returns 1%Z.
Proof.
  split; [lia |]. split; [reflexivity |].
  apply (X20_addEdge_then_distance_one scenarioA 1 5); [lia | reflexivity].
Defined.

(** X21: adding an edge never lengthens a distance: when
    [shortestDistance(s, t)] is [d >= 0] before [addEdge(a, b)], it is
    between [0] and [d] afterwards. *)
Theorem X21_addEdge_never_lengthens g a b s t d :
  shortestDistance g s t = Returns d → (0 ≤ d)%Z →
  ∃ d', shortestDistance (addEdge g a b) s t = Returns d' ∧
        (0 ≤ d' ≤ d)%Z.
Proof.
  intros Hrun Hd.
  destruct (hasVertex g s) eqn:Hs.
  2:{ rewrite shortestDistance_absent in Hrun by auto. simplify_eq. lia. }
  destruct (hasVertex g t) eqn:Ht.
  2:{ rewrite shortestDistance_absent in Hrun by auto. simplify_eq. lia. }
  destruct (shortestDistance_spec g s t Hs Ht)
    as (r & Hr & [(n & [Hwalk _] & ->)|[_ ->]]);
    rewrite Hrun in Hr; simplify_eq; [|lia].
  destruct (shortestDistance_spec (addEdge g a b) s t)
    as (r & Hr & [(m & [_ Hmin] & ->)|[Hno _]]);
    [by apply hasVertex_addEdge_mono.. | |].
  - exists (Z.of_nat m). split; [done |].
    enough (m ≤ n) by lia. apply Hmin.
    eapply walk_mono; [|done]. intros. by apply getNeighbors_addEdge_mono.
  - destruct Hno. exists n.
    eapply walk_mono; [|done]. intros. by apply getNeighbors_addEdge_mono.
Qed.

Lemma X21_addEdge_never_lengthens_witness :
  shortestDistance scenarioA 1 3 = Returns 2%Z ∧ (0 ≤ 2)%Z ∧
  ∃ d', shortestDistance (addEdge scenarioA 1 3) 1 3 = Returns d' ∧
        (0 ≤ d' ≤ 2)%Z.
Proof.
  split; [reflexivity |]. split; [lia |].
  apply (X21_addEdge_never_lengthens scenarioA 1 3 1 3 2); [reflexivity | lia].
Defined.

(** X22: [addVertex] changes no answer about other vertices: for [s] and
    [t] different from the added vertex, [shortestDistance(s, t)] is the
    same before and after, and [traverse(s)] lists the same vertices. *)
Theorem X22_addVertex_changes_no_distance g x s t :
  s ≠ x → t ≠ x →
  shortestDistance (addVertex g x) s t = shortestDistance g s t ∧
  ∃ r r', traverse g s = Returns r ∧
          traverse (addVertex g x) s = Returns r' ∧
          ∀ v, v ∈ r ↔ v ∈ r'.
Proof.
  intros Hsx Htx.
  assert (∀ k, hasVertex (addVertex g x) k = hasVertex g k ∨ k = x) as Hhas.
  { intros k. destruct (decide (k = x)); [by right | left].
    rewrite !hasVertex_is_Some. unfold addVertex.
    destruct (adjList g !! x); simpl; [done |]. by rewrite lookup_insert_ne. }
  assert (∀ u v n, walk (getNeighbors (addVertex g x)) u v n
                   ↔ walk (getNeighbors g) u v n) as Hwalk.
  { intros u v n. split; apply walk_mono; intros k y;
      by rewrite getNeighbors_addVertex. }
  destruct (Hhas s) as [Hs|?]; [|done]. destruct (Hhas t) as [Ht|?]; [|done].
  split.
  - destruct (hasVertex g s) eqn:Hs'.
    2:{ rewrite !shortestDistance_absent; auto. }
    destruct (hasVertex g t) eqn:Ht'.
    2:{ rewrite !shortestDistance_absent; auto. }
    destruct (shortestDistance_spec g s t Hs' Ht') as (r & -> & Hr).
    destruct (shortestDistance_spec (addVertex g x) s t Hs Ht)
      as (r' & -> & Hr').
    f_equal.
    destruct Hr as [(n & [Hn Hnmin] & ->)|[Hno ->]];
      destruct Hr' as [(m & [Hm Hmmin] & ->)|[Hno' ->]].
    + apply Hwalk in Hm as Hm'. apply Hwalk in Hn as Hn'.
      apply Hnmin in Hm'. apply Hmmin in Hn'. lia.
    + destruct Hno'. exists n. by apply Hwalk.
    + destruct Hno. exists m. by apply Hwalk.
    + done.
  - destruct (hasVertex g s) eqn:Hs'.
    + destruct (traverse_levels g s Hs') as (out & -> & _ & _ & _ & Hreach).
      destruct (traverse_levels (addVertex g x) s Hs)
        as (out' & -> & _ & _ & _ & Hreach').
      exists out.*1, out'.*1. split_and!; [done.. |].
      intros v. rewrite Hreach, Hreach'. unfold reachable.
      by setoid_rewrite Hwalk.
    + exists [], []. by rewrite !traverse_absent.
Qed.

Lemma X22_addVertex_changes_no_distance_witness :
  (1 ≠ 9)%Z ∧ (3 ≠ 9)%Z ∧
  shortestDistance (addVertex scenarioA 9) 1 3 = shortestDistance scenarioA 1 3.
Proof.
  split; [lia |]. split; [lia |].
  apply (X22_addVertex_changes_no_distance scenarioA 9 1 3); lia.
Defined.

(** X23: on a graph built undirected, [traverse] is symmetric: for two
    vertices of the graph, one is listed by the traversal from the other
    exactly when the other is listed by the traversal from the first. *)
Theorem X23_traverse_membership_symmetric g u v :
  built false g → hasVertex g u = true → hasVertex g v = true →
  ∃ ru rv, traverse g u = Returns ru ∧ traverse g v = Returns rv ∧
           (v ∈ ru ↔ u ∈ rv).
Proof.
  intros Hb Hu Hv.
  assert (∀ a b, b ∈ getNeighbors g a → a ∈ getNeighbors g b) as Hsym
    by (intros; by apply built_undirected_symmetric).
  destruct (traverse_levels g u Hu) as (ou & -> & _ & _ & _ & Hru).
  destruct (traverse_levels g v Hv) as (ov & -> & _ & _ & _ & Hrv).
  exists ou.*1, ov.*1. split_and!; [done.. |].
  rewrite Hru, Hrv. split; by apply reachable_sym.
Qed.

Lemma X23_traverse_membership_symmetric_witness :
  built false scenarioA ∧
  hasVertex scenarioA 1 = true ∧ hasVertex scenarioA 3 = true ∧
  ∃ ru rv, traverse scenarioA 1 = Returns ru ∧
           traverse scenarioA 3 = Returns rv ∧
           (3%Z ∈ ru ↔ 1%Z ∈ rv).
Proof.
  split; [apply built_scenarioA |].
  split; [reflexivity |]. split; [reflexivity |].
  apply (X23_traverse_membership_symmetric scenarioA 1 3);
    [apply built_scenarioA | reflexivity | reflexivity].
Defined.
